(** * ngx-named-router: route registry and path interpolation

    A shallow embedding of the two services of the library:
    [NamedRouterService], whose [interpolatePathParams] turns a path
    pattern and a parameter bag into path segments, and
    [NamedRouteService], which builds the registry of route names from
    the router configuration; of the JavaScript built-ins they call; and
    of the methods of [NamedRouterService] and of
    [NamedRouterLinkDirective] that navigate by name, over the router
    of the host.

    Conventions of the model.
    - A string is the sequence of its UTF-16 code units, integers in
      [0, 65536).  [encodeURIComponent] and [decodeURIComponent] follow
      ECMA-262, with [URIError] on unpaired surrogates.
    - A parameter bag is an object: its own properties and those it
      inherits, which a property read finds too; [{}] inherits those of
      [Object.prototype].  A value is [undefined], [null], a string, a
      safe integer (printed in decimal), or any other value, given by
      its string form.
    - What a loader resolves to is given by what the code tests of it;
      the [routes] property of a module may be anything.
    - A thrown value is a [JsError]; a synchronous call that may throw
      returns a [Completion].
    - The body of an [async] function is a resumption ([Result]): it
      returns, throws, or stops at an [await] with the rest of the body.
      Every [await] stops.  A [System] holds the service, the promises
      and the stopped calls; [Step] lets calls of the methods and stopped
      calls going on follow each other in any order.
    - A [loadChildren] function has an identity for the log of calls and
      a fixed way in which its promise settles.
    - The router of the host is a record of the three methods the
      library calls, for any type of URL trees.

    The definitions come first, the lemmas and the theorems on the claims
    C1 to C10 of the specification after them, and then further
    properties of the code, X1 to X17. *)

From Stdlib Require Import ZArith List String Ascii Bool Lia.
From stdpp Require Import base option gmap.
Import ListNotations.
Open Scope Z_scope.

Set Warnings "-register-all".

(* ================================================================== *)
(** ** JavaScript strings *)
(* ================================================================== *)

Abbreviation jsstring := (list Z).

(** A literal of the source, as its code units (all literals of the
    library are ASCII). *)
Definition js (s : string) : jsstring :=
  List.map (fun a => Z.of_N (N_of_ascii a)) (list_ascii_of_string s).
Arguments js : simpl never.

Definition isCodeUnit (c : Z) : Prop := 0 <= c < 65536.

Definition SLASH : Z := 47.
Definition COLON : Z := 58.
Definition QUESTION : Z := 63.
Definition LPAREN : Z := 40.
Definition RPAREN : Z := 41.
Definition PERCENT : Z := 37.

(** [!s] for a string: only the empty string is falsy. *)
Definition isEmpty (s : jsstring) : bool :=
  match s with [] => true | _ => false end.

(** [s.startsWith(c)] and [s.endsWith(c)] for a one-character [c]. *)
Definition startsWith (c : Z) (s : jsstring) : bool :=
  match s with x :: _ => x =? c | [] => false end.

Definition endsWith (c : Z) (s : jsstring) : bool :=
  match List.rev s with x :: _ => x =? c | [] => false end.

(** [s.substring(1)]. *)
Definition substring1 (s : jsstring) : jsstring := List.tl s.

(** [s.slice(0, -1)]. *)
Definition sliceDropLast (s : jsstring) : jsstring := List.removelast s.

(** [s.indexOf(c)]: the first index of [c], or [-1]. *)
Fixpoint indexOf (c : Z) (s : jsstring) : Z :=
  match s with
  | [] => -1
  | x :: r =>
      if x =? c then 0
      else let i := indexOf c r in if i =? -1 then -1 else 1 + i
  end.

(** [s.substring(0, n)] for [0 <= n]. *)
Definition substring0 (n : Z) (s : jsstring) : jsstring :=
  List.firstn (Z.to_nat n) s.

(** [s.split(c)]: the pieces between the occurrences of [c]; never an
    empty array. *)
Fixpoint split (c : Z) (s : jsstring) : list jsstring :=
  match s with
  | [] => [[]]
  | x :: r =>
      if x =? c then [] :: split c r
      else match split c r with
           | piece :: pieces => (x :: piece) :: pieces
           | [] => [[x]]
           end
  end.

(** [pieces.join(sep)]. *)
Fixpoint join (sep : jsstring) (pieces : list jsstring) : jsstring :=
  match pieces with
  | [] => []
  | [p] => p
  | p :: ps => p ++ sep ++ join sep ps
  end.

(** [haystack.includes(needle)], used to read messages. *)
Fixpoint isPrefixOf (p s : jsstring) : bool :=
  match p, s with
  | [], _ => true
  | x :: p', y :: s' => (x =? y) && isPrefixOf p' s'
  | _ :: _, [] => false
  end.

Fixpoint includes (needle haystack : jsstring) : bool :=
  isPrefixOf needle haystack
  || match haystack with
     | [] => false
     | _ :: r => includes needle r
     end.

(** White space and line terminators, the characters [trim] removes. *)
Definition isWhiteSpace (c : Z) : bool :=
  ((9 <=? c) && (c <=? 13)) || (c =? 32) || (c =? 160) || (c =? 5760)
  || ((8192 <=? c) && (c <=? 8202)) || (c =? 8232) || (c =? 8233)
  || (c =? 8239) || (c =? 8287) || (c =? 12288) || (c =? 65279).

Fixpoint trimStart (s : jsstring) : jsstring :=
  match s with
  | c :: r => if isWhiteSpace c then trimStart r else s
  | [] => []
  end.

Definition trim (s : jsstring) : jsstring :=
  List.rev (trimStart (List.rev (trimStart s))).

(** [s.replace(/\/+/g, '/')]: every run of slashes becomes one slash. *)
Fixpoint collapseSlashes (s : jsstring) : jsstring :=
  match s with
  | [] => []
  | c :: r =>
      if (c =? SLASH) && startsWith SLASH r then collapseSlashes r
      else c :: collapseSlashes r
  end.

(* ================================================================== *)
(** ** Thrown values and completions *)
(* ================================================================== *)

(** The values the library throws or receives from a rejected loader.
    [NamedRouteError] and [DuplicateRouteNameError] are the classes of
    [errors.ts]; [DuplicateRouteNameError] extends [NamedRouteError]. *)
Inductive JsError : Type :=
| Error (message : jsstring)
| URIError (message : jsstring)
| NamedRouteError (message : jsstring)
| DuplicateRouteNameError (routeName existingPath newPath : jsstring)
| NonError (stringForm : jsstring).

Definition duplicateMessage (routeName existingPath newPath : jsstring) : jsstring :=
  js "Duplicate route name '" ++ routeName ++ js "' detected. "
  ++ js "Existing path: '" ++ existingPath ++ js "', New path: '" ++ newPath ++ js "'. "
  ++ js "Route names must be unique across the entire application.".

(** [error instanceof Error ? error.message : String(error)]. *)
Definition errorText (e : JsError) : jsstring :=
  match e with
  | Error m | URIError m | NamedRouteError m => m
  | DuplicateRouteNameError n p q => duplicateMessage n p q
  | NonError s => s
  end.

(** [error instanceof NamedRouteError]. *)
Definition instanceofNamedRouteError (e : JsError) : bool :=
  match e with
  | NamedRouteError _ | DuplicateRouteNameError _ _ _ => true
  | _ => false
  end.

(** [error instanceof DuplicateRouteNameError]. *)
Definition instanceofDuplicateRouteNameError (e : JsError) : bool :=
  match e with
  | DuplicateRouteNameError _ _ _ => true
  | _ => false
  end.

(** The outcome of a synchronous call. *)
Inductive Completion (A : Type) : Type :=
| Normal (a : A)
| Throws (e : JsError).
Arguments Normal {A} a.
Arguments Throws {A} e.

Definition cbind {A B} (c : Completion A) (f : A -> Completion B) : Completion B :=
  match c with
  | Normal a => f a
  | Throws e => Throws e
  end.

#[global] Instance Completion_bind : MBind Completion :=
  fun A B f c => cbind c f.
#[global] Instance Completion_ret : MRet Completion := @Normal.

(* ================================================================== *)
(** ** [encodeURIComponent] and [decodeURIComponent] (ECMA-262, 19.2.6) *)
(* ================================================================== *)

(** The unreserved set of [encodeURIComponent]:
    letters, digits and [- _ . ! ~ * ' ( )]. *)
Definition isUnreserved (c : Z) : bool :=
  ((65 <=? c) && (c <=? 90)) || ((97 <=? c) && (c <=? 122))
  || ((48 <=? c) && (c <=? 57))
  || (c =? 45) || (c =? 95) || (c =? 46) || (c =? 33) || (c =? 126)
  || (c =? 42) || (c =? 39) || (c =? 40) || (c =? 41).

Definition isLeadSurrogate (c : Z) : bool := (55296 <=? c) && (c <=? 56319).
Definition isTrailSurrogate (c : Z) : bool := (56320 <=? c) && (c <=? 57343).

(** The code point of a surrogate pair. *)
Definition pairCodePoint (lead trail : Z) : Z :=
  (lead - 55296) * 1024 + (trail - 56320) + 65536.

(** UTF-8 octets of a code point. *)
Definition utf8Encode (cp : Z) : list Z :=
  if cp <? 128 then [cp]
  else if cp <? 2048 then [192 + cp / 64; 128 + cp mod 64]
  else if cp <? 65536 then
    [224 + cp / 4096; 128 + (cp / 64) mod 64; 128 + cp mod 64]
  else
    [240 + cp / 262144; 128 + (cp / 4096) mod 64;
     128 + (cp / 64) mod 64; 128 + cp mod 64].

(** Upper-case hexadecimal digit of [0 <= d < 16]. *)
Definition hexDigit (d : Z) : Z := if d <? 10 then 48 + d else 55 + d.

Definition percentOctet (b : Z) : jsstring :=
  [PERCENT; hexDigit (b / 16); hexDigit (b mod 16)].

Definition percentEncode (octets : list Z) : jsstring :=
  List.concat (List.map percentOctet octets).

Definition uriMalformed : JsError := URIError (js "URI malformed").

(** [encodeURIComponent(s)]: unreserved characters are kept, every other
    code point is replaced by the escapes of its UTF-8 octets; a
    surrogate that is not part of a pair throws [URIError]. *)
Fixpoint encodeURIComponent (s : jsstring) : Completion jsstring :=
  match s with
  | [] => Normal []
  | c :: rest =>
      if isUnreserved c then
        r ← encodeURIComponent rest; Normal (c :: r)
      else if isLeadSurrogate c then
        match rest with
        | d :: rest' =>
            if isTrailSurrogate d then
              r ← encodeURIComponent rest';
              Normal (percentEncode (utf8Encode (pairCodePoint c d)) ++ r)
            else Throws uriMalformed
        | [] => Throws uriMalformed
        end
      else if isTrailSurrogate c then Throws uriMalformed
      else
        r ← encodeURIComponent rest;
        Normal (percentEncode (utf8Encode c) ++ r)
  end.

(** Value of a hexadecimal digit, either case. *)
Definition hexValue (c : Z) : option Z :=
  if (48 <=? c) && (c <=? 57) then Some (c - 48)
  else if (65 <=? c) && (c <=? 70) then Some (c - 55)
  else if (97 <=? c) && (c <=? 102) then Some (c - 87)
  else None.

(** Reads one escape [%XX] at the head of [s]. *)
Definition readEscape (s : jsstring) : option (Z * jsstring) :=
  match s with
  | p :: h :: l :: rest =>
      if p =? PERCENT then
        match hexValue h, hexValue l with
        | Some hv, Some lv => Some (16 * hv + lv, rest)
        | _, _ => None
        end
      else None
  | _ => None
  end.

(** Reads [n] escapes that are UTF-8 continuation octets. *)
Fixpoint readContinuations (n : nat) (s : jsstring) : option (list Z * jsstring) :=
  match n with
  | O => Some ([], s)
  | S n' =>
      match readEscape s with
      | Some (b, rest) =>
          if (128 <=? b) && (b <? 192) then
            match readContinuations n' rest with
            | Some (bs, rest') => Some (b :: bs, rest')
            | None => None
            end
          else None
      | None => None
      end
  end.

(** Number of leading 1 bits of an octet, capped at 5. *)
Definition leadingOnes (b : Z) : nat :=
  if b <? 128 then 0 else if b <? 192 then 1 else if b <? 224 then 2
  else if b <? 240 then 3 else if b <? 248 then 4 else 5.

(** The code point of a well-formed UTF-8 sequence: continuation octets
    are checked by [readContinuations]; overlong forms, surrogates and
    values above U+10FFFF are refused here. *)
Definition utf8Decode (b : Z) (conts : list Z) : option Z :=
  match conts with
  | [c1] =>
      let cp := (b - 192) * 64 + (c1 - 128) in
      if 128 <=? cp then Some cp else None
  | [c1; c2] =>
      let cp := (b - 224) * 4096 + (c1 - 128) * 64 + (c2 - 128) in
      if (2048 <=? cp) && negb ((55296 <=? cp) && (cp <=? 57343)) then Some cp
      else None
  | [c1; c2; c3] =>
      let cp := (b - 240) * 262144 + (c1 - 128) * 4096 + (c2 - 128) * 64 + (c3 - 128) in
      if (65536 <=? cp) && (cp <=? 1114111) then Some cp else None
  | _ => None
  end.

(** UTF-16 code units of a code point. *)
Definition utf16Encode (cp : Z) : jsstring :=
  if cp <? 65536 then [cp]
  else [55296 + (cp - 65536) / 1024; 56320 + (cp - 65536) mod 1024].

(** The loop of [Decode]; [fuel] bounds the number of characters read,
    the length of the input is always enough. *)
Fixpoint decodeLoop (fuel : nat) (s : jsstring) : Completion jsstring :=
  match s with
  | [] => Normal []
  | c :: rest =>
      match fuel with
      | O => Throws uriMalformed
      | S fuel' =>
          if c =? PERCENT then
            match readEscape s with
            | None => Throws uriMalformed
            | Some (b, rest1) =>
                match leadingOnes b with
                | O => r ← decodeLoop fuel' rest1; Normal (b :: r)
                | S O => Throws uriMalformed
                | S (S (S (S (S _)))) => Throws uriMalformed
                | S n' =>
                    match readContinuations n' rest1 with
                    | None => Throws uriMalformed
                    | Some (conts, rest2) =>
                        match utf8Decode b conts with
                        | None => Throws uriMalformed
                        | Some cp =>
                            r ← decodeLoop fuel' rest2;
                            Normal (utf16Encode cp ++ r)
                        end
                    end
                end
            end
          else r ← decodeLoop fuel' rest; Normal (c :: r)
      end
  end.

Definition decodeURIComponent (s : jsstring) : Completion jsstring :=
  decodeLoop (List.length s) s.

(** A string is well formed when every surrogate is part of a pair. *)
Fixpoint isWellFormed (s : jsstring) : bool :=
  match s with
  | [] => true
  | c :: rest =>
      if isLeadSurrogate c then
        match rest with
        | d :: rest' => isTrailSurrogate d && isWellFormed rest'
        | [] => false
        end
      else negb (isTrailSurrogate c) && isWellFormed rest
  end.

(** The same, as the way a well-formed string is built. *)
Inductive WellFormed : jsstring -> Prop :=
| WellFormed_nil : WellFormed []
| WellFormed_unit c s :
    isLeadSurrogate c = false -> isTrailSurrogate c = false ->
    WellFormed s -> WellFormed (c :: s)
| WellFormed_pair c d s :
    isLeadSurrogate c = true -> isTrailSurrogate d = true ->
    WellFormed s -> WellFormed (c :: d :: s).

(* ================================================================== *)
(** ** Parameter values *)
(* ================================================================== *)

(** [Number.MAX_SAFE_INTEGER]: up to it in magnitude every integer is a
    number, and [String] of the number is its decimal notation. *)
Definition MAX_SAFE_INTEGER : Z := 9007199254740991.

Definition isSafeInteger (n : Z) : bool :=
  (- MAX_SAFE_INTEGER <=? n) && (n <=? MAX_SAFE_INTEGER).

Record SafeInteger : Type := mkSafeInteger {
  integerValue : Z;
  integerIsSafe : Is_true (isSafeInteger integerValue)
}.

(** What a property read [routeParams[name]] can yield.  [RouteParams]
    declares [string | number]; [undefined] and [null] are what the code
    tests for.  Of the numbers, the safe integers are modelled as such;
    any other value (another number, a boolean, a function, an object)
    is [VOther], given by the string [String] makes of it, which is all
    the code reads of a value that is neither [undefined] nor [null]. *)
Inductive JsValue : Type :=
| VUndefined
| VNull
| VStr (s : jsstring)
| VNum (n : SafeInteger)
| VOther (stringForm : jsstring).

Fixpoint digitsOf (d : Decimal.uint) : jsstring :=
  match d with
  | Decimal.Nil => []
  | Decimal.D0 r => 48 :: digitsOf r
  | Decimal.D1 r => 49 :: digitsOf r
  | Decimal.D2 r => 50 :: digitsOf r
  | Decimal.D3 r => 51 :: digitsOf r
  | Decimal.D4 r => 52 :: digitsOf r
  | Decimal.D5 r => 53 :: digitsOf r
  | Decimal.D6 r => 54 :: digitsOf r
  | Decimal.D7 r => 55 :: digitsOf r
  | Decimal.D8 r => 56 :: digitsOf r
  | Decimal.D9 r => 57 :: digitsOf r
  end.

(** The decimal notation of an integer, with a minus sign when it is
    negative. *)
Definition decimalOf (n : Z) : jsstring :=
  match Z.to_int n with
  | Decimal.Pos d => digitsOf d
  | Decimal.Neg d => 45 :: digitsOf d
  end.

(** [String(v)]. *)
Definition String_ (v : JsValue) : jsstring :=
  match v with
  | VUndefined => js "undefined"
  | VNull => js "null"
  | VStr s => s
  | VNum n => decimalOf (integerValue n)
  | VOther stringForm => stringForm
  end.

(** [v !== undefined && v !== null]. *)
Definition isPresent (v : JsValue) : bool :=
  match v with
  | VUndefined | VNull => false
  | _ => true
  end.

(** A built-in function, by the string V8 makes of it. *)
Definition nativeFunction (name : string) : JsValue :=
  VOther (js "function " ++ js name ++ js "() { [native code] }").

(** What a property read on an object literal finds on its prototype,
    [Object.prototype]: the methods, [constructor], and for [__proto__]
    the prototype itself, an object. *)
Definition objectPrototype : gmap (list Z) JsValue :=
  list_to_map
    [(js "constructor", nativeFunction "Object");
     (js "hasOwnProperty", nativeFunction "hasOwnProperty");
     (js "isPrototypeOf", nativeFunction "isPrototypeOf");
     (js "propertyIsEnumerable", nativeFunction "propertyIsEnumerable");
     (js "toLocaleString", nativeFunction "toLocaleString");
     (js "toString", nativeFunction "toString");
     (js "valueOf", nativeFunction "valueOf");
     (js "__defineGetter__", nativeFunction "__defineGetter__");
     (js "__defineSetter__", nativeFunction "__defineSetter__");
     (js "__lookupGetter__", nativeFunction "__lookupGetter__");
     (js "__lookupSetter__", nativeFunction "__lookupSetter__");
     (js "__proto__", VOther (js "[object Object]"))].

(** The parameter bag: an object, by its own properties and by the
    properties of its prototype chain. *)
Record RouteParams : Type := mkRouteParams {
  ownProperties : gmap (list Z) JsValue;
  inheritedProperties : gmap (list Z) JsValue
}.

(** An object literal [{name: value, ...}], by its own properties: its
    prototype is [Object.prototype].  [{}] is [objectLiteral ∅]. *)
Definition objectLiteral (properties : gmap (list Z) JsValue) : RouteParams :=
  mkRouteParams properties objectPrototype.

(** [routeParams[name]]: the own property when there is one, also when
    its value is [undefined]; else the inherited one; else
    [undefined]. *)
Definition getParam (routeParams : RouteParams) (name : jsstring) : JsValue :=
  match ownProperties routeParams !! name with
  | Some v => v
  | None => default VUndefined (inheritedProperties routeParams !! name)
  end.

(* ================================================================== *)
(** ** NamedRouterService: path interpolation *)
(* ================================================================== *)

Module NamedRouterService.

(** The two arrays the loop of [interpolatePathParams] fills. *)
Record Acc : Type := mkAcc {
  result : list jsstring;
  missingParams : list jsstring
}.

(** The body of [for (let segment of segments)]. *)
Definition interpolateSegment (routeParams : RouteParams) (segment : jsstring)
    (acc : Acc) : Completion Acc :=
  if startsWith COLON segment then
    let isOptional := endsWith QUESTION segment in
    let paramName := substring1 segment in
    let paramName := if isOptional then sliceDropLast paramName else paramName in
    let parenIndex := indexOf LPAREN paramName in
    let paramName :=
      if negb (parenIndex =? -1) then substring0 parenIndex paramName
      else paramName in
    let paramValue := getParam routeParams paramName in
    if isPresent paramValue then
      encoded ← encodeURIComponent (String_ paramValue);
      Normal (mkAcc (result acc ++ [encoded]) (missingParams acc))
    else if negb isOptional then
      Normal (mkAcc (result acc) (missingParams acc ++ [paramName]))
    else Normal acc
  else Normal (mkAcc (result acc ++ [segment]) (missingParams acc)).

Fixpoint interpolateLoop (routeParams : RouteParams) (segments : list jsstring)
    (acc : Acc) : Completion Acc :=
  match segments with
  | [] => Normal acc
  | segment :: rest =>
      acc' ← interpolateSegment routeParams segment acc;
      interpolateLoop routeParams rest acc'
  end.

(** [pathPattern.split('/').filter(s => s.length > 0)]. *)
Definition segmentsOf (pathPattern : jsstring) : list jsstring :=
  List.filter (fun s => (0 <? List.length s)%nat) (split SLASH pathPattern).

Definition missingMessage (missing : list jsstring) : jsstring :=
  js "Missing required route parameters: " ++ join (js ", ") missing.

(** [interpolatePathParams(pathPattern, routeParams)]; an absent pattern
    is [None]. *)
Definition interpolatePathParams (pathPattern : option jsstring)
    (routeParams : RouteParams) : Completion (list jsstring) :=
  match pathPattern with
  | None => Normal [js "/"]
  | Some pattern =>
      if isEmpty pattern then Normal [js "/"]
      else
        acc ← interpolateLoop routeParams (segmentsOf pattern) (mkAcc [] []);
        if (0 <? List.length (missingParams acc))%nat then
          Throws (Error (missingMessage (missingParams acc)))
        else Normal (result acc)
  end.

(** The values of the locals [isOptional] and [paramName] of the loop
    for a segment that starts with the marker. *)
Definition isOptionalOf (segment : jsstring) : bool := endsWith QUESTION segment.

Definition paramNameOf (segment : jsstring) : jsstring :=
  let paramName := substring1 segment in
  let paramName :=
    if isOptionalOf segment then sliceDropLast paramName else paramName in
  let parenIndex := indexOf LPAREN paramName in
  if negb (parenIndex =? -1) then substring0 parenIndex paramName else paramName.

(** The parse of a placeholder in the order of the specification: strip
    the leading marker, detect and strip a trailing optionality marker,
    detect and strip a parenthesized constraint suffix. *)
Definition parsePlaceholder (segment : jsstring) : jsstring * bool :=
  let afterMarker := List.tl segment in
  let optional := endsWith QUESTION afterMarker in
  let afterOptional :=
    if optional then List.removelast afterMarker else afterMarker in
  let name :=
    match indexOf LPAREN afterOptional with
    | -1 => afterOptional
    | i => List.firstn (Z.to_nat i) afterOptional
    end in
  (name, optional).

(** The required placeholders without a value, in the order of the
    segments. *)
Definition isMissing (routeParams : RouteParams) (segment : jsstring) : bool :=
  startsWith COLON segment
  && negb (isOptionalOf segment)
  && negb (isPresent (getParam routeParams (paramNameOf segment))).

Definition missingNames (routeParams : RouteParams) (segments : list jsstring)
    : list jsstring :=
  List.map paramNameOf (List.filter (isMissing routeParams) segments).

End NamedRouterService.

(* ================================================================== *)
(** ** Route configuration *)
(* ================================================================== *)

(** The [routes] property of a loaded value: falsy (absent, say), an
    array, or another truthy value, of which the traversal reads only
    whether its [length] is greater than zero. *)
Inductive RoutesProperty (R : Type) : Type :=
| RoutesFalsy
| RoutesList (routes : list R)
| RoutesOther (lengthIsPositive : bool).
Arguments RoutesFalsy {R}.
Arguments RoutesList {R} routes.
Arguments RoutesOther {R} lengthIsPositive.

(** What a lazy loader can resolve to, by the tests
    [extractRoutesFromLazyModule] makes on it: an array; an object, with
    its [default] when that is an array, its [routes] and whether one of
    its keys includes ['mod']; a function (a module class), with its
    static [routes]; anything else.  The routes the injector yields for a
    module ([injector.get(ROUTES, null)], flattened) are recorded with
    the loaded value. *)
Inductive Loaded (R : Type) : Type :=
| LoadedArray (routes : list R)
| LoadedObject (default : option (list R)) (routes : RoutesProperty R)
    (hasModKey : bool) (injected : option (list R))
| LoadedFunction (injected : option (list R)) (staticRoutes : RoutesProperty R)
| LoadedOther.
Arguments LoadedArray {R} routes.
Arguments LoadedObject {R} default routes hasModKey injected.
Arguments LoadedFunction {R} injected staticRoutes.
Arguments LoadedOther {R}.

Inductive LoadOutcome (R : Type) : Type :=
| Resolves (loaded : Loaded R)
| Rejects (reason : JsError).
Arguments Resolves {R} loaded.
Arguments Rejects {R} reason.

(** A [loadChildren] function: [loaderId] names it in the call log,
    [loaderOutcome] is how the promise it returns settles. *)
Inductive Loader (R : Type) : Type :=
| mkLoader (loaderId : nat) (loaderOutcome : LoadOutcome R).
Arguments mkLoader {R} loaderId loaderOutcome.

Definition loaderId {R} (l : Loader R) : nat :=
  match l with mkLoader i _ => i end.
Definition loaderOutcome {R} (l : Loader R) : LoadOutcome R :=
  match l with mkLoader _ o => o end.

(** [NamedRoute]: the fields the registry reads.  [children] is [Some]
    when the property is an array. *)
Inductive Route : Type :=
| mkRoute (path : option jsstring) (name : option jsstring)
    (children : option (list Route)) (loadChildren : option (Loader Route)).

Definition path (r : Route) : option jsstring :=
  match r with mkRoute p _ _ _ => p end.
Definition name (r : Route) : option jsstring :=
  match r with mkRoute _ n _ _ => n end.
Definition children (r : Route) : option (list Route) :=
  match r with mkRoute _ _ c _ => c end.
Definition loadChildren (r : Route) : option (Loader Route) :=
  match r with mkRoute _ _ _ l => l end.

(** A value passed as [routes]: an array or not. *)
Inductive RoutesValue : Type :=
| NotAnArray
| RoutesArray (routes : list Route).

(* ================================================================== *)
(** ** The service object and its surroundings *)
(* ================================================================== *)

(** A JavaScript [Map<string, string>]: entries in insertion order, one
    per key. *)
Abbreviation JsMap := (list (list Z * list Z)).

Fixpoint mapGet (key : jsstring) (m : JsMap) : option jsstring :=
  match m with
  | [] => None
  | (k, v) :: rest => if decide (k = key) then Some v else mapGet key rest
  end.

Definition mapHas (key : jsstring) (m : JsMap) : bool :=
  match mapGet key m with Some _ => true | None => false end.

Fixpoint mapSet (key value : jsstring) (m : JsMap) : JsMap :=
  match m with
  | [] => [(key, value)]
  | (k, v) :: rest =>
      if decide (k = key) then (k, value) :: rest
      else (k, v) :: mapSet key value rest
  end.

Definition mapKeys (m : JsMap) : list jsstring := List.map fst m.

Inductive ConsoleEntry : Type :=
| ConsoleWarn (text : jsstring)
| ConsoleError (text : jsstring).

(** The fields of [NamedRouteService]; [initializationPromise] holds the
    identity of a promise. *)
Record Service : Type := mkService {
  routeMap : JsMap;
  isInitialized : bool;
  initializationPromise : option nat
}.

(** What the code of the service reads and writes: its own fields,
    [router.config] ([None] when the router or its configuration is
    missing), the log of loader calls and the console. *)
Record Env : Type := mkEnv {
  service : Service;
  config : option RoutesValue;
  loaderCalls : list nat;
  console : list ConsoleEntry
}.

Definition setService (f : Service -> Service) (env : Env) : Env :=
  mkEnv (f (service env)) (config env) (loaderCalls env) (console env).

Definition setRouteMap (m : JsMap) (s : Service) : Service :=
  mkService m (isInitialized s) (initializationPromise s).
Definition setIsInitialized (b : bool) (s : Service) : Service :=
  mkService (routeMap s) b (initializationPromise s).
Definition setInitializationPromise (p : option nat) (s : Service) : Service :=
  mkService (routeMap s) (isInitialized s) p.

Definition setConfig (c : option RoutesValue) (env : Env) : Env :=
  mkEnv (service env) c (loaderCalls env) (console env).
Definition logLoaderCall (i : nat) (env : Env) : Env :=
  mkEnv (service env) (config env) (loaderCalls env ++ [i]) (console env).
Definition logConsole (entry : ConsoleEntry) (env : Env) : Env :=
  mkEnv (service env) (config env) (loaderCalls env) (console env ++ [entry]).

(* ================================================================== *)
(** ** Asynchronous functions *)
(* ================================================================== *)

(** Running the body of an [async] function from some state: it returns,
    throws, or stops at an [await] with the rest of the body, which is
    resumed later from the state of that later time. *)
Inductive Result (A : Type) : Type :=
| Done (env : Env) (a : A)
| Failed (env : Env) (e : JsError)
| Suspended (env : Env) (resume : Env -> Result A).
Arguments Done {A} env a.
Arguments Failed {A} env e.
Arguments Suspended {A} env resume.

Definition Task (A : Type) : Type := Env -> Result A.

Definition ret {A} (a : A) : Task A := fun env => Done env a.
Definition throw {A} (e : JsError) : Task A := fun env => Failed env e.
Definition modify (f : Env -> Env) : Task unit := fun env => Done (f env) tt.

Fixpoint bindResult {A B} (r : Result A) (f : A -> Task B) : Result B :=
  match r with
  | Done env a => f a env
  | Failed env e => Failed env e
  | Suspended env k => Suspended env (fun env' => bindResult (k env') f)
  end.

Definition bind {A B} (t : Task A) (f : A -> Task B) : Task B :=
  fun env => bindResult (t env) f.

Notation "t1 ;; t2" := (bind t1 (fun _ => t2))
  (at level 100, right associativity).

(** [try { ... } catch (error) { ... }]. *)
Fixpoint catchResult {A} (r : Result A) (handler : JsError -> Task A) : Result A :=
  match r with
  | Done env a => Done env a
  | Failed env e => handler e env
  | Suspended env k => Suspended env (fun env' => catchResult (k env') handler)
  end.

Definition tryCatch {A} (t : Task A) (handler : JsError -> Task A) : Task A :=
  fun env => catchResult (t env) handler.

(** [await f(...)] for an [async] function [f]: the callee runs at once
    up to its own first [await]; the caller always stops, and goes on
    (or sees the exception) only after the callee has settled. *)
Fixpoint awaitResult {A} (r : Result A) : Result A :=
  match r with
  | Done env a => Suspended env (fun env' => Done env' a)
  | Failed env e => Suspended env (fun env' => Failed env' e)
  | Suspended env k => Suspended env (fun env' => awaitResult (k env'))
  end.

Definition await {A} (t : Task A) : Task A := fun env => awaitResult (t env).

(** [for (const x of xs) { body }]. *)
Definition forEach {X} (body : X -> Task unit) : list X -> Task unit :=
  fix loop (xs : list X) : Task unit :=
    match xs with
    | [] => ret tt
    | x :: rest => body x ;; loop rest
    end.

(** Running a resumption to its end with nothing else in between. *)
Fixpoint finish {A} (r : Result A) : Env * Completion A :=
  match r with
  | Done env a => (env, Normal a)
  | Failed env e => (env, Throws e)
  | Suspended env k => finish (k env)
  end.

(** The state in which a resumption first stops. *)
Definition stopEnv {A} (r : Result A) : Env :=
  match r with
  | Done env _ | Failed env _ | Suspended env _ => env
  end.

(* ================================================================== *)
(** ** NamedRouteService: the registry *)
(* ================================================================== *)

Module NamedRouteService.

(** [joinPaths(parent, child?)]. *)
Definition joinPaths (parent : jsstring) (child : option jsstring) : jsstring :=
  match child with
  | None => parent
  | Some c =>
      if isEmpty c then parent
      else if isEmpty parent then c
      else collapseSlashes (parent ++ js "/" ++ c)
  end.

(** [registerRoute(name, path)]. *)
Definition registerRoute (name path : jsstring) : Task unit :=
  fun env =>
    if isEmpty (trim name) then
      Done (logConsole
              (ConsoleWarn (js "Attempted to register route with empty name, skipping"))
              env) tt
    else
      match mapGet name (routeMap (service env)) with
      | Some existingPath =>
          Failed env (DuplicateRouteNameError name existingPath path)
      | None =>
          Done (setService (setRouteMap (mapSet name path (routeMap (service env)))) env) tt
      end.

Definition warnNoRoutesInModule : Task unit :=
  modify (logConsole (ConsoleWarn (js "Could not extract routes from NgModule:"))).
Definition warnUnknownShape : Task unit :=
  modify (logConsole (ConsoleWarn (js "Unable to extract routes from lazy module:"))).

(** What the two extracting functions return: an array of routes, or
    the [routes] property of a module when that is truthy and not an
    array. *)
Inductive Extracted : Type :=
| ExtractedRoutes (routes : list Route)
| ExtractedOther (lengthIsPositive : bool).

(** [extractRoutesFromNgModule(moduleType)]: the routes of the injector
    when it has some, else the [routes] property of the module when it is
    truthy, array or not, else none and a warning. *)
Definition extractRoutesFromNgModule (injected : option (list Route))
    (staticRoutes : RoutesProperty Route) : Task Extracted :=
  match injected, staticRoutes with
  | Some routes, _ => ret (ExtractedRoutes routes)
  | None, RoutesList routes => ret (ExtractedRoutes routes)
  | None, RoutesOther lengthIsPositive => ret (ExtractedOther lengthIsPositive)
  | None, RoutesFalsy => warnNoRoutesInModule ;; ret (ExtractedRoutes [])
  end.

(** [extractRoutesFromLazyModule(loaded)]. *)
Definition extractRoutesFromLazyModule (loaded : Loaded Route) : Task Extracted :=
  match loaded with
  | LoadedArray routes => ret (ExtractedRoutes routes)
  | LoadedObject (Some routes) _ _ _ => ret (ExtractedRoutes routes)
  | LoadedObject None (RoutesList routes) _ _ => ret (ExtractedRoutes routes)
  | LoadedObject None routes true injected => extractRoutesFromNgModule injected routes
  | LoadedObject None _ false _ => warnUnknownShape ;; ret (ExtractedRoutes [])
  | LoadedFunction injected staticRoutes =>
      extractRoutesFromNgModule injected staticRoutes
  | LoadedOther => warnUnknownShape ;; ret (ExtractedRoutes [])
  end.

(** The same function with its caller as arguments, [k] for an array
    and [other] for a value that is not one: the shape in which the
    traversal below recurses into the extracted routes. *)
Definition withExtractedRoutes {X} (loaded : Loaded Route)
    (k : list Route -> Task X) (other : bool -> Task X) : Task X :=
  match loaded with
  | LoadedArray routes => k routes
  | LoadedObject (Some routes) _ _ _ => k routes
  | LoadedObject None (RoutesList routes) _ _ => k routes
  | LoadedObject None _ true (Some routes) => k routes
  | LoadedObject None (RoutesOther lengthIsPositive) true None => other lengthIsPositive
  | LoadedObject None RoutesFalsy true None => warnNoRoutesInModule ;; k []
  | LoadedObject None _ false _ => warnUnknownShape ;; k []
  | LoadedFunction (Some routes) _ => k routes
  | LoadedFunction None (RoutesList routes) => k routes
  | LoadedFunction None (RoutesOther lengthIsPositive) => other lengthIsPositive
  | LoadedFunction None RoutesFalsy => warnNoRoutesInModule ;; k []
  | LoadedOther => warnUnknownShape ;; k []
  end.

(** [route.path ?? '<no-path>']. *)
Definition routePathOrDefault (route : Route) : jsstring :=
  match path route with Some p => p | None => js "<no-path>" end.

(** The [catch] block of the loop of [buildRouteMap]. *)
Definition buildRouteMapCatch (route : Route) (error : JsError) : Task unit :=
  let routePath := routePathOrDefault route in
  modify (logConsole
            (ConsoleError (js "Error processing route '" ++ routePath ++ js "':"))) ;;
  if instanceofNamedRouteError error then throw error
  else throw (NamedRouteError
                (js "Failed to process route '" ++ routePath ++ js "': "
                 ++ errorText error)).

(** [buildRouteMap(routes, parentPath)], over the [processRoute] it is
    given. *)
Definition buildRouteMapWith (processRoute : Route -> jsstring -> Task unit)
    (routes : RoutesValue) (parentPath : jsstring) : Task unit :=
  match routes with
  | NotAnArray =>
      throw (NamedRouteError (js "Invalid routes configuration: expected an array"))
  | RoutesArray routes =>
      forEach (fun route =>
                 tryCatch (await (processRoute route parentPath))
                          (buildRouteMapCatch route))
              routes
  end.

(** [route.loadChildren!()] followed by [await]: the call is logged, the
    caller stops until the promise of the loader has settled. *)
Definition callLoader (loader : Loader Route) : Task unit :=
  fun env =>
    Suspended (logLoaderCall (loaderId loader) env) (fun env' => Done env' tt).

(** The [catch] block of [processLazyRoute]. *)
Definition processLazyRouteCatch (fullPath : jsstring) (error : JsError) : Task unit :=
  throw (NamedRouteError
           (js "Failed to load lazy module at path '" ++ fullPath ++ js "': "
            ++ errorText error)).

(** [processLazyRoute(route, fullPath)], over the [processRoute] it is
    given. *)
Definition processLazyRouteWith (processRoute : Route -> jsstring -> Task unit)
    (loader : Loader Route) (fullPath : jsstring) : Task unit :=
  tryCatch
    (callLoader loader ;;
     match loaderOutcome loader with
     | Rejects reason => throw reason
     | Resolves loaded =>
         withExtractedRoutes loaded
           (fun childRoutes =>
              if (0 <? List.length childRoutes)%nat then
                await (buildRouteMapWith processRoute (RoutesArray childRoutes) fullPath)
              else ret tt)
           (fun lengthIsPositive =>
              if lengthIsPositive then
                await (buildRouteMapWith processRoute NotAnArray fullPath)
              else ret tt)
     end)
    (processLazyRouteCatch fullPath).

(** [processRoute(route, parentPath)]. *)
Fixpoint processRoute (route : Route) (parentPath : jsstring) {struct route}
    : Task unit :=
  match route with
  | mkRoute path name children loadChildren =>
      let fullPath := joinPaths parentPath path in
      match name with
      | Some n => if isEmpty n then ret tt else registerRoute n fullPath
      | None => ret tt
      end ;;
      match children with
      | Some routes =>
          await (buildRouteMapWith processRoute (RoutesArray routes) fullPath)
      | None => ret tt
      end ;;
      match loadChildren with
      | Some loader => await (processLazyRouteWith processRoute loader fullPath)
      | None => ret tt
      end
  end.

Definition buildRouteMap : RoutesValue -> jsstring -> Task unit :=
  buildRouteMapWith processRoute.

Definition processLazyRoute : Loader Route -> jsstring -> Task unit :=
  processLazyRouteWith processRoute.

(** The [catch] block of [performInitialization]. *)
Definition performInitializationCatch (error : JsError) : Task unit :=
  modify (setService (setInitializationPromise None)) ;;
  if instanceofNamedRouteError error then throw error
  else throw (NamedRouteError
                (js "Failed to initialize named routes: " ++ errorText error)).

(** [performInitialization()]. *)
Definition performInitialization : Task unit :=
  tryCatch
    (fun env =>
       match config env with
       | None =>
           Failed env
             (NamedRouteError
                (js "Router configuration is not available. Ensure the router is properly configured."))
       | Some rootRoutes =>
           (await (buildRouteMap rootRoutes []) ;;
            modify (setService (setIsInitialized true))) env
       end)
    performInitializationCatch.

(** *** Promises and calls *)

Inductive PromiseState : Type :=
| Pending
| Fulfilled
| Rejected (reason : JsError).

(** The service in its surroundings: the state, the promises made so
    far (a promise is named by its index) and the calls of
    [performInitialization] that are stopped at an [await], each with
    the promise it settles. *)
Record System : Type := mkSystem {
  env : Env;
  promises : list PromiseState;
  tasks : list (nat * (Env -> Result unit))
}.

Definition withEnv (f : Env -> Env) (sys : System) : System :=
  mkSystem (f (env sys)) (promises sys) (tasks sys).

(** A service just constructed, over a router with configuration [c]. *)
Definition initialSystem (c : option RoutesValue) : System :=
  mkSystem (mkEnv (mkService [] false None) c [] []) [] [].

(** Calling an [async] function: its body runs up to the first [await];
    the call returns a new promise. *)
Definition callAsync (body : Task unit) (sys : System) : System * nat :=
  let p := List.length (promises sys) in
  match body (env sys) with
  | Done env' _ => (mkSystem env' (promises sys ++ [Fulfilled]) (tasks sys), p)
  | Failed env' e => (mkSystem env' (promises sys ++ [Rejected e]) (tasks sys), p)
  | Suspended env' k =>
      (mkSystem env' (promises sys ++ [Pending]) (tasks sys ++ [(p, k)]), p)
  end.

(** What a call of [initialize] returns: a promise already fulfilled, or
    one that settles as the promise [promise] does. *)
Inductive Returned : Type :=
| ResolvedNow
| Adopts (promise : nat).

(** [initialize()]. *)
Definition initialize (sys : System) : System * Returned :=
  if isInitialized (service (env sys)) then (sys, ResolvedNow)
  else
    match initializationPromise (service (env sys)) with
    | Some p => (sys, Adopts p)
    | None =>
        let '(sys', p) := callAsync performInitialization sys in
        (withEnv (setService (setInitializationPromise (Some p))) sys', Adopts p)
    end.

(** [getRoutePath(name)]. *)
Definition getRoutePath (name : jsstring) (e : Env) : Env * option jsstring :=
  if isEmpty name then
    (logConsole
       (ConsoleWarn (js "NamedRouteService.getRoutePath: Invalid route name provided:")) e,
     None)
  else
    let hasRoute := mapHas name (routeMap (service e)) in
    let path := mapGet name (routeMap (service e)) in
    (if negb hasRoute && isInitialized (service e) then
       logConsole
         (ConsoleWarn (js "NamedRouteService: Route with name '" ++ name
                       ++ js "' not found in registry.")) e
     else e,
     path).

(** [getAllRouteNames()]. *)
Definition getAllRouteNames (e : Env) : list jsstring :=
  mapKeys (routeMap (service e)).

(** [hasRoute(name)]. *)
Definition hasRoute (name : jsstring) (e : Env) : bool :=
  mapHas name (routeMap (service e)).

(** [reset()]. *)
Definition reset (sys : System) : System :=
  withEnv (setService (fun _ => mkService [] false None)) sys.

(** [refresh()]. *)
Definition refresh (sys : System) : System * Returned :=
  initialize (reset sys).

(** One stopped call goes on, up to its next [await] or its end. *)
Definition resumeTask (i : nat) (sys : System) : System :=
  match tasks sys !! i with
  | None => sys
  | Some (p, k) =>
      match k (env sys) with
      | Done env' _ =>
          mkSystem env' (<[p := Fulfilled]> (promises sys)) (delete i (tasks sys))
      | Failed env' e =>
          mkSystem env' (<[p := Rejected e]> (promises sys)) (delete i (tasks sys))
      | Suspended env' k' =>
          mkSystem env' (promises sys) (<[i := (p, k')]> (tasks sys))
      end
  end.

(** One stopped call goes on to its end, nothing else in between. *)
Definition completeTask (i : nat) (sys : System) : System :=
  match tasks sys !! i with
  | None => sys
  | Some (p, k) =>
      let '(env', c) := finish (k (env sys)) in
      mkSystem env'
        (<[p := match c with Normal _ => Fulfilled | Throws e => Rejected e end]>
           (promises sys))
        (delete i (tasks sys))
  end.

Fixpoint completeTasks (n : nat) (sys : System) : System :=
  match n with
  | O => sys
  | S n' => completeTasks n' (completeTask 0 sys)
  end.

(** Every stopped call goes on to its end, the oldest first. *)
Definition settleAll (sys : System) : System :=
  completeTasks (List.length (tasks sys)) sys.

(** How an [await] on a returned promise comes out, once it is settled. *)
Definition outcomeOf (r : Returned) (sys : System) : option (Completion unit) :=
  match r with
  | ResolvedNow => Some (Normal tt)
  | Adopts p =>
      match promises sys !! p with
      | Some Fulfilled => Some (Normal tt)
      | Some (Rejected e) => Some (Throws e)
      | _ => None
      end
  end.

(** [await service.initialize()] with nothing else in between: the
    build of the specification. *)
Definition build (sys : System) : System * option (Completion unit) :=
  let '(sys1, r) := initialize sys in
  let sys2 := settleAll sys1 in
  (sys2, outcomeOf r sys2).

(** [await service.refresh()] with nothing else in between. *)
Definition refreshAndWait (sys : System) : System * option (Completion unit) :=
  let '(sys1, r) := refresh sys in
  let sys2 := settleAll sys1 in
  (sys2, outcomeOf r sys2).

(** What can happen to a service: calls of its methods, a stopped call
    going on, and the router configuration being replaced. *)
Inductive Step : System -> System -> Prop :=
| StepInitialize sys : Step sys (fst (initialize sys))
| StepReset sys : Step sys (reset sys)
| StepRefresh sys : Step sys (fst (refresh sys))
| StepResume i sys : Step sys (resumeTask i sys)
| StepGetRoutePath name sys :
    Step sys (withEnv (fun e => fst (getRoutePath name e)) sys)
| StepConfig c sys : Step sys (withEnv (setConfig c) sys).

Inductive Reachable : System -> Prop :=
| ReachInitial c : Reachable (initialSystem c)
| ReachStep sys sys' : Reachable sys -> Step sys sys' -> Reachable sys'.

End NamedRouteService.

(* ================================================================== *)
(** ** Predicates and examples used in the statements *)
(* ================================================================== *)

Import NamedRouterService.
Import NamedRouteService.

(** A UTF-8 continuation octet. *)
Definition isContinuation (b : Z) : Prop := 128 <= b < 192.

(** [Preserves P r]: whenever [r] is resumed from a state with [P], it
    stops again in a state with [P]. *)
Fixpoint Preserves {A} (P : Env -> Prop) (r : Result A) : Prop :=
  match r with
  | Suspended _ k =>
      forall env', (P env' -> P (stopEnv (k env'))) /\ Preserves P (k env')
  | _ => True
  end.

(** A task keeps [P]: started or resumed with [P], it stops with [P]. *)
Definition TaskPreserves {A} (P : Env -> Prop) (t : Task A) : Prop :=
  forall env, (P env -> P (stopEnv (t env))) /\ Preserves P (t env).

(** [Ends onDone onFailed r]: in whatever states [r] is resumed, it
    returns only in a state with [onDone] and throws only in a state with
    [onFailed]. *)
Fixpoint Ends {A} (onDone onFailed : Env -> Prop) (r : Result A) : Prop :=
  match r with
  | Done env _ => onDone env
  | Failed env _ => onFailed env
  | Suspended _ k => forall env', Ends onDone onFailed (k env')
  end.

(** Induction on a route configuration: the property holds of a route
    when it holds of its children and of the routes its loader can
    resolve to. *)
Section RouteInduction.

Variable P : Route -> Prop.

Definition OptionAll (o : option (list Route)) : Prop :=
  match o with Some routes => Forall P routes | None => True end.

Definition PropertyAll (o : RoutesProperty Route) : Prop :=
  match o with RoutesList routes => Forall P routes | _ => True end.

Definition LoadedAll (loaded : Loaded Route) : Prop :=
  match loaded with
  | LoadedArray routes => Forall P routes
  | LoadedObject default routes _ injected =>
      OptionAll default /\ PropertyAll routes /\ OptionAll injected
  | LoadedFunction injected staticRoutes =>
      OptionAll injected /\ PropertyAll staticRoutes
  | LoadedOther => True
  end.

Definition LoaderAll (o : option (Loader Route)) : Prop :=
  match o with
  | Some (mkLoader _ (Resolves loaded)) => LoadedAll loaded
  | _ => True
  end.

Hypothesis step : forall path name children loadChildren,
  OptionAll children -> LoaderAll loadChildren ->
  P (mkRoute path name children loadChildren).

Fixpoint Route_nested_ind (route : Route) : P route :=
  let list_all :=
    fix list_all (routes : list Route) : Forall P routes :=
      match routes with
      | [] => @List.Forall_nil _ P
      | r :: rest => @List.Forall_cons _ P r rest (Route_nested_ind r) (list_all rest)
      end in
  let option_all (o : option (list Route)) : OptionAll o :=
    match o with Some routes => list_all routes | None => I end in
  let property_all (o : RoutesProperty Route) : PropertyAll o :=
    match o with RoutesList routes => list_all routes | _ => I end in
  match route with
  | mkRoute path name children loadChildren =>
      step path name children loadChildren (option_all children)
        match loadChildren return LoaderAll loadChildren with
        | Some (mkLoader _ (Resolves loaded)) =>
            match loaded return LoadedAll loaded with
            | LoadedArray routes => list_all routes
            | LoadedObject default routes _ injected =>
                conj (option_all default)
                     (conj (property_all routes) (option_all injected))
            | LoadedFunction injected staticRoutes =>
                conj (option_all injected) (property_all staticRoutes)
            | LoadedOther => I
            end
        | Some (mkLoader _ (Rejects _)) => I
        | None => I
        end
  end.

End RouteInduction.

(** What the traversal does to the state: it writes to the console, logs
    loader calls, and adds an entry for a name that is not blank and not
    yet in the map.  A predicate that all three keep is kept by the
    traversal. *)
Record TraversalStable (P : Env -> Prop) : Prop := {
  stable_console : forall entry env, P env -> P (logConsole entry env);
  stable_loader : forall i env, P env -> P (logLoaderCall i env);
  stable_register : forall name path env,
    isEmpty (trim name) = false ->
    mapGet name (routeMap (service env)) = None ->
    P env ->
    P (setService (setRouteMap (mapSet name path (routeMap (service env)))) env)
}.

(** [performInitialization] and [initialize] also set [isInitialized]
    and write [initializationPromise]. *)
Record ServiceStable (P : Env -> Prop) : Prop := {
  stable_traversal : TraversalStable P;
  stable_initialized : forall env, P env -> P (setService (setIsInitialized true) env);
  stable_promise : forall p env, P env -> P (setService (setInitializationPromise p) env)
}.

(** No key of the map is blank. *)
Definition NoBlankKeys (e : Env) : Prop :=
  forall name, isEmpty (trim name) = true -> mapGet name (routeMap (service e)) = None.

(** The name [name] is registered with the path [path]. *)
Definition Registered (name path : list Z) (e : Env) : Prop :=
  mapGet name (routeMap (service e)) = Some path.

(** Every stopped call keeps every stable predicate. *)
Definition TasksOK (sys : System) : Prop :=
  Forall (fun task => forall P, ServiceStable P -> TaskPreserves P (snd task))
         (tasks sys).

(** The states the service reaches when [reset] and [refresh] are called
    only while no build is in flight. *)
Inductive Orderly : System -> Prop :=
| OrderlyInitial c : Orderly (initialSystem c)
| OrderlyInitialize sys : Orderly sys -> Orderly (fst (initialize sys))
| OrderlyResume i sys : Orderly sys -> Orderly (resumeTask i sys)
| OrderlyGetRoutePath name sys :
    Orderly sys -> Orderly (withEnv (fun e => fst (getRoutePath name e)) sys)
| OrderlyConfig c sys : Orderly sys -> Orderly (withEnv (setConfig c) sys)
| OrderlyReset sys : Orderly sys -> tasks sys = [] -> Orderly (reset sys)
| OrderlyRefresh sys : Orderly sys -> tasks sys = [] -> Orderly (fst (refresh sys)).

(** The service refers to the build whose promise is [p], and is not
    initialized. *)
Definition InFlight (p : nat) (e : Env) : Prop :=
  initializationPromise (service e) = Some p /\ isInitialized (service e) = false.

(** [Within P r]: resumed in states with [P], [r] stops at every [await]
    in a state with [P]. *)
Fixpoint Within {A} (P : Env -> Prop) (r : Result A) : Prop :=
  match r with
  | Suspended e k => P e /\ forall e', P e' -> Within P (k e')
  | _ => True
  end.

(** At most one build is in flight; its promise is pending, and the
    service refers to it. *)
Definition OneBuild (sys : System) : Prop :=
  match tasks sys with
  | [] => True
  | [(p, k)] =>
      promises sys !! p = Some Pending
      /\ InFlight p (env sys)
      /\ forall e, InFlight p e -> Within (InFlight p) (k e)
  | _ => False
  end.

(** A resumption that has returned or thrown. *)
Definition isSettled {A} (r : Result A) : Prop :=
  match r with Suspended _ _ => False | _ => True end.

(** Configurations of the test suite of the service. *)
Definition leafRoute (path name : string) : Route :=
  mkRoute (Some (js path)) (Some (js name)) None None.

(** [[{path: 'first', name: 'duplicate'}, {path: 'second', name: 'duplicate'}]]. *)
Definition duplicateConfig : option RoutesValue :=
  Some (RoutesArray [leafRoute "first" "duplicate"; leafRoute "second" "duplicate"]).

(** [[{path: 'home', name: 'home'}]]. *)
Definition homeConfig : option RoutesValue :=
  Some (RoutesArray [leafRoute "home" "home"]).

(** [[{path: 'home', name: 'home'},
      {path: 'lazy', loadChildren: () => Promise.resolve([{path: 'lazy-feature', name: 'lazy-feature'}])},
      {path: 'about', name: 'about'}]]. *)
Definition lazyConfig : option RoutesValue :=
  Some (RoutesArray
          [leafRoute "home" "home";
           mkRoute (Some (js "lazy")) None None
             (Some (mkLoader 7 (Resolves (LoadedArray [leafRoute "lazy-feature" "lazy-feature"]))));
           leafRoute "about" "about"]).

(** [[{path: 'a', name: 'dup'},
      {path: 'lazy', loadChildren: () => Promise.resolve([{path: 'b', name: 'dup'}])}]]. *)
Definition lazyDuplicateConfig : option RoutesValue :=
  Some (RoutesArray
          [leafRoute "a" "dup";
           mkRoute (Some (js "lazy")) None None
             (Some (mkLoader 0 (Resolves (LoadedArray [leafRoute "b" "dup"]))))]).

(** The routes the traversal visits of a loaded value: the array
    [extractRoutesFromLazyModule] returns, as a choice among the lists of
    the loaded value, and none when it returns something else. *)
Definition onExtractedRoutes {X} (loaded : Loaded Route) (k : list Route -> X) : X :=
  match loaded with
  | LoadedArray routes => k routes
  | LoadedObject (Some routes) _ _ _ => k routes
  | LoadedObject None (RoutesList routes) _ _ => k routes
  | LoadedObject None _ true (Some routes) => k routes
  | LoadedFunction (Some routes) _ => k routes
  | LoadedFunction None (RoutesList routes) => k routes
  | _ => k []
  end.

(** [extractRoutesFromLazyModule] returns a value that is not an array
    and has a [length] greater than zero: [processLazyRoute] passes it
    to [buildRouteMap], which throws. *)
Definition extractsInvalidRoutes (loaded : Loaded Route) : bool :=
  match loaded with
  | LoadedObject None (RoutesOther true) true None => true
  | LoadedFunction None (RoutesOther true) => true
  | _ => false
  end.

(** The loaders a visit of [route] that returns has called, in the order
    of the calls: those of the children, then the one of the route, then
    those of the routes it resolved to. *)
Fixpoint loadersVisited (route : Route) : list nat :=
  match route with
  | mkRoute _ _ children loadChildren =>
      match children with
      | Some routes => List.flat_map loadersVisited routes
      | None => []
      end
      ++ match loadChildren with
         | Some (mkLoader i (Resolves loaded)) =>
             i :: onExtractedRoutes loaded (List.flat_map loadersVisited)
         | Some (mkLoader i (Rejects _)) => [i]
         | None => []
         end
  end.

(** The same for a router configuration. *)
Definition configLoaders (c : option RoutesValue) : list nat :=
  match c with
  | Some (RoutesArray routes) => List.flat_map loadersVisited routes
  | _ => []
  end.

(** [ReturnsWith Q r]: resumed in states with the log it stopped with,
    [r] returns only with a log that has [Q]. *)
Fixpoint ReturnsWith {A} (Q : list nat -> Prop) (r : Result A) : Prop :=
  match r with
  | Done e _ => Q (loaderCalls e)
  | Failed _ _ => True
  | Suspended e k =>
      forall e', loaderCalls e' = loaderCalls e -> ReturnsWith Q (k e')
  end.

(** A task that returns has added the calls [ids] to the log. *)
Definition Calls {A} (t : Task A) (ids : list nat) : Prop :=
  forall e, ReturnsWith (fun l => l = loaderCalls e ++ ids) (t e).

(* ================================================================== *)
(** ** What interpolation returns *)
(* ================================================================== *)

(** What a segment of the pattern adds to [result] in a call that
    returns: itself when it is a literal, the encoded value of its
    parameter when that is present, nothing otherwise. *)
Definition segmentOutput (routeParams : RouteParams) (segment : jsstring)
    : list jsstring :=
  if startsWith COLON segment then
    let paramValue := getParam routeParams (paramNameOf segment) in
    if isPresent paramValue then
      match encodeURIComponent (String_ paramValue) with
      | Normal encoded => [encoded]
      | Throws _ => []
      end
    else []
  else [segment].

(** The parameter names the loop looks up for a pattern. *)
Definition placeholderNames (pattern : jsstring) : list jsstring :=
  List.map paramNameOf (List.filter (startsWith COLON) (segmentsOf pattern)).

(** The characters [encodeURIComponent] writes: the unreserved ones and
    the percent sign of the escapes, whose digits are unreserved. *)
Definition isEncoded (c : Z) : Prop := isUnreserved c = true \/ c = PERCENT.

(* ================================================================== *)
(** ** What a build registers and what it fails with *)
(* ================================================================== *)

(** The entries a visit of [route] under [parentPath] that returns has
    added to the map, in the order it added them: the one of the route
    when its name is not blank, those of its children, those of the
    routes its loader resolved to. *)
Fixpoint registrations (route : Route) (parentPath : jsstring) : JsMap :=
  match route with
  | mkRoute path name children loadChildren =>
      let fullPath := joinPaths parentPath path in
      match name with
      | Some n => if isEmpty (trim n) then [] else [(n, fullPath)]
      | None => []
      end
      ++ match children with
         | Some routes => List.flat_map (fun r => registrations r fullPath) routes
         | None => []
         end
      ++ match loadChildren with
         | Some (mkLoader _ (Resolves loaded)) =>
             onExtractedRoutes loaded
               (List.flat_map (fun r => registrations r fullPath))
         | _ => []
         end
  end.

(** The entries of a router configuration. *)
Definition configRegistrations (routes : list Route) : JsMap :=
  List.flat_map (fun route => registrations route []) routes.



(** What a build does that bears on the registry, in the order in which
    it does it: a route registers its name with its joined path, or
    something fails (a loader rejects, a loader resolves to a value of
    which the routes cannot be visited, the configuration is missing or
    not an array). *)
Inductive Visit : Type :=
| Registration (name path : jsstring)
| Failure.

(** The steps of a visit of [route] under [parentPath]: the route, its
    children, the routes its loader resolves to. *)
Fixpoint visits (route : Route) (parentPath : jsstring) : list Visit :=
  match route with
  | mkRoute path name children loadChildren =>
      let fullPath := joinPaths parentPath path in
      match name with
      | Some n => if isEmpty (trim n) then [] else [Registration n fullPath]
      | None => []
      end
      ++ match children with
         | Some routes => List.flat_map (fun r => visits r fullPath) routes
         | None => []
         end
      ++ match loadChildren with
         | Some (mkLoader _ (Resolves loaded)) =>
             if extractsInvalidRoutes loaded then [Failure]
             else onExtractedRoutes loaded
                    (List.flat_map (fun r => visits r fullPath))
         | Some (mkLoader _ (Rejects _)) => [Failure]
         | None => []
         end
  end.

(** The steps of a build over a router configuration. *)
Definition configVisits (c : option RoutesValue) : list Visit :=
  match c with
  | Some (RoutesArray routes) => List.flat_map (fun route => visits route []) routes
  | _ => [Failure]
  end.

(** The registry the steps leave, from the registry [m], and whether all
    of them were done: a registration adds its entry after the others;
    the registration of a name that is in the registry throws, as does a
    failure, and nothing is undone. *)
Fixpoint runVisits (steps : list Visit) (m : JsMap) : JsMap * bool :=
  match steps with
  | [] => (m, true)
  | Registration name path :: rest =>
      match mapGet name m with
      | Some _ => (m, false)
      | None => runVisits rest (m ++ [(name, path)])
      end
  | Failure :: _ => (m, false)
  end.

(** The entries the steps register when all of them are done. *)
Definition entriesOf (steps : list Visit) : JsMap :=
  List.flat_map (fun step =>
                   match step with
                   | Registration name path => [(name, path)]
                   | Failure => []
                   end) steps.











(** [Leaves QD QF r]: resumed in states with the map it stopped with,
    [r] returns only with a map that has [QD] and throws only with a map
    that has [QF]. *)
Fixpoint Leaves {A} (QD QF : JsMap -> Prop) (r : Result A) : Prop :=
  match r with
  | Done e _ => QD (routeMap (service e))
  | Failed e _ => QF (routeMap (service e))
  | Suspended e k =>
      forall e', routeMap (service e') = routeMap (service e) -> Leaves QD QF (k e')
  end.

(** A task does the steps [steps] on the registry: it returns when all
    of them are done and throws at the first that fails, with the
    registry as the steps done have left it. *)
Definition Performs {A} (t : Task A) (steps : list Visit) : Prop :=
  forall e,
    Leaves (fun m => runVisits steps (routeMap (service e)) = (m, true))
           (fun m => runVisits steps (routeMap (service e)) = (m, false))
           (t e).

Definition VisitPerforms (route : Route) : Prop :=
  forall parentPath, Performs (processRoute route parentPath) (visits route parentPath).

(** The keys of the map are distinct. *)
Definition NoDupKeys (e : Env) : Prop := NoDup (mapKeys (routeMap (service e))).

(* ================================================================== *)
(** ** The router of the host, and navigation by name *)
(* ================================================================== *)

(** A value of [QueryParams]: the code tests it for [undefined] and
    [null], and passes it on otherwise. *)
Inductive QueryValue : Type :=
| QUndefined
| QNull
| QString (s : jsstring)
| QNumber (n : Z)
| QBoolean (b : bool)
| QArray (items : list JsValue).

(** The entries of a [QueryParams] or [Params] object, in the order of
    [Object.entries]. *)
Abbreviation QueryParams := (list (list Z * QueryValue)).

(** An options object ([NamedNavigationExtras], [NavigationExtras], the
    options of [Router.createUrlTree]) by the properties the library
    reads or writes; a property that is absent or [undefined] is
    [None]. *)
Module Extras.

Record Extras : Type := mkExtras {
  routeParams : option RouteParams;
  queryParams : option QueryParams;
  fragment : option jsstring;
  preserveFragment : option bool;
  queryParamsHandling : option jsstring;
  skipLocationChange : option bool;
  replaceUrl : option bool
}.

(** [{}]. *)
Definition empty : Extras := mkExtras None None None None None None None.

End Extras.

Abbreviation Extras := Extras.Extras.

(** What a call of [Router.navigateByUrl] does: it returns a promise
    that resolves or rejects, or it throws. *)
Inductive NavigationOutcome : Type :=
| NavigationResolves (ok : bool)
| NavigationRejects (reason : JsError)
| NavigationThrows (error : JsError).

(** The three methods of the Angular [Router] the library calls, for a
    type of URL trees. *)
Module Router.

Record Router (UrlTree : Type) : Type := mkRouter {
  createUrlTree : list jsstring -> Extras -> Completion UrlTree;
  serializeUrl : UrlTree -> Completion jsstring;
  navigateByUrl : UrlTree -> Extras -> NavigationOutcome
}.
Arguments createUrlTree {UrlTree} _ _ _.
Arguments serializeUrl {UrlTree} _ _.
Arguments navigateByUrl {UrlTree} _ _ _.

End Router.

Abbreviation Router := Router.Router.

(** [value !== undefined && value !== null] for a query parameter. *)
Definition isPresentQuery (v : QueryValue) : bool :=
  match v with
  | QUndefined | QNull => false
  | _ => true
  end.

(** The loop that copies the query parameters that have a value. *)
Definition presentQueryParams (queryParams : QueryParams) : QueryParams :=
  List.filter (fun entry => isPresentQuery (snd entry)) queryParams.

(** The public methods of [NamedRouterService], and the private ones
    they call. *)
Module Navigation.

Section WithRouter.

Context {UrlTree : Type} (router : Router UrlTree).

(** [createUrlTreeFromPattern(pathPattern, extras)]. *)
Definition createUrlTreeFromPattern (pathPattern : jsstring) (extras : option Extras)
    : Completion UrlTree :=
  segments ← interpolatePathParams (Some pathPattern)
               (default (objectLiteral ∅) (extras ≫= Extras.routeParams));
  let params :=
    match extras ≫= Extras.queryParams with
    | Some queryParams => presentQueryParams queryParams
    | None => []
    end in
  Router.createUrlTree router segments
    (Extras.mkExtras None (Some params)
       (extras ≫= Extras.fragment) (extras ≫= Extras.preserveFragment)
       (extras ≫= Extras.queryParamsHandling) None None).

(** [extractNavigationExtras(extras)]. *)
Definition extractNavigationExtras (extras : option Extras) : Extras :=
  match extras with
  | None => Extras.empty
  | Some given =>
      Extras.mkExtras None None
        (Extras.fragment given) (Extras.preserveFragment given)
        (Extras.queryParamsHandling given)
        (Extras.skipLocationChange given) (Extras.replaceUrl given)
  end.

Definition emptyNameError : JsError :=
  Error (js "NamedRouterService: Route name must be a non-empty string").

Definition notFoundError (routeName : jsstring) : JsError :=
  Error (js "NamedRouterService: Route '" ++ routeName ++ js "' not found in registry").

(** [createUrlTree(routeName, extras)]; the state is the one of the
    registry, whose [getRoutePath] writes to the console. *)
Definition createUrlTree (routeName : jsstring) (extras : option Extras) (e : Env)
    : Env * Completion UrlTree :=
  if isEmpty routeName then (e, Throws emptyNameError)
  else
    let '(e1, pathPattern) := getRoutePath routeName e in
    match pathPattern with
    | None => (e1, Throws (notFoundError routeName))
    | Some pattern => (e1, createUrlTreeFromPattern pattern extras)
    end.

(** [serializeUrl(routeName, extras)]. *)
Definition serializeUrl (routeName : jsstring) (extras : option Extras) (e : Env)
    : Env * Completion jsstring :=
  let '(e1, urlTree) := createUrlTree routeName extras e in
  (e1, urlTree ≫= Router.serializeUrl router).

(** [await this.router.navigateByUrl(urlTree, extras)]. *)
Definition awaitNavigation (outcome : NavigationOutcome) : Task bool :=
  fun e =>
    match outcome with
    | NavigationResolves ok => Suspended e (fun e' => Done e' ok)
    | NavigationRejects reason => Suspended e (fun e' => Failed e' reason)
    | NavigationThrows error => Failed e error
    end.

(** The [catch] block of [navigate]. *)
Definition navigateCatch (routeName : jsstring) (error : JsError) : Task bool :=
  throw (Error (js "NamedRouterService: Navigation to '" ++ routeName
                ++ js "' failed: " ++ errorText error)).

(** [navigate(routeName, extras)]. *)
Definition navigate (routeName : jsstring) (extras : option Extras) : Task bool :=
  fun e =>
    if isEmpty routeName then Failed e emptyNameError
    else
      let '(e1, pathPattern) := getRoutePath routeName e in
      match pathPattern with
      | None => Failed e1 (notFoundError routeName)
      | Some pattern =>
          tryCatch
            (fun e2 =>
               match createUrlTreeFromPattern pattern extras with
               | Throws error => Failed e2 error
               | Normal urlTree =>
                   awaitNavigation
                     (Router.navigateByUrl router urlTree
                        (extractNavigationExtras extras)) e2
               end)
            (navigateCatch routeName)
            e1
      end.

(** [navigateByUrl(routeName, extras)]. *)
Definition navigateByUrl (routeName : jsstring) (extras : option Extras) : Task bool :=
  navigate routeName extras.

(** [hasRoute(routeName)] and [getAllRouteNames()]. *)
Definition hasRoute (routeName : jsstring) (e : Env) : bool :=
  NamedRouteService.hasRoute routeName e.

Definition getAllRouteNames (e : Env) : list jsstring :=
  NamedRouteService.getAllRouteNames e.

End WithRouter.

End Navigation.

(* ================================================================== *)
(** ** NamedRouterLinkDirective *)
(* ================================================================== *)

Module NamedRouterLinkDirective.

(** The inputs of the directive. *)
Record Inputs : Type := mkInputs {
  name : jsstring;
  routeParams : RouteParams;
  queryParams : QueryParams;
  fragment : option jsstring;
  target : option jsstring;
  preserveFragment : option bool;
  skipLocationChange : option bool;
  replaceUrl : option bool
}.

Definition missingMessage (name : jsstring) (missing : list jsstring) : jsstring :=
  js "Missing required route parameters for '" ++ name ++ js "': "
  ++ join (js ", ") missing.

(** [interpolatePathParams(pathPattern)]: the loop is, word for word,
    the one of [NamedRouterService]; the message names the route. *)
Definition interpolatePathParams (inputs : Inputs) (pathPattern : jsstring)
    : Completion (list jsstring) :=
  if isEmpty pathPattern then Normal [js "/"]
  else
    acc ← interpolateLoop (routeParams inputs) (segmentsOf pathPattern) (mkAcc [] []);
    if (0 <? List.length (missingParams acc))%nat then
      Throws (Error (missingMessage (name inputs) (missingParams acc)))
    else Normal (result acc).



(** The extras with which [NamedRouterService] makes the URL of the
    link. *)
Definition extrasOf (inputs : Inputs) : Extras :=
  Extras.mkExtras (Some (routeParams inputs)) (Some (queryParams inputs))
    (fragment inputs) (preserveFragment inputs) None
    (skipLocationChange inputs) (replaceUrl inputs).

Section WithRouter.

Context {UrlTree : Type} (router : Router UrlTree).

(** [createUrlTree(pathPattern)]. *)
Definition createUrlTree (inputs : Inputs) (pathPattern : jsstring)
    : Completion UrlTree :=
  segments ← interpolatePathParams inputs pathPattern;
  let params := presentQueryParams (queryParams inputs) in
  Router.createUrlTree router segments
    (Extras.mkExtras None (Some params) (fragment inputs) (preserveFragment inputs)
       None None None).

(** [validateInputs()]. *)
Definition validateInputs (inputs : Inputs) (e : Env) : Env :=
  if isEmpty (name inputs) then
    logConsole (ConsoleWarn (js "NamedRouterLink: Route name is empty or not provided")) e
  else e.

(** [updateHref()]: the state after it and the new value of [href],
    [None] for [null]. *)
Definition updateHref (inputs : Inputs) (e : Env) : Env * option jsstring :=
  if isEmpty (name inputs) then (e, None)
  else
    let '(e1, pathPattern) := getRoutePath (name inputs) e in
    match pathPattern with
    | None =>
        (logConsole
           (ConsoleWarn (js "NamedRouterLink: Could not find route with name '"
                         ++ name inputs ++ js "'")) e1,
         None)
    | Some pattern =>
        match createUrlTree inputs pattern ≫= Router.serializeUrl router with
        | Normal href => (e1, Some href)
        | Throws error =>
            (logConsole
               (ConsoleError (js "NamedRouterLink: Failed to create URL for route '"
                              ++ name inputs ++ js "':")) e1,
             None)
        end
    end.

(** [ngOnInit()]. *)
Definition ngOnInit (inputs : Inputs) (e : Env) : Env * option jsstring :=
  updateHref inputs (validateInputs inputs e).

(** What [navigate()] asks of the router. *)
Inductive Navigated : Type :=
| NotNavigated
| NavigatedTo (urlTree : UrlTree) (extras : Extras).

(** [navigate()]: the state after it and the call of
    [router.navigateByUrl] it made, if any; the promise of the call is
    not awaited. *)
Definition navigate (inputs : Inputs) (e : Env) : Env * Navigated :=
  if isEmpty (name inputs) then
    (logConsole (ConsoleWarn (js "NamedRouterLink: Cannot navigate without a route name")) e,
     NotNavigated)
  else
    let '(e1, pathPattern) := getRoutePath (name inputs) e in
    match pathPattern with
    | None =>
        (logConsole
           (ConsoleError (js "NamedRouterLink: Cannot navigate to unknown route '"
                          ++ name inputs ++ js "'")) e1,
         NotNavigated)
    | Some pattern =>
        let failed :=
          logConsole
            (ConsoleError (js "NamedRouterLink: Navigation failed for route '"
                           ++ name inputs ++ js "':")) e1 in
        match createUrlTree inputs pattern with
        | Normal urlTree =>
            let extras :=
              Extras.mkExtras None None None None None
                (skipLocationChange inputs) (replaceUrl inputs) in
            match Router.navigateByUrl router urlTree extras with
            | NavigationThrows _ => (failed, NavigatedTo urlTree extras)
            | _ => (e1, NavigatedTo urlTree extras)
            end
        | Throws error => (failed, NotNavigated)
        end
    end.


End WithRouter.

End NamedRouterLinkDirective.

(** A router for the examples: the URL tree of some segments is their
    URL, without the query parameters and the fragment; every navigation
    succeeds. *)
Definition pathRouter : Router jsstring :=
  Router.mkRouter jsstring
    (fun segments _ => Normal (js "/" ++ join (js "/") segments))
    (fun urlTree => Normal urlTree)
    (fun _ _ => NavigationResolves true).

(** The state of a service that has registered [entries]. *)
Definition builtEnv (entries : JsMap) : Env :=
  mkEnv (mkService entries true None) None [] [].

(* ================================================================== *)
(** * Properties *)
(* ================================================================== *)

(** ** Strings *)

Section Strings.

Implicit Types (c x : Z) (s a b : list Z).

Lemma endsWith_snoc c x s : endsWith c (s ++ [x]) = (x =? c).
Proof. unfold endsWith. rewrite List.rev_app_distr. reflexivity. Qed.

Lemma endsWith_cons c x s : s <> [] -> endsWith c (x :: s) = endsWith c s.
Proof.
  intros Hs. destruct (@List.exists_last _ s Hs) as (s' & y & ->).
  change (x :: s' ++ [y]) with ((x :: s') ++ [y]).
  by rewrite !endsWith_snoc.
Qed.

Lemma indexOf_ge c s : -1 <= indexOf c s.
Proof.
  induction s as [|x r IH]; simpl; [lia|].
  destruct (x =? c); [lia|]. destruct (indexOf c r =? -1); lia.
Qed.

Lemma indexOf_first c a b :
  c ∉ a -> indexOf c (a ++ c :: b) = Z.of_nat (List.length a).
Proof.
  induction a as [|x r IH]; simpl.
  - intros _. by rewrite Z.eqb_refl.
  - intros Hn. apply not_elem_of_cons in Hn as [Hx Hr].
    destruct (Z.eqb_spec x c); [congruence|].
    rewrite (IH Hr).
    destruct (Z.eqb_spec (Z.of_nat (List.length r)) (-1)); lia.
Qed.

Lemma substring0_length a b : substring0 (Z.of_nat (List.length a)) (a ++ b) = a.
Proof.
  unfold substring0. rewrite Nat2Z.id.
  rewrite List.firstn_app, Nat.sub_diag, List.firstn_all. simpl.
  apply List.app_nil_r.
Qed.

Lemma split_nonempty c s : split c s <> [].
Proof.
  destruct s as [|x r]; simpl; [done|].
  destruct (x =? c); [done|]. by destruct (split c r).
Qed.

(** Joining the pieces with the separator gives the string back. *)
Lemma join_split c s : join [c] (split c s) = s.
Proof.
  induction s as [|x r IH]; simpl; [done|].
  destruct (Z.eqb_spec x c) as [->|Hx].
  - pose proof (split_nonempty c r) as Hne.
    destruct (split c r) as [|p ps] eqn:E; [done|].
    simpl in *. by rewrite IH.
  - destruct (split c r) as [|p ps] eqn:E.
    + by destruct (split_nonempty c r).
    + simpl in *. destruct ps; simpl in *; by rewrite <- IH.
Qed.

(** No piece contains the separator. *)
Lemma split_pieces c s : Forall (fun piece => c ∉ piece) (split c s).
Proof.
  induction s as [|x r IH]; simpl.
  - repeat constructor. apply not_elem_of_nil.
  - destruct (Z.eqb_spec x c) as [->|Hx].
    + constructor; [apply not_elem_of_nil | done].
    + destruct (split c r) as [|p ps].
      * repeat constructor. rewrite not_elem_of_cons. split; [congruence|].
        apply not_elem_of_nil.
      * inversion IH; subst. constructor; [|done].
        rewrite not_elem_of_cons. split; [congruence | done].
Qed.


Lemma split_app c a b : split c (a ++ c :: b) = split c a ++ split c b.
Proof.
  induction a as [|x r IH]; simpl.
  - by rewrite Z.eqb_refl.
  - destruct (x =? c); [by rewrite IH|].
    rewrite IH. pose proof (split_nonempty c r).
    by destruct (split c r).
Qed.

End Strings.

(** ** Well-formed strings and [encodeURIComponent] *)

(** Decides the comparisons of a goal one at a time, closing the
    branches that are contradictory as they appear. *)
Ltac compare_units :=
  repeat match goal with
  | H : context [?a <=? ?b] |- _ => destruct (Z.leb_spec a b); simpl in H; try lia
  | H : context [?a <? ?b] |- _ => destruct (Z.ltb_spec a b); simpl in H; try lia
  | H : context [?a =? ?b] |- _ => destruct (Z.eqb_spec a b); simpl in H; try lia
  | |- context [?a <=? ?b] => destruct (Z.leb_spec a b); simpl; try lia
  | |- context [?a <? ?b] => destruct (Z.ltb_spec a b); simpl; try lia
  | |- context [?a =? ?b] => destruct (Z.eqb_spec a b); simpl; try lia
  end; try done.

Section Encoding.

Implicit Types (c d : Z) (s : list Z).

Lemma isUnreserved_range c : isUnreserved c = true -> 33 <= c <= 126.
Proof. unfold isUnreserved. intros H. compare_units. Qed.

Lemma isLeadSurrogate_range c : isLeadSurrogate c = true <-> 55296 <= c <= 56319.
Proof. unfold isLeadSurrogate. split; intros H; compare_units. Qed.

Lemma isTrailSurrogate_range c : isTrailSurrogate c = true <-> 56320 <= c <= 57343.
Proof. unfold isTrailSurrogate. split; intros H; compare_units. Qed.

Lemma isUnreserved_not_surrogate c :
  isUnreserved c = true -> isLeadSurrogate c = false /\ isTrailSurrogate c = false.
Proof.
  intros H%isUnreserved_range. unfold isLeadSurrogate, isTrailSurrogate.
  split; compare_units.
Qed.

Lemma WellFormed_isWellFormed s : WellFormed s -> isWellFormed s = true.
Proof.
  induction 1 as [|c s Hl Ht _ IH|c d s Hl Ht _ IH]; simpl; [done|..].
  - by rewrite Hl, Ht, IH.
  - by rewrite Hl, Ht, IH.
Qed.

Lemma isWellFormed_WellFormed s : isWellFormed s = true -> WellFormed s.
Proof.
  remember (List.length s) as n eqn:Hn. revert s Hn.
  induction n as [n IH] using lt_wf_ind. intros s -> H.
  destruct s as [|c rest]; [constructor|].
  simpl in H. destruct (isLeadSurrogate c) eqn:Hl.
  - destruct rest as [|d rest']; [done|].
    apply andb_true_iff in H as [Ht H].
    apply WellFormed_pair; [done..|].
    eapply IH; [|reflexivity|done]. simpl. lia.
  - apply andb_true_iff in H as [Ht H]. apply negb_true_iff in Ht.
    apply WellFormed_unit; [done..|].
    eapply IH; [|reflexivity|done]. simpl. lia.
Qed.

(** [encodeURIComponent] returns on every well-formed string. *)
Lemma encodeURIComponent_total s :
  WellFormed s -> exists encoded, encodeURIComponent s = Normal encoded.
Proof.
  induction 1 as [|c s Hl Ht _ [r IH]|c d s Hl Ht _ [r IH]].
  - by eexists.
  - simpl. rewrite Hl, Ht, IH. destruct (isUnreserved c); by eexists.
  - simpl. destruct (isUnreserved c) eqn:Hu.
    + apply isUnreserved_not_surrogate in Hu as [? _]. congruence.
    + rewrite Hl, Ht, IH. by eexists.
Qed.

(** It throws [URIError] on every other string. *)
Lemma encodeURIComponent_malformed s :
  isWellFormed s = false -> encodeURIComponent s = Throws uriMalformed.
Proof.
  remember (List.length s) as n eqn:Hn. revert s Hn.
  induction n as [n IH] using lt_wf_ind. intros s -> H.
  destruct s as [|c rest]; [done|].
  simpl in *. destruct (isUnreserved c) eqn:Hu.
  - apply isUnreserved_not_surrogate in Hu as [Hl Ht]. rewrite Hl, Ht in H.
    simpl in H. erewrite IH; [done| |reflexivity|done]. simpl. lia.
  - destruct (isLeadSurrogate c).
    + destruct rest as [|d rest']; [done|].
      destruct (isTrailSurrogate d); [|done]. simpl in H.
      erewrite IH; [done| |reflexivity|done]. simpl. lia.
    + destruct (isTrailSurrogate c); [done|]. simpl in H.
      erewrite IH; [done| |reflexivity|done]. simpl. lia.
Qed.

(** *** Decoding what was encoded *)

Lemma hexValue_hexDigit d : 0 <= d < 16 -> hexValue (hexDigit d) = Some d.
Proof.
  intros Hd. unfold hexValue, hexDigit.
  destruct (Z.ltb_spec d 10); compare_units; f_equal; lia.
Qed.

Lemma readEscape_percentOctet b rest :
  0 <= b < 256 -> readEscape (percentOctet b ++ rest) = Some (b, rest).
Proof.
  intros Hb. unfold percentOctet, readEscape. cbn [List.app].
  rewrite Z.eqb_refl.
  rewrite !hexValue_hexDigit by (Z.div_mod_to_equations; lia).
  do 2 f_equal. Z.div_mod_to_equations; lia.
Qed.

Lemma percentEncode_cons b octets :
  percentEncode (b :: octets) = percentOctet b ++ percentEncode octets.
Proof. reflexivity. Qed.

Lemma readContinuations_percentEncode conts rest :
  Forall isContinuation conts ->
  readContinuations (List.length conts) (percentEncode conts ++ rest)
  = Some (conts, rest).
Proof.
  induction 1 as [|b bs Hb _ IH]; [done|].
  rewrite percentEncode_cons, <- List.app_assoc.
  cbn [List.length readContinuations].
  unfold isContinuation in Hb.
  rewrite readEscape_percentOctet by lia.
  destruct (Z.leb_spec 128 b); [|lia]. destruct (Z.ltb_spec b 192); [|lia].
  simpl. by rewrite IH.
Qed.

(** One turn of the loop of [Decode] on the escapes of a sequence of two
    to four octets. *)
Lemma decodeLoop_octets fuel b0 conts cp rest :
  0 <= b0 < 256 ->
  Forall isContinuation conts ->
  leadingOnes b0 = S (List.length conts) ->
  (1 <= List.length conts <= 3)%nat ->
  utf8Decode b0 conts = Some cp ->
  decodeLoop (S fuel) (percentEncode (b0 :: conts) ++ rest)
  = r ← decodeLoop fuel rest; Normal (utf16Encode cp ++ r).
Proof.
  intros Hb0 Hconts Hlead Hlen Hdec.
  change (percentEncode (b0 :: conts) ++ rest)
    with (PERCENT :: hexDigit (b0 / 16) :: hexDigit (b0 mod 16)
          :: percentEncode conts ++ rest).
  cbn [decodeLoop]. rewrite Z.eqb_refl.
  change (PERCENT :: hexDigit (b0 / 16) :: hexDigit (b0 mod 16)
          :: percentEncode conts ++ rest)
    with (percentOctet b0 ++ percentEncode conts ++ rest).
  rewrite readEscape_percentOctet by done. rewrite Hlead.
  pose proof (readContinuations_percentEncode conts rest Hconts) as Hread.
  destruct conts as [|c1 [|c2 [|c3 [|c4 conts]]]]; simpl in Hlen; try lia;
    simpl List.length in *; rewrite Hread, Hdec; done.
Qed.

(** The same for one octet, an ASCII character that was escaped. *)
Lemma decodeLoop_ascii fuel c rest :
  0 <= c < 128 ->
  decodeLoop (S fuel) (percentEncode [c] ++ rest)
  = r ← decodeLoop fuel rest; Normal (c :: r).
Proof.
  intros Hc.
  change (percentEncode [c] ++ rest)
    with (PERCENT :: hexDigit (c / 16) :: hexDigit (c mod 16) :: rest).
  cbn [decodeLoop]. rewrite Z.eqb_refl.
  change (PERCENT :: hexDigit (c / 16) :: hexDigit (c mod 16) :: rest)
    with (percentOctet c ++ rest).
  rewrite readEscape_percentOctet by lia.
  unfold leadingOnes. destruct (Z.ltb_spec c 128); [done | lia].
Qed.

(** The UTF-8 octets of a code point above U+007F that is not a
    surrogate decode to it. *)
Lemma utf8Encode_decodes cp :
  128 <= cp <= 1114111 -> ~ 55296 <= cp <= 57343 ->
  exists b0 conts,
    utf8Encode cp = b0 :: conts
    /\ 0 <= b0 < 256
    /\ Forall isContinuation conts
    /\ leadingOnes b0 = S (List.length conts)
    /\ (1 <= List.length conts <= 3)%nat
    /\ utf8Decode b0 conts = Some cp.
Proof.
  intros Hcp Hsur. unfold utf8Encode, isContinuation.
  destruct (Z.ltb_spec cp 128); [lia|].
  destruct (Z.ltb_spec cp 2048); [|destruct (Z.ltb_spec cp 65536)].
  - eexists _, _. split; [reflexivity|].
    split; [Z.div_mod_to_equations; lia|].
    split; [repeat constructor; Z.div_mod_to_equations; lia|].
    split; [unfold leadingOnes; compare_units; Z.div_mod_to_equations; lia|].
    split; [simpl; lia|].
    unfold utf8Decode.
    replace ((192 + cp / 64 - 192) * 64 + (128 + cp mod 64 - 128)) with cp
      by (Z.div_mod_to_equations; lia).
    destruct (Z.leb_spec 128 cp); [done | lia].
  - eexists _, _. split; [reflexivity|].
    split; [Z.div_mod_to_equations; lia|].
    split; [repeat constructor; Z.div_mod_to_equations; lia|].
    split; [unfold leadingOnes; compare_units; Z.div_mod_to_equations; lia|].
    split; [simpl; lia|].
    unfold utf8Decode.
    replace ((224 + cp / 4096 - 224) * 4096 + (128 + (cp / 64) mod 64 - 128) * 64
             + (128 + cp mod 64 - 128)) with cp
      by (Z.div_mod_to_equations; lia).
    destruct (Z.leb_spec 2048 cp); [|lia].
    destruct (Z.leb_spec 55296 cp); destruct (Z.leb_spec cp 57343); simpl; try done; lia.
  - eexists _, _. split; [reflexivity|].
    split; [Z.div_mod_to_equations; lia|].
    split; [repeat constructor; Z.div_mod_to_equations; lia|].
    split; [unfold leadingOnes; compare_units; Z.div_mod_to_equations; lia|].
    split; [simpl; lia|].
    unfold utf8Decode.
    replace ((240 + cp / 262144 - 240) * 262144 + (128 + (cp / 4096) mod 64 - 128) * 4096
             + (128 + (cp / 64) mod 64 - 128) * 64 + (128 + cp mod 64 - 128)) with cp
      by (Z.div_mod_to_equations; lia).
    destruct (Z.leb_spec 65536 cp); [|lia].
    destruct (Z.leb_spec cp 1114111); [done | lia].
Qed.

Lemma utf16Encode_pair c d :
  isLeadSurrogate c = true -> isTrailSurrogate d = true ->
  utf16Encode (pairCodePoint c d) = [c; d]
  /\ 65536 <= pairCodePoint c d <= 1114111.
Proof.
  intros Hc%isLeadSurrogate_range Hd%isTrailSurrogate_range.
  unfold utf16Encode, pairCodePoint.
  destruct (Z.ltb_spec ((c - 55296) * 1024 + (d - 56320) + 65536) 65536); [lia|].
  split; [|lia]. f_equal; [|f_equal]; Z.div_mod_to_equations; lia.
Qed.

Lemma percentEncode_length octets :
  List.length (percentEncode octets) = (3 * List.length octets)%nat.
Proof.
  unfold percentEncode. induction octets as [|b bs IH]; [done|].
  simpl in *. lia.
Qed.

(** [decodeURIComponent] undoes [encodeURIComponent]. *)
Lemma decodeLoop_encodeURIComponent s :
  Forall isCodeUnit s -> WellFormed s ->
  forall encoded fuel,
    encodeURIComponent s = Normal encoded ->
    (List.length encoded <= fuel)%nat ->
    decodeLoop fuel encoded = Normal s.
Proof.
  intros Hunits Hwf. induction Hwf as [|c s Hl Ht _ IH|c d s Hl Ht _ IH];
    intros encoded fuel Henc Hfuel.
  - simpl in Henc. injection Henc as <-. by destruct fuel.
  - apply Forall_cons in Hunits as [Hc Hs]. specialize (IH Hs).
    simpl in Henc. rewrite Hl, Ht in Henc.
    destruct (encodeURIComponent s) as [r|e] eqn:Hr; [|by destruct (isUnreserved c)].
    simpl in Henc. destruct (isUnreserved c) eqn:Hu; injection Henc as <-.
    + destruct fuel as [|fuel]; [simpl in Hfuel; lia|].
      cbn [decodeLoop].
      destruct (Z.eqb_spec c PERCENT) as [->|_]; [done|].
      rewrite (IH r fuel); [done..|]. simpl in Hfuel. lia.
    + rewrite List.length_app, percentEncode_length in Hfuel.
      destruct fuel as [|fuel].
      { unfold utf8Encode in Hfuel. repeat case_match; simpl in Hfuel; lia. }
      assert (List.length r <= fuel)%nat as Hfuel'.
      { unfold utf8Encode in Hfuel. repeat case_match; simpl in Hfuel; lia. }
      unfold isCodeUnit in Hc.
      destruct (Z.ltb_spec c 128) as [Hascii|Hhigh].
      * unfold utf8Encode. destruct (Z.ltb_spec c 128); [|lia].
        rewrite decodeLoop_ascii by lia. by rewrite (IH r fuel).
      * destruct (utf8Encode_decodes c) as (b0 & conts & -> & ? & ? & ? & ? & ?).
        { lia. }
        { apply not_true_iff_false in Hl, Ht.
          rewrite isLeadSurrogate_range in Hl. rewrite isTrailSurrogate_range in Ht.
          lia. }
        rewrite (decodeLoop_octets fuel b0 conts c) by done.
        rewrite (IH r fuel) by done. simpl.
        unfold utf16Encode. by destruct (Z.ltb_spec c 65536); [|lia].
  - apply Forall_cons in Hunits as [Hc Hs]. apply Forall_cons in Hs as [Hd Hs].
    specialize (IH Hs). simpl in Henc.
    destruct (isUnreserved c) eqn:Hu.
    { apply isUnreserved_not_surrogate in Hu as [? _]. congruence. }
    rewrite Hl, Ht in Henc.
    destruct (encodeURIComponent s) as [r|e] eqn:Hr; [|done].
    simpl in Henc. injection Henc as <-.
    destruct (utf16Encode_pair c d Hl Ht) as [Hpair Hrange].
    destruct (utf8Encode_decodes (pairCodePoint c d))
      as (b0 & conts & Hoct & ? & ? & ? & ? & ?); [lia..|].
    rewrite Hoct in *.
    rewrite List.length_app, percentEncode_length in Hfuel.
    destruct fuel as [|fuel]; [simpl in Hfuel; lia|].
    rewrite (decodeLoop_octets fuel b0 conts (pairCodePoint c d)) by done.
    rewrite (IH r fuel); [|done|simpl in Hfuel; lia].
    simpl. by rewrite Hpair.
Qed.

Lemma decodeURIComponent_encodeURIComponent s encoded :
  Forall isCodeUnit s ->
  encodeURIComponent s = Normal encoded ->
  decodeURIComponent encoded = Normal s.
Proof.
  intros Hunits Henc. unfold decodeURIComponent.
  apply decodeLoop_encodeURIComponent; [done| |done|done].
  apply isWellFormed_WellFormed. destruct (isWellFormed s) eqn:E; [done|].
  apply encodeURIComponent_malformed in E. congruence.
Qed.

End Encoding.

(** ** Path interpolation *)

Section Interpolation.

Import NamedRouterService.

Implicit Types (routeParams : RouteParams) (segment pattern : list Z)
  (segments : list (list Z)) (acc : Acc).

Lemma interpolateSegment_literal routeParams segment acc :
  startsWith COLON segment = false ->
  interpolateSegment routeParams segment acc
  = Normal (mkAcc (result acc ++ [segment]) (missingParams acc)).
Proof. intros H. unfold interpolateSegment. by rewrite H. Qed.

(** What the loop does with a placeholder, in terms of the name and the
    optionality it computes. *)
Lemma interpolateSegment_placeholder routeParams segment acc :
  startsWith COLON segment = true ->
  interpolateSegment routeParams segment acc
  = let paramValue := getParam routeParams (paramNameOf segment) in
    if isPresent paramValue then
      encoded ← encodeURIComponent (String_ paramValue);
      Normal (mkAcc (result acc ++ [encoded]) (missingParams acc))
    else if isOptionalOf segment then Normal acc
    else Normal (mkAcc (result acc) (missingParams acc ++ [paramNameOf segment])).
Proof.
  intros H. unfold interpolateSegment, paramNameOf, isOptionalOf.
  rewrite H. cbv zeta.
  destruct (isPresent _); [done|]. by destruct (endsWith QUESTION segment).
Qed.


Lemma segmentsOf_app a b :
  segmentsOf (a ++ SLASH :: b) = segmentsOf a ++ segmentsOf b.
Proof. unfold segmentsOf. by rewrite split_app, List.filter_app. Qed.


Lemma segmentsOf_spec pattern :
  Forall (fun segment => segment <> [] /\ SLASH ∉ segment) (segmentsOf pattern).
Proof.
  unfold segmentsOf. pose proof (split_pieces SLASH pattern) as H.
  induction H as [|p ps Hp _ IH]; simpl; [constructor|].
  destruct p; simpl; [done|]. constructor; [|done]. split; done.
Qed.

(** The parse in the order of the specification computes what the loop
    computes. *)
Lemma parsePlaceholder_code segment :
  startsWith COLON segment = true ->
  parsePlaceholder segment = (paramNameOf segment, isOptionalOf segment).
Proof.
  intros H. destruct segment as [|c rest]; [done|].
  unfold parsePlaceholder, paramNameOf, isOptionalOf, substring1, sliceDropLast,
    substring0.
  simpl List.tl. simpl in H. apply Z.eqb_eq in H as ->.
  assert (endsWith QUESTION rest = endsWith QUESTION (COLON :: rest)) as <-.
  { destruct rest as [|y r]; [reflexivity|]. symmetry. by apply endsWith_cons. }
  cbv zeta. f_equal.
  set (n := if endsWith QUESTION rest then _ else _).
  pose proof (indexOf_ge LPAREN n) as Hge.
  destruct (indexOf LPAREN n) as [|i|i] eqn:E; try done.
  destruct i; try done; lia.
Qed.

(** A property read on an object literal. *)
Lemma getParam_objectLiteral (own : gmap (list Z) JsValue) name :
  getParam (objectLiteral own) name
  = match own !! name with
    | Some v => v
    | None => default VUndefined (objectPrototype !! name)
    end.
Proof. done. Qed.

Lemma ascii_wellFormed (s : list Z) :
  List.forallb (fun c => (0 <=? c) && (c <? 128)) s = true ->
  Forall isCodeUnit s /\ isWellFormed s = true.
Proof.
  intros H.
  assert (Forall (fun c => 0 <= c < 128) s) as Hs.
  { apply Forall_forall. intros c Hc%list_elem_of_In.
    rewrite List.forallb_forall in H. specialize (H c Hc). lia. }
  clear H. split.
  - eapply Forall_impl; [exact Hs|]. unfold isCodeUnit. intros c Hc. simpl in Hc. lia.
  - apply WellFormed_isWellFormed.
    induction Hs as [|c rest Hc _ IH]; [constructor|].
    apply WellFormed_unit; [..|done];
      unfold isLeadSurrogate, isTrailSurrogate; compare_units.
Qed.

(** What an object literal inherits is a value with a string form in
    ASCII. *)
Lemma objectPrototype_ascii name v :
  objectPrototype !! name = Some v ->
  isPresent v = true
  /\ List.forallb (fun c => (0 <=? c) && (c <? 128)) (String_ v) = true.
Proof.
  intros H. unfold objectPrototype in H. apply elem_of_list_to_map_2 in H.
  repeat (apply elem_of_cons in H as [[= -> ->]|H]; [by vm_compute|]).
  by apply elem_of_nil in H.
Qed.

(** The values an object literal yields have a property that
    [undefined], the inherited values and its own values have. *)
Lemma objectLiteral_values (P : JsValue -> Prop) (own : gmap (list Z) JsValue) :
  P VUndefined ->
  (forall name v, objectPrototype !! name = Some v -> P v) ->
  (forall name v, own !! name = Some v -> P v) ->
  forall name, P (getParam (objectLiteral own) name).
Proof.
  intros Hu Hi Ho name. rewrite getParam_objectLiteral.
  destruct (own !! name) as [v|] eqn:E; [by eapply Ho|].
  destruct (objectPrototype !! name) as [v|] eqn:E'; [by eapply Hi|done].
Qed.

Lemma objectLiteral_wellFormed (own : gmap (list Z) JsValue) :
  (forall name v, own !! name = Some v -> isWellFormed (String_ v) = true) ->
  forall name, isWellFormed (String_ (getParam (objectLiteral own) name)) = true.
Proof.
  intros Ho. apply (objectLiteral_values (fun v => isWellFormed (String_ v) = true));
    [done| |done].
  intros name v [_ H]%objectPrototype_ascii. by apply ascii_wellFormed in H as [_ H].
Qed.

Lemma objectLiteral_isCodeUnit (own : gmap (list Z) JsValue) :
  (forall name v, own !! name = Some v -> Forall isCodeUnit (String_ v)) ->
  forall name, Forall isCodeUnit (String_ (getParam (objectLiteral own) name)).
Proof.
  intros Ho. apply (objectLiteral_values (fun v => Forall isCodeUnit (String_ v)));
    [by apply ascii_wellFormed| |done].
  intros name v [_ H]%objectPrototype_ascii. by apply ascii_wellFormed in H as [H _].
Qed.

(** The loop collects the names of all required placeholders without a
    value, in the order of the segments. *)
Lemma interpolateLoop_missing routeParams segments acc acc' :
  interpolateLoop routeParams segments acc = Normal acc' ->
  missingParams acc' = missingParams acc ++ missingNames routeParams segments.
Proof.
  revert acc. induction segments as [|seg rest IH]; intros acc; simpl.
  - intros [= <-]. unfold missingNames. simpl. by rewrite List.app_nil_r.
  - unfold missingNames, isMissing in *. simpl.
    destruct (startsWith COLON seg) eqn:Hc.
    + rewrite interpolateSegment_placeholder by done. cbv zeta.
      destruct (isPresent _) eqn:Hp; simpl.
      * destruct (encodeURIComponent _) as [enc|e]; simpl; [|done].
        rewrite andb_false_r. intros H%IH. by rewrite H.
      * destruct (isOptionalOf seg); simpl.
        -- intros H%IH. by rewrite H.
        -- intros H%IH. rewrite H. simpl. by rewrite <- List.app_assoc.
    + rewrite interpolateSegment_literal by done. simpl.
      intros H%IH. by rewrite H.
Qed.

(** It goes through every segment when the values to encode are well
    formed. *)
Lemma interpolateLoop_normal routeParams segments acc :
  (forall name, isWellFormed (String_ (getParam routeParams name)) = true) ->
  exists acc', interpolateLoop routeParams segments acc = Normal acc'.
Proof.
  intros Hwf. revert acc.
  induction segments as [|seg rest IH]; intros acc; simpl; [by eexists|].
  destruct (startsWith COLON seg) eqn:Hc.
  - rewrite interpolateSegment_placeholder by done. cbv zeta.
    destruct (isPresent _) eqn:Hp.
    + destruct (encodeURIComponent_total
                  (String_ (getParam routeParams (paramNameOf seg)))) as [enc ->];
        [apply isWellFormed_WellFormed, Hwf|]. simpl. apply IH.
    + destruct (isOptionalOf seg); simpl; apply IH.
  - rewrite interpolateSegment_literal by done. simpl. apply IH.
Qed.

Lemma interpolateLoop_literals routeParams segments acc :
  Forall (fun segment => startsWith COLON segment = false) segments ->
  interpolateLoop routeParams segments acc
  = Normal (mkAcc (result acc ++ segments) (missingParams acc)).
Proof.
  intros H. revert acc.
  induction H as [|seg rest Hseg _ IH]; intros acc; simpl.
  - rewrite List.app_nil_r. by destruct acc.
  - rewrite interpolateSegment_literal by done. simpl.
    rewrite IH. simpl. by rewrite <- List.app_assoc.
Qed.

Lemma interpolateLoop_omitted routeParams segments acc :
  Forall (fun segment =>
            startsWith COLON segment = true /\ isOptionalOf segment = true
            /\ isPresent (getParam routeParams (paramNameOf segment)) = false)
         segments ->
  interpolateLoop routeParams segments acc = Normal acc.
Proof.
  induction 1 as [|seg rest (Hc & Ho & Hp) _ IH]; simpl; [done|].
  rewrite interpolateSegment_placeholder by done. cbv zeta.
  by rewrite Hp, Ho.
Qed.

Lemma interpolatePathParams_nonempty pattern routeParams :
  pattern <> [] ->
  interpolatePathParams (Some pattern) routeParams
  = acc ← interpolateLoop routeParams (segmentsOf pattern) (mkAcc [] []);
    if (0 <? List.length (missingParams acc))%nat then
      Throws (Error (missingMessage (missingParams acc)))
    else Normal (result acc).
Proof. intros H. unfold interpolatePathParams. by destruct pattern. Qed.

End Interpolation.

(** ** Claims on path interpolation *)

Import NamedRouterService.

(** C3 (as amended).  A required placeholder is missing when the read
    of its property gives [undefined] or [null]: the bag has no property
    of that name, neither its own nor inherited, or the property holds
    one of the two.  When at least one required placeholder of the
    pattern is missing, and every value the bag yields has a well-formed
    string form, [interpolatePathParams] goes through all the segments
    and then throws an [Error] whose message is
    ["Missing required route parameters: "] followed by the names of all
    the missing parameters, in the order of the pattern, joined by
    [", "].  The message is made of these names only: it names neither
    the route nor the pattern. *)
Theorem interpolate_missing_parameters (pattern : list Z) (routeParams : RouteParams) :
  (forall name, isWellFormed (String_ (getParam routeParams name)) = true) ->
  missingNames routeParams (segmentsOf pattern) <> [] ->
  interpolatePathParams (Some pattern) routeParams
  = Throws (Error (js "Missing required route parameters: "
                   ++ join (js ", ") (missingNames routeParams (segmentsOf pattern)))).
Proof.
  intros Hwf Hmiss.
  assert (pattern <> []) as Hne by (by intros ->).
  rewrite interpolatePathParams_nonempty by done.
  destruct (interpolateLoop_normal routeParams (segmentsOf pattern) (mkAcc [] []) Hwf)
    as [acc Hacc].
  rewrite Hacc. simpl. apply interpolateLoop_missing in Hacc. simpl in Hacc.
  rewrite Hacc. destruct (missingNames routeParams (segmentsOf pattern)); done.
Qed.

Lemma interpolate_missing_parameters_witness :
  missingNames (objectLiteral ∅) (segmentsOf (js "users/:id/posts/:postId"))
  = [js "id"; js "postId"]
  /\ interpolatePathParams (Some (js "users/:id/posts/:postId")) (objectLiteral ∅)
     = Throws (Error (js "Missing required route parameters: id, postId")).
Proof.
  split; [by vm_compute|].
  rewrite (interpolate_missing_parameters (js "users/:id/posts/:postId")
             (objectLiteral ∅)).
  - by vm_compute.
  - apply objectLiteral_wellFormed. intros name v H. by rewrite lookup_empty in H.
  - by vm_compute.
Defined.

(** The loop does go on after a missing parameter: a later value that
    cannot be encoded makes the call throw [URIError] before the missing
    names are reported. *)
Lemma interpolate_goes_on_after_missing :
  interpolatePathParams (Some (js ":a/:b")) (objectLiteral {[ js "b" := VStr [56320] ]})
  = Throws (URIError (js "URI malformed")).
Proof. by vm_compute. Qed.

(** A property the bag inherits is a value: for [{}] the placeholder
    [:constructor] is not missing, the string form of the function
    [Object] is encoded.  An own property that holds [undefined] hides
    the inherited one, and the placeholder is missing. *)
Lemma interpolate_inherited_property :
  interpolatePathParams (Some (js "users/:constructor")) (objectLiteral ∅)
  = Normal [js "users"; js "function%20Object()%20%7B%20%5Bnative%20code%5D%20%7D"]
  /\ missingNames (objectLiteral ∅) (segmentsOf (js "users/:constructor")) = []
  /\ interpolatePathParams (Some (js "users/:constructor"))
       (objectLiteral {[ js "constructor" := VUndefined ]})
     = Throws (Error (js "Missing required route parameters: constructor"))
  /\ interpolatePathParams (Some (js "users/:constructor"))
       (mkRouteParams ∅ ∅)
     = Throws (Error (js "Missing required route parameters: constructor")).
Proof. by vm_compute. Qed.

(** C3 as stated fails: the message does not identify the route or the
    pattern.  Two different patterns give the same error, and the text of
    the literal segment is not in the message. *)
Lemma interpolate_missing_message_has_no_context :
  interpolatePathParams (Some (js "users/:id")) (objectLiteral ∅)
  = Throws (Error (js "Missing required route parameters: id"))
  /\ interpolatePathParams (Some (js "posts/:id")) (objectLiteral ∅)
     = interpolatePathParams (Some (js "users/:id")) (objectLiteral ∅)
  /\ includes (js "users") (js "Missing required route parameters: id") = false.
Proof. by vm_compute. Qed.




(** The name and the optionality the loop computes for a placeholder
    with a parenthesized constraint. *)
Lemma constrained_placeholder_parse (name constraint : list Z) (optional : bool) :
  LPAREN ∉ name ->
  let segment :=
    COLON :: name ++ LPAREN :: constraint ++ RPAREN :: (if optional then [QUESTION] else []) in
  paramNameOf segment = name /\ isOptionalOf segment = optional.
Proof.
  intros Hname segment.
  assert (isOptionalOf segment = optional) as Hopt.
  { unfold isOptionalOf, segment. destruct optional.
    - replace (COLON :: name ++ LPAREN :: constraint ++ [RPAREN; QUESTION])
        with ((COLON :: name ++ LPAREN :: constraint ++ [RPAREN]) ++ [QUESTION]).
      + by rewrite endsWith_snoc.
      + simpl. f_equal. rewrite <- List.app_assoc. simpl. f_equal. f_equal.
        by rewrite <- List.app_assoc.
    - replace (COLON :: name ++ LPAREN :: constraint ++ [RPAREN])
        with ((COLON :: name ++ LPAREN :: constraint) ++ [RPAREN]).
      + by rewrite endsWith_snoc.
      + simpl. f_equal. rewrite <- List.app_assoc. done. }
  split; [|done]. unfold paramNameOf. rewrite Hopt.
  unfold substring1, sliceDropLast, segment. simpl List.tl.
  assert ((if optional
           then List.removelast
                  (name ++ LPAREN :: constraint ++ RPAREN :: (if optional then [QUESTION] else []))
           else name ++ LPAREN :: constraint ++ RPAREN :: (if optional then [QUESTION] else []))
          = name ++ LPAREN :: constraint ++ [RPAREN]) as ->.
  { destruct optional; [|done].
    replace (name ++ LPAREN :: constraint ++ [RPAREN; QUESTION])
      with ((name ++ LPAREN :: constraint ++ [RPAREN]) ++ [QUESTION]).
    - apply List.removelast_last.
    - rewrite <- List.app_assoc. simpl. f_equal. f_equal.
      by rewrite <- List.app_assoc. }
  cbv zeta. rewrite indexOf_first by done.
  destruct (Z.eqb_spec (Z.of_nat (List.length name)) (-1)); [lia|]. simpl.
  apply substring0_length.
Qed.

(** C5.  The parse in the order of the specification (strip the leading
    marker, detect and strip the trailing optionality marker, detect and
    strip the parenthesized constraint) gives the name and the
    optionality the loop uses.  For a placeholder [:name(constraint)],
    optional or not, the name looked up is [name], and what the loop does
    depends on the value of [name] only: the constraint is neither checked
    against the value nor part of what is appended.
    [interpolate("users/:id(\d+)", {id: 42}) = ["users", "42"]]. *)
Theorem interpolate_constraint_discarded (routeParams : RouteParams)
    (name constraint : list Z) (optional : bool) :
  LPAREN ∉ name ->
  let segment :=
    COLON :: name ++ LPAREN :: constraint ++ RPAREN :: (if optional then [QUESTION] else []) in
  (forall segment', startsWith COLON segment' = true ->
     parsePlaceholder segment' = (paramNameOf segment', isOptionalOf segment'))
  /\ parsePlaceholder segment = (name, optional)
  /\ (forall acc,
        interpolateSegment routeParams segment acc
        = let paramValue := getParam routeParams name in
          if isPresent paramValue then
            encoded ← encodeURIComponent (String_ paramValue);
            Normal (mkAcc (result acc ++ [encoded]) (missingParams acc))
          else if optional then Normal acc
          else Normal (mkAcc (result acc) (missingParams acc ++ [name])))
  /\ interpolatePathParams (Some (js "users/:id(\d+)"))
       (objectLiteral {[ js "id" := VNum (mkSafeInteger 42 I) ]})
     = Normal [js "users"; js "42"].
Proof.
  intros Hname segment.
  destruct (constrained_placeholder_parse name constraint optional Hname)
    as [Hn Ho]. fold segment in Hn, Ho.
  split; [apply parsePlaceholder_code|].
  split; [rewrite parsePlaceholder_code by done; by rewrite Hn, Ho|].
  split; [|by vm_compute].
  intros acc. rewrite interpolateSegment_placeholder by done.
  by rewrite Hn, Ho.
Qed.

Lemma interpolate_constraint_discarded_witness :
  (LPAREN ∉ js "id")
  /\ parsePlaceholder (js ":id(\d+)?") = (js "id", true)
  /\ interpolateSegment (objectLiteral {[ js "id" := VNum (mkSafeInteger 42 I) ]})
       (js ":id(\d+)?") (mkAcc [js "users"] [])
     = Normal (mkAcc [js "users"; js "42"] []).
Proof.
  assert (LPAREN ∉ js "id") as Hname.
  { intros H. vm_compute in H. by repeat (apply elem_of_cons in H as [H|H]; [done|]);
      apply elem_of_nil in H. }
  split; [done|].
  destruct (interpolate_constraint_discarded
              (objectLiteral {[ js "id" := VNum (mkSafeInteger 42 I) ]})
              (js "id") (js "\d+") true Hname) as (_ & Hparse & Hseg & _).
  split; [exact Hparse|].
  change (js ":id(\d+)?")
    with (COLON :: js "id" ++ LPAREN :: js "\d+" ++ [RPAREN; QUESTION]).
  rewrite (Hseg (mkAcc [js "users"] [])). by vm_compute.
Defined.

(** C6.  An absent or empty pattern gives [["/"]].  A non-empty pattern
    is cut at every ['/'] and the empty pieces are dropped: the segments
    are the non-empty pieces, none contains a ['/'], and joining all the
    pieces with ['/'] gives the pattern back.  A non-empty pattern whose
    segments are all optional placeholders without a value gives the
    empty sequence, which is not [["/"]]; a non-empty pattern without
    placeholders gives its segments unchanged. *)
Theorem interpolate_root_and_empty (routeParams : RouteParams) (pattern : list Z) :
  interpolatePathParams None routeParams = Normal [js "/"]
  /\ interpolatePathParams (Some []) routeParams = Normal [js "/"]
  /\ segmentsOf pattern
     = List.filter (fun piece => negb (isEmpty piece)) (split SLASH pattern)
  /\ join [SLASH] (split SLASH pattern) = pattern
  /\ Forall (fun segment => segment <> [] /\ SLASH ∉ segment) (segmentsOf pattern)
  /\ (pattern <> [] ->
      Forall (fun segment =>
                startsWith COLON segment = true /\ isOptionalOf segment = true
                /\ isPresent (getParam routeParams (paramNameOf segment)) = false)
             (segmentsOf pattern) ->
      interpolatePathParams (Some pattern) routeParams = Normal [])
  /\ (@Normal (list (list Z)) [] <> Normal [js "/"])
  /\ (pattern <> [] ->
      Forall (fun segment => startsWith COLON segment = false) (segmentsOf pattern) ->
      interpolatePathParams (Some pattern) routeParams = Normal (segmentsOf pattern))
  /\ interpolatePathParams (Some (js ":id?")) (objectLiteral ∅) = Normal [].
Proof.
  split; [done|]. split; [done|].
  split.
  { unfold segmentsOf. apply List.filter_ext. by intros []. }
  split; [apply join_split|]. split; [apply segmentsOf_spec|].
  split.
  { intros Hne H. rewrite interpolatePathParams_nonempty by done.
    by rewrite interpolateLoop_omitted. }
  split; [done|]. split; [|by vm_compute].
  intros Hne H. rewrite interpolatePathParams_nonempty by done.
  by rewrite interpolateLoop_literals.
Qed.

Lemma interpolate_root_and_empty_witness :
  js "/admin//users/" <> []
  /\ Forall (fun segment => startsWith COLON segment = false)
       (segmentsOf (js "/admin//users/"))
  /\ interpolatePathParams (Some (js "/admin//users/")) (objectLiteral ∅)
     = Normal [js "admin"; js "users"]
  /\ js "/:a?/:b?" <> []
  /\ interpolatePathParams (Some (js "/:a?/:b?")) (objectLiteral ∅) = Normal [].
Proof.
  destruct (interpolate_root_and_empty (objectLiteral ∅) (js "/admin//users/"))
    as (_ & _ & _ & _ & _ & _ & _ & Hlit & _).
  destruct (interpolate_root_and_empty (objectLiteral ∅) (js "/:a?/:b?"))
    as (_ & _ & _ & _ & _ & Hopt & _).
  assert (Forall (fun segment => startsWith COLON segment = false)
            (segmentsOf (js "/admin//users/"))) as H1.
  { vm_compute. repeat constructor. }
  split; [done|]. split; [exact H1|].
  split; [rewrite Hlit; [by vm_compute | done | exact H1]|].
  split; [done|]. apply Hopt; [done|].
  vm_compute. repeat constructor.
Defined.

(** The string form of a number is made of ASCII characters. *)
Lemma decimalOf_ascii (n : Z) : Forall (fun c => 45 <= c <= 57) (decimalOf n).
Proof.
  assert (forall d, Forall (fun c => 45 <= c <= 57) (digitsOf d)) as Hd.
  { induction d; simpl; constructor; (lia || done). }
  unfold decimalOf. destruct (Z.to_int n); [apply Hd|].
  constructor; [lia | apply Hd].
Qed.

Lemma decimalOf_wellFormed (n : Z) :
  Forall isCodeUnit (decimalOf n) /\ isWellFormed (decimalOf n) = true.
Proof.
  pose proof (decimalOf_ascii n) as H. split.
  - eapply Forall_impl; [exact H|]. unfold isCodeUnit. intros c Hc. simpl in Hc. lia.
  - apply WellFormed_isWellFormed.
    induction H as [|c s Hc _ IH]; [constructor|].
    apply WellFormed_unit; [..|done];
      unfold isLeadSurrogate, isTrailSurrogate; compare_units.
Qed.

(** C7 (as amended).  For a placeholder whose parameter has a value, when
    the string form of the value is well formed (every surrogate code
    unit is part of a pair), the loop appends
    [encodeURIComponent(String(value))], and [decodeURIComponent] of what
    was appended is the string form again.  When the string form has an
    unpaired surrogate, [encodeURIComponent] throws [URIError] and so does
    the interpolation.  The string form of a number is always well
    formed: the decimal notation of an integer is.
    [interpolate("search/:query", {query: "hello world & stuff"})
     = ["search", "hello%20world%20%26%20stuff"]]. *)
Theorem interpolate_encoding_roundtrip (routeParams : RouteParams)
    (segment : list Z) (acc : Acc) :
  startsWith COLON segment = true ->
  isPresent (getParam routeParams (paramNameOf segment)) = true ->
  Forall isCodeUnit (String_ (getParam routeParams (paramNameOf segment))) ->
  let text := String_ (getParam routeParams (paramNameOf segment)) in
  (isWellFormed text = true ->
   exists encoded,
     encodeURIComponent text = Normal encoded
     /\ interpolateSegment routeParams segment acc
        = Normal (mkAcc (result acc ++ [encoded]) (missingParams acc))
     /\ decodeURIComponent encoded = Normal text)
  /\ (isWellFormed text = false ->
      interpolateSegment routeParams segment acc = Throws uriMalformed)
  /\ (forall n, Forall isCodeUnit (String_ (VNum n))
                /\ isWellFormed (String_ (VNum n)) = true)
  /\ (forall n : Z, Forall isCodeUnit (decimalOf n) /\ isWellFormed (decimalOf n) = true)
  /\ interpolatePathParams (Some (js "search/:query"))
       (objectLiteral {[ js "query" := VStr (js "hello world & stuff") ]})
     = Normal [js "search"; js "hello%20world%20%26%20stuff"]
  /\ decodeURIComponent (js "hello%20world%20%26%20stuff")
     = Normal (js "hello world & stuff").
Proof.
  intros Hc Hp Hunits text.
  split; [|split; [|split; [intros n; apply decimalOf_wellFormed|]]];
    [..|split; [apply decimalOf_wellFormed | by vm_compute]].
  - intros Hwf.
    destruct (encodeURIComponent_total text) as [encoded Henc];
      [by apply isWellFormed_WellFormed|].
    exists encoded. split; [done|]. split.
    + rewrite interpolateSegment_placeholder by done. cbv zeta.
      fold text. by rewrite Hp, Henc.
    + by apply decodeURIComponent_encodeURIComponent.
  - intros Hwf. rewrite interpolateSegment_placeholder by done. cbv zeta.
    fold text. by rewrite Hp, (encodeURIComponent_malformed text Hwf).
Qed.

Lemma interpolate_encoding_roundtrip_witness :
  let routeParams := objectLiteral {[ js "q" := VStr [233; 55357; 56832] ]} in
  startsWith COLON (js ":q") = true
  /\ isPresent (getParam routeParams (paramNameOf (js ":q"))) = true
  /\ Forall isCodeUnit [233; 55357; 56832]
  /\ isWellFormed [233; 55357; 56832] = true
  /\ interpolateSegment routeParams (js ":q") (mkAcc [] [])
     = Normal (mkAcc [js "%C3%A9%F0%9F%98%80"] [])
  /\ decodeURIComponent (js "%C3%A9%F0%9F%98%80") = Normal [233; 55357; 56832].
Proof.
  intros routeParams.
  assert (Forall isCodeUnit [233; 55357; 56832]) as Hunits.
  { repeat constructor; unfold isCodeUnit; lia. }
  split; [done|]. split; [done|]. split; [exact Hunits|]. split; [done|].
  destruct (interpolate_encoding_roundtrip routeParams (js ":q") (mkAcc [] []))
    as [H _]; [done | done | exact Hunits |].
  destruct H as (encoded & Henc & Hseg & Hdec); [done|].
  assert (encoded = js "%C3%A9%F0%9F%98%80") as ->.
  { vm_compute in Henc. by injection Henc as <-. }
  split; [exact Hseg | exact Hdec].
Defined.

(** C7 as stated fails: a value that is present need not have an
    encoding.  On a lone surrogate the interpolation throws [URIError]. *)
Lemma interpolate_lone_surrogate_throws :
  let routeParams := objectLiteral {[ js "query" := VStr [55296] ]} in
  isPresent (getParam routeParams (js "query")) = true
  /\ interpolatePathParams (Some (js "search/:query")) routeParams
     = Throws (URIError (js "URI malformed")).
Proof. by vm_compute. Qed.

(* ================================================================== *)
(** ** Reasoning about asynchronous functions *)
(* ================================================================== *)

Section Resumptions.

Context {A B : Type}.
Implicit Types (P : Env -> Prop) (r : Result A) (t : Task A).

Lemma awaitResult_suspended r :
  exists k, awaitResult r = Suspended (stopEnv r) k.
Proof. destruct r; by eexists. Qed.

Lemma Preserves_bindResult P r (f : A -> Task B) :
  (forall a, TaskPreserves P (f a)) ->
  (P (stopEnv r) -> P (stopEnv (bindResult r f)))
  /\ (Preserves P r -> Preserves P (bindResult r f)).
Proof.
  intros Hf. induction r as [env a|env e|env k IH]; simpl.
  - split; [apply Hf | intros _; apply Hf].
  - done.
  - split; [done|]. intros Hk env'.
    destruct (Hk env') as [Hstop Hrest].
    destruct (IH env') as [IH1 IH2].
    split; [intros Henv'; by apply IH1, Hstop | by apply IH2].
Qed.

Lemma TaskPreserves_bind P t (f : A -> Task B) :
  TaskPreserves P t -> (forall a, TaskPreserves P (f a)) ->
  TaskPreserves P (bind t f).
Proof.
  intros Ht Hf env. unfold bind.
  destruct (Ht env) as [H1 H2].
  destruct (Preserves_bindResult P (t env) f Hf) as [H3 H4].
  split; [intros Henv; by apply H3, H1 | by apply H4].
Qed.

Lemma Preserves_catchResult P r (handler : JsError -> Task A) :
  (forall e, TaskPreserves P (handler e)) ->
  (P (stopEnv r) -> P (stopEnv (catchResult r handler)))
  /\ (Preserves P r -> Preserves P (catchResult r handler)).
Proof.
  intros Hh. induction r as [env a|env e|env k IH]; simpl.
  - done.
  - split; [apply Hh | intros _; apply Hh].
  - split; [done|]. intros Hk env'.
    destruct (Hk env') as [Hstop Hrest].
    destruct (IH env') as [IH1 IH2].
    split; [intros Henv'; by apply IH1, Hstop | by apply IH2].
Qed.

Lemma TaskPreserves_tryCatch P t (handler : JsError -> Task A) :
  TaskPreserves P t -> (forall e, TaskPreserves P (handler e)) ->
  TaskPreserves P (tryCatch t handler).
Proof.
  intros Ht Hh env. unfold tryCatch.
  destruct (Ht env) as [H1 H2].
  destruct (Preserves_catchResult P (t env) handler Hh) as [H3 H4].
  split; [intros Henv; by apply H3, H1 | by apply H4].
Qed.

Lemma Preserves_awaitResult P r :
  (P (stopEnv r) -> P (stopEnv (awaitResult r)))
  /\ (Preserves P r -> Preserves P (awaitResult r)).
Proof.
  induction r as [env a|env e|env k IH]; simpl; [done..|].
  split; [done|]. intros Hk env'.
  destruct (Hk env') as [Hstop Hrest].
  destruct (IH env') as [IH1 IH2].
  split; [intros Henv'; by apply IH1, Hstop | by apply IH2].
Qed.

Lemma TaskPreserves_await P t : TaskPreserves P t -> TaskPreserves P (await t).
Proof.
  intros Ht env. unfold await. destruct (Ht env) as [H1 H2].
  destruct (Preserves_awaitResult P (t env)) as [H3 H4].
  split; [intros Henv; by apply H3, H1 | by apply H4].
Qed.

Lemma TaskPreserves_ret P (a : A) : TaskPreserves P (ret a).
Proof. by intros env. Qed.

Lemma TaskPreserves_throw P (e : JsError) : TaskPreserves P (@throw A e).
Proof. by intros env. Qed.

(** Run to its end from a state with [P], a resumption that keeps [P]
    ends in a state with [P]. *)
Lemma Preserves_finish P r :
  P (stopEnv r) -> Preserves P r -> P (fst (finish r)).
Proof.
  induction r as [env a|env e|env k IH]; simpl; [done..|].
  intros Henv Hk. destruct (Hk env) as [Hstop Hrest]. apply IH; [by apply Hstop | done].
Qed.

Lemma Ends_finish (onDone onFailed : Env -> Prop) r :
  Ends onDone onFailed r ->
  match finish r with
  | (env, Normal _) => onDone env
  | (env, Throws _) => onFailed env
  end.
Proof.
  induction r as [env a|env e|env k IH]; simpl; [done..|].
  intros Hk. apply IH, Hk.
Qed.

Lemma Ends_catchResult (onDone onFailed onInner : Env -> Prop) r
    (handler : JsError -> Task A) :
  (forall e env, Ends onDone onFailed (handler e env)) ->
  Ends onDone onInner r -> Ends onDone onFailed (catchResult r handler).
Proof.
  intros Hh. induction r as [env a|env e|env k IH]; simpl; [done|..].
  - intros _. apply Hh.
  - intros Hk env'. apply IH, Hk.
Qed.

End Resumptions.

Lemma TaskPreserves_modify P (f : Env -> Env) :
  (forall env, P env -> P (f env)) -> TaskPreserves P (modify f).
Proof. intros Hf env. split; [apply Hf | done]. Qed.

Lemma TaskPreserves_forEach {X} P (body : X -> Task unit) (xs : list X) :
  Forall (fun x => TaskPreserves P (body x)) xs ->
  TaskPreserves P (forEach body xs).
Proof.
  induction 1 as [|x rest Hx _ IH]; simpl.
  - apply TaskPreserves_ret.
  - by apply TaskPreserves_bind.
Qed.

(** A body that ends by [modify f] returns only in states [f] made. *)
Lemma Ends_bind_modify {A} (onDone : Env -> Prop) (r : Result A) (f : Env -> Env) :
  (forall env, onDone (f env)) ->
  Ends onDone (fun _ => True) (bindResult r (fun _ => modify f)).
Proof.
  intros Hf. induction r as [env a|env e|env k IH]; simpl; [apply Hf|done|].
  intros env'. apply IH.
Qed.

(* ================================================================== *)
(** ** The traversal *)
(* ================================================================== *)

Import NamedRouteService.

(** The unfolding of [processRoute], with [buildRouteMap] and
    [processLazyRoute] by their names. *)
Lemma processRoute_eq path name children loadChildren parentPath :
  processRoute (mkRoute path name children loadChildren) parentPath
  = let fullPath := joinPaths parentPath path in
    (match name with
     | Some n => if isEmpty n then ret tt else registerRoute n fullPath
     | None => ret tt
     end ;;
     match children with
     | Some routes => await (buildRouteMap (RoutesArray routes) fullPath)
     | None => ret tt
     end ;;
     match loadChildren with
     | Some loader => await (processLazyRoute loader fullPath)
     | None => ret tt
     end).
Proof. reflexivity. Qed.

Lemma buildRouteMap_eq routes parentPath :
  buildRouteMap (RoutesArray routes) parentPath
  = forEach (fun route =>
               tryCatch (await (processRoute route parentPath))
                        (buildRouteMapCatch route))
            routes.
Proof. reflexivity. Qed.

(** [processLazyRoute] in the words of the source: the routes are
    extracted from what was loaded, then visited when there are some. *)
Lemma withExtractedRoutes_eq {X} loaded (k : list Route -> Task X)
    (other : bool -> Task X) env :
  withExtractedRoutes loaded k other env
  = bind (extractRoutesFromLazyModule loaded)
      (fun childRoutes =>
         match childRoutes with
         | ExtractedRoutes routes => k routes
         | ExtractedOther lengthIsPositive => other lengthIsPositive
         end) env.
Proof.
  destruct loaded as [routes|[d|] [|r|positive] [] [i|]|[i|] [|s|positive]|];
    reflexivity.
Qed.

Lemma processLazyRoute_eq loader fullPath :
  processLazyRoute loader fullPath
  = tryCatch
      (callLoader loader ;;
       match loaderOutcome loader with
       | Rejects reason => throw reason
       | Resolves loaded =>
           withExtractedRoutes loaded
             (fun childRoutes =>
                if (0 <? List.length childRoutes)%nat then
                  await (buildRouteMap (RoutesArray childRoutes) fullPath)
                else ret tt)
             (fun lengthIsPositive =>
                if lengthIsPositive then
                  await (buildRouteMap NotAnArray fullPath)
                else ret tt)
       end)
      (processLazyRouteCatch fullPath).
Proof. reflexivity. Qed.

Section Traversal.

Variable P : Env -> Prop.
Hypothesis HP : TraversalStable P.

Lemma registerRoute_preserves name path : TaskPreserves P (registerRoute name path).
Proof.
  intros env. unfold registerRoute.
  destruct (isEmpty (trim name)) eqn:Hblank; simpl.
  - split; [apply HP | done].
  - destruct (mapGet name (routeMap (service env))) eqn:Hget; simpl; [done|].
    split; [by apply HP | done].
Qed.

Lemma buildRouteMapCatch_preserves route e : TaskPreserves P (buildRouteMapCatch route e).
Proof.
  unfold buildRouteMapCatch. apply TaskPreserves_bind.
  - apply TaskPreserves_modify. apply HP.
  - intros _. destruct (instanceofNamedRouteError e); apply TaskPreserves_throw.
Qed.

Lemma buildRouteMap_preserves routes parentPath :
  Forall (fun route => forall parentPath, TaskPreserves P (processRoute route parentPath))
         routes ->
  TaskPreserves P (buildRouteMap (RoutesArray routes) parentPath).
Proof.
  intros H. rewrite buildRouteMap_eq. apply TaskPreserves_forEach.
  eapply Forall_impl; [exact H|]. intros route Hroute. simpl.
  apply TaskPreserves_tryCatch.
  - apply TaskPreserves_await, Hroute.
  - intros e. apply buildRouteMapCatch_preserves.
Qed.

Lemma callLoader_preserves loader : TaskPreserves P (callLoader loader).
Proof.
  intros env. unfold callLoader. simpl. split; [apply HP|]. by intros env'.
Qed.

Lemma withExtractedRoutes_preserves loaded (k : list Route -> Task unit)
    (other : bool -> Task unit) :
  LoadedAll (fun route => forall parentPath, TaskPreserves P (processRoute route parentPath))
            loaded ->
  (forall routes,
     Forall (fun route => forall parentPath, TaskPreserves P (processRoute route parentPath))
            routes ->
     TaskPreserves P (k routes)) ->
  (forall lengthIsPositive, TaskPreserves P (other lengthIsPositive)) ->
  TaskPreserves P (withExtractedRoutes loaded k other).
Proof.
  intros Hloaded Hk Hother.
  assert (TaskPreserves P (warnNoRoutesInModule ;; k [])) as Hwarn1.
  { apply TaskPreserves_bind; [apply TaskPreserves_modify, HP | intros _; by apply Hk]. }
  assert (TaskPreserves P (warnUnknownShape ;; k [])) as Hwarn2.
  { apply TaskPreserves_bind; [apply TaskPreserves_modify, HP | intros _; by apply Hk]. }
  destruct loaded as [routes|[d|] [|r|positive] [] [i|]|[i|] [|s|positive]|];
    simpl in *; try done; apply Hk; tauto.
Qed.

Lemma processLazyRoute_preserves loader fullPath :
  LoaderAll (fun route => forall parentPath, TaskPreserves P (processRoute route parentPath))
            (Some loader) ->
  TaskPreserves P (processLazyRoute loader fullPath).
Proof.
  intros Hloader. rewrite processLazyRoute_eq. apply TaskPreserves_tryCatch.
  - apply TaskPreserves_bind; [apply callLoader_preserves|]. intros _.
    destruct loader as [i [loaded|reason]]; simpl in *.
    + apply withExtractedRoutes_preserves; [done|..].
      * intros routes Hroutes.
        destruct (0 <? List.length routes)%nat; [|apply TaskPreserves_ret].
        by apply TaskPreserves_await, buildRouteMap_preserves.
      * intros [|]; [|apply TaskPreserves_ret].
        apply TaskPreserves_await, TaskPreserves_throw.
    + apply TaskPreserves_throw.
  - intros e. apply TaskPreserves_throw.
Qed.

(** The traversal keeps every stable predicate. *)
Lemma processRoute_preserves route :
  forall parentPath, TaskPreserves P (processRoute route parentPath).
Proof.
  induction route as [path name children loadChildren Hchildren Hloader]
    using Route_nested_ind.
  intros parentPath. rewrite processRoute_eq. cbv zeta.
  apply TaskPreserves_bind.
  { destruct name as [n|]; [|apply TaskPreserves_ret].
    destruct (isEmpty n); [apply TaskPreserves_ret | apply registerRoute_preserves]. }
  intros _. apply TaskPreserves_bind.
  { destruct children as [routes|]; [|apply TaskPreserves_ret].
    by apply TaskPreserves_await, buildRouteMap_preserves. }
  intros _. destruct loadChildren as [loader|]; [|apply TaskPreserves_ret].
  by apply TaskPreserves_await, processLazyRoute_preserves.
Qed.

Lemma buildRouteMap_any_preserves rootRoutes parentPath :
  TaskPreserves P (buildRouteMap rootRoutes parentPath).
Proof.
  destruct rootRoutes as [|routes]; [apply TaskPreserves_throw|].
  apply buildRouteMap_preserves, Forall_forall.
  intros route _. apply processRoute_preserves.
Qed.

End Traversal.

(* ================================================================== *)
(** ** The service in its surroundings *)
(* ================================================================== *)

Lemma mapGet_mapSet (key value k : list Z) (m : JsMap) :
  mapGet k (mapSet key value m)
  = if decide (key = k) then Some value else mapGet k m.
Proof.
  induction m as [|[k0 v0] rest IH]; simpl.
  - by destruct (decide (key = k)).
  - destruct (decide (k0 = key)) as [->|Hne]; simpl.
    + by destruct (decide (key = k)).
    + rewrite IH. destruct (decide (k0 = k)) as [->|]; [|done].
      by destruct (decide (key = k)).
Qed.

Lemma NoBlankKeys_stable : ServiceStable NoBlankKeys.
Proof.
  split; [split|..]; try done.
  intros name path e Hname Hget H name' Hblank. simpl.
  rewrite mapGet_mapSet. destruct (decide (name = name')) as [->|_]; [congruence|].
  by apply H.
Qed.

Lemma Registered_stable name path : ServiceStable (Registered name path).
Proof.
  split; [split|..]; try done.
  intros name' path' e Hname Hget H. unfold Registered in *. simpl.
  rewrite mapGet_mapSet. destruct (decide (name' = name)) as [->|_]; [congruence|done].
Qed.

Lemma NotInitialized_stable :
  TraversalStable (fun e => isInitialized (service e) = false).
Proof. by split. Qed.

Lemma performInitializationCatch_preserves P e :
  ServiceStable P -> TaskPreserves P (performInitializationCatch e).
Proof.
  intros HP. unfold performInitializationCatch. apply TaskPreserves_bind.
  - apply TaskPreserves_modify. apply HP.
  - intros _. destruct (instanceofNamedRouteError e); apply TaskPreserves_throw.
Qed.

Lemma performInitialization_preserves P :
  ServiceStable P -> TaskPreserves P performInitialization.
Proof.
  intros HP. unfold performInitialization. apply TaskPreserves_tryCatch.
  - intros e. destruct (config e) as [rootRoutes|]; [|done].
    apply TaskPreserves_bind.
    + apply TaskPreserves_await, buildRouteMap_any_preserves, HP.
    + intros _. apply TaskPreserves_modify, HP.
  - intros e. by apply performInitializationCatch_preserves.
Qed.

(** [performInitialization] returns only after it has set
    [isInitialized], and throws only after it has cleared
    [initializationPromise]. *)
Lemma performInitialization_ends e :
  Ends (fun e' => isInitialized (service e') = true)
       (fun e' => initializationPromise (service e') = None)
       (performInitialization e).
Proof.
  unfold performInitialization, tryCatch.
  eapply Ends_catchResult with (onInner := fun _ => True).
  - intros err e'. unfold performInitializationCatch, bind, modify. simpl.
    by destruct (instanceofNamedRouteError err).
  - destruct (config e) as [rootRoutes|]; [|done].
    unfold bind. by apply Ends_bind_modify.
Qed.

(** Up to its first [await], [performInitialization] leaves
    [isInitialized] as it is. *)
Lemma performInitialization_first_stop e :
  isInitialized (service e) = false ->
  isInitialized (service (stopEnv (performInitialization e))) = false.
Proof.
  intros He. unfold performInitialization, tryCatch.
  destruct (config e) as [rootRoutes|]; simpl.
  - unfold bind, await.
    destruct (buildRouteMap_any_preserves _ NotInitialized_stable rootRoutes [] e)
      as [Hstop _].
    destruct (awaitResult_suspended (buildRouteMap rootRoutes [] e)) as [k ->].
    simpl. by apply Hstop.
  - done.
Qed.

Section Keeping.

Variable P : Env -> Prop.
Hypothesis HP : ServiceStable P.

Lemma callAsync_keeps sys :
  P (env sys) -> P (env (fst (callAsync performInitialization sys))).
Proof.
  intros H. unfold callAsync.
  destruct (performInitialization_preserves P HP (env sys)) as [Hstop _].
  specialize (Hstop H). by destruct (performInitialization (env sys)).
Qed.

Lemma initialize_keeps sys : P (env sys) -> P (env (fst (initialize sys))).
Proof.
  intros H. unfold initialize.
  destruct (isInitialized _); [done|].
  destruct (initializationPromise _); [done|].
  pose proof (callAsync_keeps sys H) as H'.
  destruct (callAsync performInitialization sys) as [sys' p]. simpl in *.
  by apply HP.
Qed.

Lemma resumeTask_keeps i sys :
  TasksOK sys -> P (env sys) -> P (env (resumeTask i sys)).
Proof.
  intros Htasks H. unfold resumeTask.
  destruct (tasks sys !! i) as [[p k]|] eqn:Hi; [|done].
  pose proof (proj1 (Forall_lookup _ _) Htasks i (p, k) Hi P HP (env sys)) as [Hstop _].
  specialize (Hstop H). simpl in Hstop. by destruct (k (env sys)).
Qed.

Lemma completeTask_keeps i sys :
  TasksOK sys -> P (env sys) -> P (env (completeTask i sys)).
Proof.
  intros Htasks H. unfold completeTask.
  destruct (tasks sys !! i) as [[p k]|] eqn:Hi; [|done].
  pose proof (proj1 (Forall_lookup _ _) Htasks i (p, k) Hi P HP (env sys)) as [Hstop Hk].
  pose proof (Preserves_finish P (k (env sys)) (Hstop H) Hk) as Hfin.
  by destruct (finish (k (env sys))).
Qed.

End Keeping.

Lemma callAsync_TasksOK sys :
  TasksOK sys -> TasksOK (fst (callAsync performInitialization sys)).
Proof.
  intros H. unfold callAsync, TasksOK in *.
  destruct (performInitialization (env sys)) as [e a|e err|e k] eqn:Hrun;
    simpl; [done..|].
  apply Forall_app. split; [done|]. constructor; [|done].
  intros P HP. simpl.
  destruct (performInitialization_preserves P HP (env sys)) as [_ Hk].
  rewrite Hrun in Hk. exact Hk.
Qed.

Lemma initialize_TasksOK sys : TasksOK sys -> TasksOK (fst (initialize sys)).
Proof.
  intros H. unfold initialize.
  destruct (isInitialized _); [done|].
  destruct (initializationPromise _); [done|].
  pose proof (callAsync_TasksOK sys H) as H'.
  by destruct (callAsync performInitialization sys).
Qed.

Lemma resumeTask_TasksOK i sys : TasksOK sys -> TasksOK (resumeTask i sys).
Proof.
  intros H. unfold resumeTask.
  destruct (tasks sys !! i) as [[p k]|] eqn:Hi; [|done].
  pose proof (proj1 (Forall_lookup _ _) H i (p, k) Hi) as Hk. simpl in Hk.
  unfold TasksOK in *.
  destruct (k (env sys)) as [e a|e err|e k'] eqn:Hrun; simpl.
  - by apply Forall_delete.
  - by apply Forall_delete.
  - apply Forall_insert; [done|]. intros P HP. simpl.
    destruct (Hk P HP (env sys)) as [_ Hrest]. rewrite Hrun in Hrest. exact Hrest.
Qed.

Lemma completeTask_TasksOK i sys : TasksOK sys -> TasksOK (completeTask i sys).
Proof.
  intros H. unfold completeTask.
  destruct (tasks sys !! i) as [[p k]|] eqn:Hi; [|done].
  destruct (finish (k (env sys))). unfold TasksOK in *. simpl.
  by apply Forall_delete.
Qed.

Lemma completeTasks_keeps P n sys :
  ServiceStable P -> TasksOK sys -> P (env sys) -> P (env (completeTasks n sys)).
Proof.
  intros HP. revert sys. induction n as [|n IH]; intros sys Htasks H; simpl; [done|].
  apply IH; [by apply completeTask_TasksOK | by apply completeTask_keeps].
Qed.

(** Every reachable state has no blank key, and its stopped calls keep
    the stable predicates. *)
Lemma Reachable_invariant sys : Reachable sys -> NoBlankKeys (env sys) /\ TasksOK sys.
Proof.
  induction 1 as [c|sys sys' _ [IH1 IH2] Hstep].
  - split; [done | constructor].
  - destruct Hstep as [sys|sys|sys|i sys|name sys|c sys].
    + split; [apply initialize_keeps; [apply NoBlankKeys_stable | done]
             | by apply initialize_TasksOK].
    + split; done.
    + unfold refresh. split.
      * apply initialize_keeps; [apply NoBlankKeys_stable | done].
      * by apply initialize_TasksOK.
    + split; [apply resumeTask_keeps; [apply NoBlankKeys_stable | done..]
             | by apply resumeTask_TasksOK].
    + split; [|done]. simpl. unfold getRoutePath.
      destruct (isEmpty name); [done|]. simpl. by destruct (_ && _).
    + split; done.
Qed.

(* ================================================================== *)
(** ** The log of loader calls *)
(* ================================================================== *)

Lemma ReturnsWith_impl {X} (Q Q' : list nat -> Prop) (r : Result X) :
  (forall l, Q l -> Q' l) -> ReturnsWith Q r -> ReturnsWith Q' r.
Proof.
  intros HQ. induction r as [e a|e x|e k IH]; simpl; [apply HQ|done|].
  intros Hk e' He'. by apply IH, Hk.
Qed.

Section LoaderLog.

Context {A B : Type}.

Lemma ReturnsWith_bindResult (Q Q' : list nat -> Prop) (r : Result A) (f : A -> Task B) :
  ReturnsWith Q' r ->
  (forall a e, Q' (loaderCalls e) -> ReturnsWith Q (f a e)) ->
  ReturnsWith Q (bindResult r f).
Proof.
  intros Hr Hf. induction r as [e a|e x|e k IH]; simpl in *; [by apply Hf|done|].
  intros e' He'. by apply IH, Hr.
Qed.

Lemma ReturnsWith_catchResult (Q : list nat -> Prop) (r : Result A)
    (handler : JsError -> Task A) :
  ReturnsWith Q r ->
  (forall x e, ReturnsWith Q (handler x e)) ->
  ReturnsWith Q (catchResult r handler).
Proof.
  intros Hr Hh. induction r as [e a|e x|e k IH]; simpl in *; [done|apply Hh|].
  intros e' He'. by apply IH, Hr.
Qed.

Lemma ReturnsWith_awaitResult (Q : list nat -> Prop) (r : Result A) :
  ReturnsWith Q r -> ReturnsWith Q (awaitResult r).
Proof.
  induction r as [e a|e x|e k IH]; simpl; [|done|].
  - intros HQ e' ->. exact HQ.
  - intros Hk e' He'. by apply IH, Hk.
Qed.

Lemma ReturnsWith_finish (Q : list nat -> Prop) (r : Result A) :
  ReturnsWith Q r ->
  match finish r with
  | (e, Normal _) => Q (loaderCalls e)
  | (_, Throws _) => True
  end.
Proof.
  induction r as [e a|e x|e k IH]; simpl; [done..|].
  intros Hk. by apply IH, Hk.
Qed.

Lemma Calls_bind (t : Task A) (f : A -> Task B) ids ids' :
  Calls t ids -> (forall a, Calls (f a) ids') -> Calls (bind t f) (ids ++ ids').
Proof.
  intros Ht Hf e. unfold bind.
  eapply ReturnsWith_bindResult; [apply Ht|].
  intros a e1 H1. eapply ReturnsWith_impl; [|apply Hf].
  intros l ->. simpl in H1. by rewrite H1, List.app_assoc.
Qed.

Lemma Calls_await (t : Task A) ids : Calls t ids -> Calls (await t) ids.
Proof. intros Ht e. apply ReturnsWith_awaitResult, Ht. Qed.

Lemma Calls_tryCatch (t : Task A) (handler : JsError -> Task A) ids :
  Calls t ids ->
  (forall x e, exists e' y, handler x e = Failed e' y) ->
  Calls (tryCatch t handler) ids.
Proof.
  intros Ht Hh e. apply ReturnsWith_catchResult; [apply Ht|].
  intros x e1. by destruct (Hh x e1) as (e' & y & ->).
Qed.

Lemma Calls_ret (a : A) : Calls (ret a) [].
Proof. intros e. simpl. by rewrite List.app_nil_r. Qed.

Lemma Calls_throw (x : JsError) ids : Calls (@throw A x) ids.
Proof. by intros e. Qed.

End LoaderLog.

Lemma Calls_modify (f : Env -> Env) :
  (forall e, loaderCalls (f e) = loaderCalls e) -> Calls (modify f) [].
Proof. intros Hf e. simpl. by rewrite Hf, List.app_nil_r. Qed.

Lemma Calls_forEach {X} (body : X -> Task unit) (ids : X -> list nat) (xs : list X) :
  Forall (fun x => Calls (body x) (ids x)) xs ->
  Calls (forEach body xs) (List.flat_map ids xs).
Proof.
  induction 1 as [|x rest Hx _ IH]; simpl.
  - apply Calls_ret.
  - by apply Calls_bind.
Qed.

Lemma registerRoute_calls name path : Calls (registerRoute name path) [].
Proof.
  intros e. unfold registerRoute.
  destruct (isEmpty (trim name)); simpl; [by rewrite List.app_nil_r|].
  destruct (mapGet name _); simpl; [done | by rewrite List.app_nil_r].
Qed.

Lemma callLoader_calls loader : Calls (callLoader loader) [loaderId loader].
Proof. intros e. unfold callLoader. simpl. by intros e' ->. Qed.

Lemma buildRouteMapCatch_throws route x e :
  exists e' y, buildRouteMapCatch route x e = Failed e' y.
Proof.
  unfold buildRouteMapCatch, bind, modify. simpl.
  destruct (instanceofNamedRouteError x); by eexists _, _.
Qed.

Lemma buildRouteMap_calls routes parentPath :
  Forall (fun route => forall parentPath,
            Calls (processRoute route parentPath) (loadersVisited route)) routes ->
  Calls (buildRouteMap (RoutesArray routes) parentPath)
        (List.flat_map loadersVisited routes).
Proof.
  intros H. rewrite buildRouteMap_eq. apply Calls_forEach.
  eapply Forall_impl; [exact H|]. intros route Hroute. simpl.
  apply Calls_tryCatch; [apply Calls_await, Hroute|].
  apply buildRouteMapCatch_throws.
Qed.

Lemma withExtractedRoutes_calls loaded (k : list Route -> Task unit)
    (other : bool -> Task unit) (ids : list Route -> list nat) :
  LoadedAll (fun route => forall parentPath,
               Calls (processRoute route parentPath) (loadersVisited route)) loaded ->
  (forall routes,
     Forall (fun route => forall parentPath,
               Calls (processRoute route parentPath) (loadersVisited route)) routes ->
     Calls (k routes) (ids routes)) ->
  (forall lengthIsPositive, Calls (other lengthIsPositive) (ids [])) ->
  Calls (withExtractedRoutes loaded k other) (onExtractedRoutes loaded ids).
Proof.
  intros Hloaded Hk Hother.
  assert (Calls (warnNoRoutesInModule ;; k []) (ids [])) as Hwarn1.
  { change (ids []) with ([] ++ ids []).
    apply Calls_bind; [by apply Calls_modify | intros _; by apply Hk]. }
  assert (Calls (warnUnknownShape ;; k []) (ids [])) as Hwarn2.
  { change (ids []) with ([] ++ ids []).
    apply Calls_bind; [by apply Calls_modify | intros _; by apply Hk]. }
  destruct loaded as [routes|[d|] [|r|positive] [] [i|]|[i|] [|s|positive]|];
    simpl in *; try done; apply Hk; tauto.
Qed.

Lemma processLazyRoute_calls i outcome fullPath :
  LoaderAll (fun route => forall parentPath,
               Calls (processRoute route parentPath) (loadersVisited route))
            (Some (mkLoader i outcome)) ->
  Calls (processLazyRoute (mkLoader i outcome) fullPath)
        match outcome with
        | Resolves loaded => i :: onExtractedRoutes loaded (List.flat_map loadersVisited)
        | Rejects _ => [i]
        end.
Proof.
  intros Hloader. rewrite processLazyRoute_eq.
  apply Calls_tryCatch; [|intros x e; by eexists _, _].
  destruct outcome as [loaded|reason]; simpl in *.
  - change (i :: onExtractedRoutes loaded (List.flat_map loadersVisited))
      with ([i] ++ onExtractedRoutes loaded (List.flat_map loadersVisited)).
    apply Calls_bind; [apply (callLoader_calls (mkLoader i (Resolves loaded)))|].
    intros _. apply withExtractedRoutes_calls; [done|..].
    + intros routes Hroutes.
      destruct routes as [|route rest]; [apply Calls_ret|].
      change (Calls (await (buildRouteMap (RoutesArray (route :: rest)) fullPath))
                    (List.flat_map loadersVisited (route :: rest))).
      by apply Calls_await, buildRouteMap_calls.
    + intros [|]; [apply Calls_await, Calls_throw | apply Calls_ret].
  - change [i] with ([i] ++ []).
    apply Calls_bind; [apply (callLoader_calls (mkLoader i (Rejects reason)))|].
    intros _. apply Calls_throw.
Qed.

(** A visit that returns has called the loaders of the route, each node
    of the configuration once. *)
Lemma processRoute_calls route :
  forall parentPath, Calls (processRoute route parentPath) (loadersVisited route).
Proof.
  induction route as [path name children loadChildren Hchildren Hloader]
    using Route_nested_ind.
  intros parentPath. rewrite processRoute_eq. cbv zeta.
  change (loadersVisited (mkRoute path name children loadChildren))
    with ([] ++ match children with
                | Some routes => List.flat_map loadersVisited routes
                | None => []
                end
             ++ match loadChildren with
                | Some (mkLoader i (Resolves loaded)) =>
                    i :: onExtractedRoutes loaded (List.flat_map loadersVisited)
                | Some (mkLoader i (Rejects _)) => [i]
                | None => []
                end).
  apply Calls_bind.
  { destruct name as [n|]; [|apply Calls_ret].
    destruct (isEmpty n); [apply Calls_ret | apply registerRoute_calls]. }
  intros _. apply Calls_bind.
  { destruct children as [routes|]; [|apply Calls_ret].
    by apply Calls_await, buildRouteMap_calls. }
  intros _. destruct loadChildren as [[i outcome]|]; [|apply Calls_ret].
  apply Calls_await.
  pose proof (processLazyRoute_calls i outcome (joinPaths parentPath path) Hloader) as H.
  by destruct outcome.
Qed.

(** [performInitialization] returns only after it has called the loaders
    of the configuration it read, each once. *)
Lemma performInitialization_calls e :
  ReturnsWith (fun l => l = loaderCalls e ++ configLoaders (config e))
              (performInitialization e).
Proof.
  unfold performInitialization, tryCatch.
  apply ReturnsWith_catchResult.
  - destruct (config e) as [[|routes]|] eqn:Hc; simpl; [| |done].
    + unfold bind, await, buildRouteMap, buildRouteMapWith, throw. simpl. done.
    + assert (Calls (await (buildRouteMap (RoutesArray routes) []) ;;
                     modify (setService (setIsInitialized true)))
                    (List.flat_map loadersVisited routes ++ [])) as H.
      { apply Calls_bind; [|intros _; by apply Calls_modify].
        apply Calls_await, buildRouteMap_calls, Forall_forall.
        intros route _. apply processRoute_calls. }
      rewrite List.app_nil_r in H. apply H.
  - intros x e'. unfold performInitializationCatch, bind, modify. simpl.
    by destruct (instanceofNamedRouteError x).
Qed.

(* ================================================================== *)
(** ** Claims on the registry *)
(* ================================================================== *)

Lemma build_fst sys : fst (build sys) = settleAll (fst (initialize sys)).
Proof. unfold build. by destruct (initialize sys). Qed.

Lemma settleAll_keeps P sys :
  ServiceStable P -> TasksOK sys -> P (env sys) -> P (env (settleAll sys)).
Proof. intros. unfold settleAll. by apply completeTasks_keeps. Qed.

Lemma mapGet_keys (key value : list Z) (m : JsMap) :
  mapGet key m = Some value -> key ∈ mapKeys m.
Proof.
  induction m as [|[k v] rest IH]; simpl; [done|].
  rewrite elem_of_cons.
  destruct (decide (k = key)) as [->|_]; [by left|].
  intros H. right. by apply IH.
Qed.

(** What is registered is what the three queries show. *)
Lemma Registered_observable name path e :
  Registered name path e ->
  hasRoute name e = true
  /\ name ∈ getAllRouteNames e
  /\ (name <> [] -> snd (getRoutePath name e) = Some path).
Proof.
  unfold Registered, hasRoute, getAllRouteNames, getRoutePath, mapHas.
  intros H. rewrite H. split; [done|]. split; [by eapply mapGet_keys|].
  intros Hname. by destruct name.
Qed.

Lemma mapKeys_app (m1 m2 : JsMap) : mapKeys (m1 ++ m2) = mapKeys m1 ++ mapKeys m2.
Proof. apply List.map_app. Qed.

Lemma mapGet_None (key : list Z) (m : JsMap) :
  mapGet key m = None <-> key ∉ mapKeys m.
Proof.
  induction m as [|[k v] rest IH]; simpl.
  - split; [intros _; apply not_elem_of_nil | done].
  - rewrite not_elem_of_cons. destruct (decide (k = key)) as [->|Hne].
    + split; [done | by intros [? _]].
    + rewrite IH. split; [by split | by intros [_ ?]].
Qed.

Lemma mapSet_absent (key value : list Z) (m : JsMap) :
  mapGet key m = None -> mapSet key value m = m ++ [(key, value)].
Proof.
  induction m as [|[k v] rest IH]; simpl; [done|].
  destruct (decide (k = key)); [done|]. intros H. by rewrite IH.
Qed.

Lemma mapGet_NoDup (key value : list Z) (m : JsMap) :
  NoDup (mapKeys m) -> (key, value) ∈ m -> mapGet key m = Some value.
Proof.
  induction m as [|[k v] rest IH]; simpl.
  - by intros _ ?%elem_of_nil.
  - intros [Hk Hrest]%NoDup_cons [[= -> ->]|Hin]%elem_of_cons.
    + by destruct (decide (k = k)).
    + destruct (decide (k = key)) as [->|_]; [|by apply IH].
      destruct Hk. apply list_elem_of_fmap. by exists (key, value).
Qed.

Lemma trim_empty (name : list Z) : isEmpty name = true -> isEmpty (trim name) = true.
Proof. by destruct name. Qed.

(** *** The steps of a build on the registry *)

Lemma Leaves_impl {X} (QD QD' QF QF' : JsMap -> Prop) (r : Result X) :
  (forall m, QD m -> QD' m) -> (forall m, QF m -> QF' m) ->
  Leaves QD QF r -> Leaves QD' QF' r.
Proof.
  intros HD HF. induction r as [e a|e x|e k IH]; simpl; [apply HD|apply HF|].
  intros Hk e' He'. by apply IH, Hk.
Qed.

Section Leaving.

Context {A B : Type}.

Lemma Leaves_bindResult (QD QD' QF : JsMap -> Prop) (r : Result A) (f : A -> Task B) :
  Leaves QD' QF r ->
  (forall a e, QD' (routeMap (service e)) -> Leaves QD QF (f a e)) ->
  Leaves QD QF (bindResult r f).
Proof.
  intros Hr Hf. induction r as [e a|e x|e k IH]; simpl in *; [by apply Hf|done|].
  intros e' He'. by apply IH, Hr.
Qed.

Lemma Leaves_catchResult (QD QF : JsMap -> Prop) (r : Result A)
    (handler : JsError -> Task A) :
  Leaves QD QF r ->
  (forall x e, QF (routeMap (service e)) -> Leaves QD QF (handler x e)) ->
  Leaves QD QF (catchResult r handler).
Proof.
  intros Hr Hh. induction r as [e a|e x|e k IH]; simpl in *; [done|by apply Hh|].
  intros e' He'. by apply IH, Hr.
Qed.

Lemma Leaves_awaitResult (QD QF : JsMap -> Prop) (r : Result A) :
  Leaves QD QF r -> Leaves QD QF (awaitResult r).
Proof.
  induction r as [e a|e x|e k IH]; simpl.
  - intros H e' ->. exact H.
  - intros H e' ->. exact H.
  - intros Hk e' He'. by apply IH, Hk.
Qed.

Lemma Leaves_finish (QD QF : JsMap -> Prop) (r : Result A) :
  Leaves QD QF r ->
  match finish r with
  | (e, Normal _) => QD (routeMap (service e))
  | (e, Throws _) => QF (routeMap (service e))
  end.
Proof.
  induction r as [e a|e x|e k IH]; simpl; [done..|].
  intros Hk. by apply IH, Hk.
Qed.

End Leaving.

Lemma runVisits_app (steps steps' : list Visit) (m : JsMap) :
  runVisits (steps ++ steps') m
  = if snd (runVisits steps m) then runVisits steps' (fst (runVisits steps m))
    else runVisits steps m.
Proof.
  revert m. induction steps as [|[name path|] rest IH]; intros m; simpl; [done| |done].
  destruct (mapGet name m); [done|]. apply IH.
Qed.

Section Performing.

Context {A B : Type}.

Lemma Performs_bind (t : Task A) (f : A -> Task B) steps steps' :
  Performs t steps -> (forall a, Performs (f a) steps') ->
  Performs (bind t f) (steps ++ steps').
Proof.
  intros Ht Hf e. unfold bind.
  eapply Leaves_bindResult.
  - eapply Leaves_impl; [| |apply Ht]; [intros m H; exact H|].
    intros m H. simpl. by rewrite runVisits_app, H.
  - intros a e1 H1. eapply Leaves_impl; [| |apply Hf].
    + intros m H. by rewrite runVisits_app, H1.
    + intros m H. by rewrite runVisits_app, H1.
Qed.

Lemma Performs_await (t : Task A) steps : Performs t steps -> Performs (await t) steps.
Proof. intros Ht e. apply Leaves_awaitResult, Ht. Qed.

Lemma Performs_tryCatch (t : Task A) (handler : JsError -> Task A) steps :
  Performs t steps ->
  (forall x e, exists e' y,
     handler x e = Failed e' y /\ routeMap (service e') = routeMap (service e)) ->
  Performs (tryCatch t handler) steps.
Proof.
  intros Ht Hh e. apply Leaves_catchResult; [apply Ht|].
  intros x e1 H1. destruct (Hh x e1) as (e' & y & -> & He'). simpl.
  by rewrite He'.
Qed.

Lemma Performs_ret (a : A) : Performs (ret a) [].
Proof. by intros e. Qed.

Lemma Performs_throw (x : JsError) : Performs (@throw A x) [Failure].
Proof. by intros e. Qed.

End Performing.

Lemma Performs_modify (f : Env -> Env) :
  (forall e, routeMap (service (f e)) = routeMap (service e)) -> Performs (modify f) [].
Proof. intros Hf e. simpl. by rewrite Hf. Qed.

Lemma Performs_forEach {X} (body : X -> Task unit) (steps : X -> list Visit)
    (xs : list X) :
  Forall (fun x => Performs (body x) (steps x)) xs ->
  Performs (forEach body xs) (List.flat_map steps xs).
Proof.
  induction 1 as [|x rest Hx _ IH]; simpl.
  - apply Performs_ret.
  - apply Performs_bind; [done|]. by intros _.
Qed.

Lemma registerRoute_performs name path :
  Performs (registerRoute name path)
           (if isEmpty (trim name) then [] else [Registration name path]).
Proof.
  intros e. unfold registerRoute.
  destruct (isEmpty (trim name)); simpl; [done|].
  destruct (mapGet name (routeMap (service e))) eqn:Hget; simpl; [done|].
  by rewrite (mapSet_absent _ _ _ Hget).
Qed.

Lemma callLoader_performs loader : Performs (callLoader loader) [].
Proof. intros e. unfold callLoader. simpl. by intros e' ->. Qed.

Lemma buildRouteMapCatch_throws_same route x e :
  exists e' y,
    buildRouteMapCatch route x e = Failed e' y
    /\ routeMap (service e') = routeMap (service e).
Proof.
  unfold buildRouteMapCatch, bind, modify. simpl.
  destruct (instanceofNamedRouteError x); by eexists _, _.
Qed.

Lemma buildRouteMap_performs routes parentPath :
  Forall VisitPerforms routes ->
  Performs (buildRouteMap (RoutesArray routes) parentPath)
           (List.flat_map (fun r => visits r parentPath) routes).
Proof.
  intros H. rewrite buildRouteMap_eq. apply Performs_forEach.
  eapply Forall_impl; [exact H|]. intros route Hroute. simpl.
  apply Performs_tryCatch; [apply Performs_await, Hroute|].
  apply buildRouteMapCatch_throws_same.
Qed.

Lemma withExtractedRoutes_performs loaded (k : list Route -> Task unit)
    (other : bool -> Task unit) (steps : list Route -> list Visit) :
  LoadedAll VisitPerforms loaded ->
  (forall routes, Forall VisitPerforms routes -> Performs (k routes) (steps routes)) ->
  (forall lengthIsPositive,
     Performs (other lengthIsPositive)
              (if lengthIsPositive then [Failure] else steps [])) ->
  Performs (withExtractedRoutes loaded k other)
           (if extractsInvalidRoutes loaded then [Failure]
            else onExtractedRoutes loaded steps).
Proof.
  intros Hloaded Hk Hother.
  assert (Performs (warnNoRoutesInModule ;; k []) (steps [])) as Hwarn1.
  { change (steps []) with ([] ++ steps []).
    apply Performs_bind; [by apply Performs_modify | intros _; by apply Hk]. }
  assert (Performs (warnUnknownShape ;; k []) (steps [])) as Hwarn2.
  { change (steps []) with ([] ++ steps []).
    apply Performs_bind; [by apply Performs_modify | intros _; by apply Hk]. }
  destruct loaded as [routes|[d|] [|r|[|]] [] [i|]|[i|] [|s|[|]]|]; simpl in *;
    try done; try apply (Hother true); try apply (Hother false); apply Hk; tauto.
Qed.

Lemma processLazyRoute_performs i outcome fullPath :
  LoaderAll VisitPerforms (Some (mkLoader i outcome)) ->
  Performs (processLazyRoute (mkLoader i outcome) fullPath)
           match outcome with
           | Resolves loaded =>
               if extractsInvalidRoutes loaded then [Failure]
               else onExtractedRoutes loaded
                      (List.flat_map (fun r => visits r fullPath))
           | Rejects _ => [Failure]
           end.
Proof.
  intros Hloader. rewrite processLazyRoute_eq.
  apply Performs_tryCatch; [|intros x e; by eexists _, _].
  destruct outcome as [loaded|reason]; simpl in *.
  - apply (Performs_bind _ _ []); [apply callLoader_performs|].
    intros _. apply withExtractedRoutes_performs; [done|..].
    + intros routes Hroutes.
      destruct routes as [|route rest]; [apply Performs_ret|].
      change (Performs (await (buildRouteMap (RoutesArray (route :: rest)) fullPath))
                (List.flat_map (fun r => visits r fullPath) (route :: rest))).
      by apply Performs_await, buildRouteMap_performs.
    + intros [|]; [apply Performs_await, Performs_throw | apply Performs_ret].
  - apply (Performs_bind _ _ [] [Failure]); [apply callLoader_performs|].
    intros _. apply Performs_throw.
Qed.

Lemma processRoute_performs route : VisitPerforms route.
Proof.
  induction route as [path name children loadChildren Hchildren Hloader]
    using Route_nested_ind.
  intros parentPath. rewrite processRoute_eq. cbv zeta.
  cbn [visits]. cbv zeta.
  set (fullPath := joinPaths parentPath path).
  apply Performs_bind.
  { destruct name as [n|]; [|apply Performs_ret].
    destruct (isEmpty n) eqn:Hn.
    - rewrite (trim_empty n Hn). apply Performs_ret.
    - apply registerRoute_performs. }
  intros _. apply Performs_bind.
  { destruct children as [routes|]; [|apply Performs_ret].
    by apply Performs_await, buildRouteMap_performs. }
  intros _. destruct loadChildren as [[i outcome]|]; [|apply Performs_ret].
  apply Performs_await.
  pose proof (processLazyRoute_performs i outcome fullPath Hloader) as H.
  by destruct outcome.
Qed.

(** [performInitialization] does the steps of the configuration it
    reads. *)
Lemma performInitialization_leaves e :
  Leaves (fun m => runVisits (configVisits (config e)) (routeMap (service e)) = (m, true))
         (fun m => runVisits (configVisits (config e)) (routeMap (service e)) = (m, false))
         (performInitialization e).
Proof.
  unfold performInitialization, tryCatch.
  apply Leaves_catchResult.
  - destruct (config e) as [[|routes]|] eqn:Hc; simpl.
    + unfold bind, await, buildRouteMap, buildRouteMapWith, throw. simpl.
      by intros e' ->.
    + assert (Performs (await (buildRouteMap (RoutesArray routes) []) ;;
                        modify (setService (setIsInitialized true)))
                       (List.flat_map (fun r => visits r []) routes ++ [])) as H.
      { apply Performs_bind; [|intros _; by apply Performs_modify].
        apply Performs_await, buildRouteMap_performs, Forall_forall.
        intros route _. apply processRoute_performs. }
      rewrite List.app_nil_r in H. apply H.
    + done.
  - intros x e' He'. unfold performInitializationCatch, bind, modify. simpl.
    by destruct (instanceofNamedRouteError x).
Qed.

Lemma build_leaves (QD QF : JsMap -> Prop) sys :
  tasks sys = [] ->
  isInitialized (service (env sys)) = false ->
  initializationPromise (service (env sys)) = None ->
  Leaves QD QF (performInitialization (env sys)) ->
  match snd (build sys) with
  | Some (Normal _) => QD (routeMap (service (env (fst (build sys)))))
  | Some (Throws _) => QF (routeMap (service (env (fst (build sys)))))
  | None => False
  end.
Proof.
  intros Htasks Hi Hp Hrun. unfold build, initialize. rewrite Hi, Hp.
  unfold callAsync. rewrite Htasks.
  destruct (performInitialization (env sys)) as [e a|e err|e k];
    unfold settleAll, withEnv; simpl in *.
  - by rewrite list_lookup_middle.
  - by rewrite list_lookup_middle.
  - unfold completeTask. simpl.
    set (e1 := setService _ e).
    specialize (Hrun e1 eq_refl). apply Leaves_finish in Hrun.
    destruct (finish (k e1)) as [e2 [[]|err]]; simpl;
      (rewrite list_lookup_insert_eq; [done|]);
      rewrite List.length_app; simpl; lia.
Qed.

(** How a build of a service that is not built and has no build going
    on leaves the registry. *)
Lemma build_runs_visits sys :
  tasks sys = [] ->
  isInitialized (service (env sys)) = false ->
  initializationPromise (service (env sys)) = None ->
  let after := runVisits (configVisits (config (env sys))) (routeMap (service (env sys))) in
  routeMap (service (env (fst (build sys)))) = fst after
  /\ snd (build sys) <> None
  /\ (snd (build sys) = Some (Normal tt) <-> snd after = true).
Proof.
  intros Htasks Hi Hp after.
  pose proof (build_leaves _ _ sys Htasks Hi Hp (performInitialization_leaves (env sys)))
    as H. fold after in H.
  destruct (snd (build sys)) as [[[]|x]|]; [| |done]; rewrite H; simpl.
  - done.
  - split; [done|]. split; [done|]. by split.
Qed.

(** Where the steps end: when all are done, every entry of theirs has
    been added; otherwise the entries of the steps before the first that
    fails have been added, and that step is a failure or the
    registration of a name that is in the registry by then. *)
Lemma runVisits_stops (steps : list Visit) (m : JsMap) :
  (snd (runVisits steps m) = true ->
   fst (runVisits steps m) = m ++ entriesOf steps /\ Failure ∉ steps)
  /\ (snd (runVisits steps m) = false ->
      exists passed step rest,
        steps = passed ++ step :: rest
        /\ runVisits passed m = (m ++ entriesOf passed, true)
        /\ fst (runVisits steps m) = m ++ entriesOf passed
        /\ (step = Failure
            \/ exists name path,
                 step = Registration name path
                 /\ mapGet name (m ++ entriesOf passed) <> None)).
Proof.
  revert m. induction steps as [|[name path|] rest IH]; intros m; simpl.
  - split; [|done]. intros _. rewrite List.app_nil_r. split; [done|apply not_elem_of_nil].
  - destruct (mapGet name m) as [existing|] eqn:Hget; simpl.
    + split; [done|]. intros _. exists [], (Registration name path), rest. simpl.
      rewrite List.app_nil_r. split; [done|]. split; [done|]. split; [done|].
      right. exists name, path. split; [done|]. by rewrite Hget.
    + destruct (IH (m ++ [(name, path)])) as [IH1 IH2]. split.
      * intros H. destruct (IH1 H) as [Hm Hf]. rewrite Hm, <- List.app_assoc.
        split; [done|]. intros [?|?]%elem_of_cons; done.
      * intros H. destruct (IH2 H) as (passed & step & rest' & -> & Hrun & Hm & Hstep).
        exists (Registration name path :: passed), step, rest'. simpl.
        rewrite Hget, Hrun, Hm, <- !List.app_assoc.
        split; [done|]. split; [done|]. split; [done|].
        by rewrite <- List.app_assoc in Hstep.
  - split; [done|]. intros _. exists [], Failure, rest. simpl.
    rewrite List.app_nil_r. split; [done|]. split; [done|]. split; [done|]. by left.
Qed.

Lemma entriesOf_app (steps steps' : list Visit) :
  entriesOf (steps ++ steps') = entriesOf steps ++ entriesOf steps'.
Proof. apply List.flat_map_app. Qed.

Lemma entriesOf_flat_map {X} (f : X -> list Visit) (g : X -> JsMap) (xs : list X) :
  Forall (fun x => entriesOf (f x) = g x) xs ->
  entriesOf (List.flat_map f xs) = List.flat_map g xs.
Proof.
  induction 1 as [|x rest Hx _ IH]; simpl; [done|].
  by rewrite entriesOf_app, Hx, IH.
Qed.

(** The entries of the steps of a visit are the entries of the route. *)
Lemma visits_registrations route :
  forall parentPath, entriesOf (visits route parentPath) = registrations route parentPath.
Proof.
  induction route as [path name children loadChildren Hchildren Hloader]
    using Route_nested_ind.
  intros parentPath. cbn [visits registrations]. cbv zeta.
  set (fullPath := joinPaths parentPath path).
  rewrite !entriesOf_app. f_equal; [|f_equal].
  - destruct name as [n|]; [|done]. by destruct (isEmpty (trim n)).
  - destruct children as [routes|]; [|done].
    apply entriesOf_flat_map. eapply Forall_impl; [exact Hchildren|].
    intros route H. apply H.
  - destruct loadChildren as [[i [loaded|reason]]|]; [|done..].
    simpl in Hloader.
    destruct loaded as [routes|[d|] [|r|[|]] [] [i'|]|[i'|] [|s|[|]]|]; simpl in *;
      try done; apply entriesOf_flat_map;
      (eapply Forall_impl; [|intros route H; exact (H fullPath)]);
      first [exact Hloader | exact (proj1 Hloader) | exact (proj1 (proj2 Hloader))
            | exact (proj2 (proj2 Hloader)) | exact (proj2 Hloader)].
Qed.

Lemma configVisits_registrations routes :
  entriesOf (configVisits (Some (RoutesArray routes))) = configRegistrations routes.
Proof.
  apply entriesOf_flat_map, Forall_forall. intros route _. apply visits_registrations.
Qed.

Lemma NoDupKeys_stable : ServiceStable NoDupKeys.
Proof.
  split; [split|..]; try done.
  intros name path e Hname Hget H. unfold NoDupKeys in *. simpl.
  rewrite (mapSet_absent _ _ _ Hget), mapKeys_app. apply NoDup_app.
  split; [done|]. split; [|by apply NoDup_singleton].
  intros k Hk [->|[]%elem_of_nil]%elem_of_cons.
  by apply mapGet_None in Hget.
Qed.

Lemma Reachable_NoDupKeys sys : Reachable sys -> NoDupKeys (env sys).
Proof.
  induction 1 as [c|sys sys' Hreach IH Hstep].
  - constructor.
  - destruct (Reachable_invariant sys Hreach) as [_ Htasks].
    destruct Hstep as [sys|sys|sys|i sys|name sys|c sys].
    + by apply initialize_keeps; [apply NoDupKeys_stable|].
    + constructor.
    + unfold refresh. apply initialize_keeps; [apply NoDupKeys_stable|]. constructor.
    + by apply resumeTask_keeps; [apply NoDupKeys_stable|..].
    + unfold NoDupKeys. simpl. unfold getRoutePath.
      destruct (isEmpty name); [done|]. simpl. by destruct (_ && _).
    + done.
Qed.

(** A stable predicate that holds before a build holds after it. *)
Lemma build_keeps P sys :
  ServiceStable P -> Reachable sys -> P (env sys) -> P (env (fst (build sys))).
Proof.
  intros HP Hreach H. destruct (Reachable_invariant sys Hreach) as [_ Htasks].
  rewrite build_fst. apply settleAll_keeps; [done | by apply initialize_TasksOK|].
  by apply initialize_keeps.
Qed.

(** C2 (as amended).  A failed build is not rolled back.  Whether a
    build succeeds or fails, every entry the registry had before the
    call is there afterwards with the same path.  The build of a service
    that is not built and has no build going on leaves the registry as
    the steps of the traversal leave it that were done before the first
    that fails, [runVisits]: it is the registry of before followed by
    the entries of the steps before the first that fails, in the order
    of the traversal, all entries of the configuration when the build
    succeeds; the step that fails is the registration of a name that is
    in the registry by then, a lazy part that fails, or a configuration
    that is missing or not an array, and it undoes nothing.  [refresh]
    empties the registry first, so a failed refresh leaves the entries
    the failed traversal registered and nothing else.  Every entry of
    the registry after a build is shown by [hasRoute],
    [getAllRouteNames] and [getRoutePath]. *)
Theorem failed_build_is_not_rolled_back (sys : System) :
  Reachable sys ->
  (forall name path,
     Registered name path (env sys) -> Registered name path (env (fst (build sys))))
  /\ (tasks sys = [] ->
      isInitialized (service (env sys)) = false ->
      initializationPromise (service (env sys)) = None ->
      let after :=
        runVisits (configVisits (config (env sys))) (routeMap (service (env sys))) in
      routeMap (service (env (fst (build sys)))) = fst after
      /\ snd (build sys) <> None
      /\ (snd (build sys) = Some (Normal tt) <-> snd after = true))
  /\ (tasks sys = [] ->
      let after := runVisits (configVisits (config (env sys))) [] in
      routeMap (service (env (fst (refreshAndWait sys)))) = fst after
      /\ snd (refreshAndWait sys) <> None
      /\ (snd (refreshAndWait sys) = Some (Normal tt) <-> snd after = true))
  /\ (forall steps m,
        (snd (runVisits steps m) = true ->
         fst (runVisits steps m) = m ++ entriesOf steps /\ Failure ∉ steps)
        /\ (snd (runVisits steps m) = false ->
            exists passed step rest,
              steps = passed ++ step :: rest
              /\ runVisits passed m = (m ++ entriesOf passed, true)
              /\ fst (runVisits steps m) = m ++ entriesOf passed
              /\ (step = Failure
                  \/ exists name path,
                       step = Registration name path
                       /\ mapGet name (m ++ entriesOf passed) <> None)))
  /\ (forall routes,
        entriesOf (configVisits (Some (RoutesArray routes))) = configRegistrations routes)
  /\ (forall name path,
        (name, path) ∈ routeMap (service (env (fst (build sys)))) ->
        hasRoute name (env (fst (build sys))) = true
        /\ name ∈ getAllRouteNames (env (fst (build sys)))
        /\ snd (getRoutePath name (env (fst (build sys)))) = Some path)
  /\ (forall name path e,
        Registered name path e ->
        hasRoute name e = true
        /\ name ∈ getAllRouteNames e
        /\ (name <> [] -> snd (getRoutePath name e) = Some path)).
Proof.
  intros Hreach.
  split; [|split; [|split; [|split; [|split; [|split]]]]].
  - intros name path H. by apply build_keeps; [apply Registered_stable|..].
  - apply build_runs_visits.
  - intros Htasks. change (refreshAndWait sys) with (build (reset sys)).
    by apply (build_runs_visits (reset sys)).
  - apply runVisits_stops.
  - apply configVisits_registrations.
  - intros name path Hin.
    pose proof (build_keeps _ sys NoDupKeys_stable Hreach (Reachable_NoDupKeys sys Hreach))
      as Hn.
    pose proof (build_keeps _ sys NoBlankKeys_stable Hreach
                  (proj1 (Reachable_invariant sys Hreach))) as Hb.
    pose proof (mapGet_NoDup name path _ Hn Hin) as Hget.
    destruct (Registered_observable name path _ Hget) as (H1 & H2 & H3).
    split; [done|]. split; [done|]. apply H3. intros ->.
    rewrite (Hb [] eq_refl) in Hget. done.
  - apply Registered_observable.
Qed.

Lemma failed_build_is_not_rolled_back_witness :
  let failing :=
    Some (RoutesArray
            [leafRoute "a" "a";
             mkRoute (Some (js "lazy")) (Some (js "lazy")) None
               (Some (mkLoader 0 (Rejects (Error (js "Network error")))));
             leafRoute "b" "b"]) in
  Reachable (initialSystem duplicateConfig)
  /\ snd (build (initialSystem duplicateConfig))
     = Some (Throws (DuplicateRouteNameError (js "duplicate") (js "first") (js "second")))
  /\ routeMap (service (env (fst (build (initialSystem duplicateConfig)))))
     = [(js "duplicate", js "first")]
  /\ hasRoute (js "duplicate") (env (fst (build (initialSystem duplicateConfig)))) = true
  /\ snd (build (initialSystem failing)) <> Some (Normal tt)
  /\ routeMap (service (env (fst (build (initialSystem failing)))))
     = [(js "a", js "a"); (js "lazy", js "lazy")].
Proof.
  intros failing.
  assert (Reachable (initialSystem duplicateConfig)) as Hreach by constructor.
  assert (Reachable (initialSystem failing)) as Hreach' by constructor.
  destruct (failed_build_is_not_rolled_back _ Hreach) as (_ & H & _ & _ & _ & Hshown & _).
  destruct (H eq_refl eq_refl eq_refl) as (Hmap & _ & _). clear H.
  destruct (failed_build_is_not_rolled_back _ Hreach') as (_ & H & _).
  destruct (H eq_refl eq_refl eq_refl) as (Hmap' & _ & Hok'). clear H.
  split; [exact Hreach|]. split; [by vm_compute|].
  split; [by rewrite Hmap|].
  split; [|split; [|by rewrite Hmap']].
  - apply (Hshown (js "duplicate") (js "first")). rewrite Hmap.
    apply elem_of_cons. by left.
  - intros Hok. apply Hok' in Hok. by vm_compute in Hok.
Defined.

(** C2 as stated fails: the build of the test with a duplicate name
    fails, and the entry registered before the failure is observable by
    [getRoutePath], [hasRoute] and [getAllRouteNames] afterwards.  A
    refresh that fails in the same way, after a successful build of
    another configuration, leaves that entry too. *)
Lemma failed_build_leaves_partial_mapping :
  let sys := fst (build (initialSystem duplicateConfig)) in
  snd (build (initialSystem duplicateConfig))
  = Some (Throws (DuplicateRouteNameError (js "duplicate") (js "first") (js "second")))
  /\ hasRoute (js "duplicate") (env sys) = true
  /\ snd (getRoutePath (js "duplicate") (env sys)) = Some (js "first")
  /\ getAllRouteNames (env sys) = [js "duplicate"]
  /\ let built := fst (build (initialSystem homeConfig)) in
     let sys' := fst (refreshAndWait (withEnv (setConfig duplicateConfig) built)) in
     getAllRouteNames (env built) = [js "home"]
     /\ snd (refreshAndWait (withEnv (setConfig duplicateConfig) built))
        = Some (Throws (DuplicateRouteNameError (js "duplicate") (js "first") (js "second")))
     /\ getAllRouteNames (env sys') = [js "duplicate"].
Proof. by vm_compute. Qed.

(** C9.  In every state the service can reach by calls of [initialize],
    [reset], [refresh] and [getRoutePath], by stopped calls going on and
    by changes of the router configuration, [hasRoute(name)] is [true]
    exactly when [getRoutePath(name)] returns a path; for a blank name
    both report absence. *)
Theorem hasRoute_agrees_with_getRoutePath (sys : System) (name : list Z) :
  Reachable sys ->
  hasRoute name (env sys)
  = match snd (getRoutePath name (env sys)) with Some _ => true | None => false end
  /\ (isEmpty (trim name) = true ->
      hasRoute name (env sys) = false /\ snd (getRoutePath name (env sys)) = None).
Proof.
  intros [Hkeys _]%Reachable_invariant.
  unfold hasRoute, getRoutePath, mapHas. split.
  - destruct name as [|c rest]; simpl; [|done].
    by rewrite (Hkeys [] eq_refl).
  - intros Hblank. rewrite (Hkeys name Hblank).
    by destruct (isEmpty name).
Qed.

Lemma hasRoute_agrees_with_getRoutePath_witness :
  let sys := resumeTask 0 (resumeTask 0 (fst (initialize (initialSystem homeConfig)))) in
  Reachable sys
  /\ hasRoute (js "home") (env sys) = true
  /\ snd (getRoutePath (js "home") (env sys)) = Some (js "home")
  /\ hasRoute (js "  ") (env sys) = false.
Proof.
  intros sys.
  assert (Reachable sys) as Hreach.
  { unfold sys. eapply ReachStep; [|apply StepResume].
    eapply ReachStep; [|apply StepResume].
    eapply ReachStep; [|apply StepInitialize]. constructor. }
  split; [exact Hreach|].
  destruct (hasRoute_agrees_with_getRoutePath sys (js "home") Hreach) as [H _].
  destruct (hasRoute_agrees_with_getRoutePath sys (js "  ") Hreach) as [_ H'].
  assert (snd (getRoutePath (js "home") (env sys)) = Some (js "home")) as Hget
    by (by vm_compute).
  split; [by rewrite H, Hget|]. split; [exact Hget|].
  by apply H'.
Defined.

Lemma registerRoute_duplicate name path existingPath e :
  isEmpty (trim name) = false ->
  mapGet name (routeMap (service e)) = Some existingPath ->
  registerRoute name path e
  = Failed e (DuplicateRouteNameError name existingPath path).
Proof. intros Hblank Hget. unfold registerRoute. by rewrite Hblank, Hget. Qed.

(** The [catch] blocks of [buildRouteMap] and [performInitialization]
    pass a [NamedRouteError] on as it is; the one of [processLazyRoute]
    makes a new [NamedRouteError] of every error. *)
Lemma catch_blocks_on_NamedRouteError route fullPath error e :
  instanceofNamedRouteError error = true ->
  (exists e', buildRouteMapCatch route error e = Failed e' error)
  /\ (exists e', performInitializationCatch error e = Failed e' error)
  /\ processLazyRouteCatch fullPath error e
     = Failed e (NamedRouteError
                   (js "Failed to load lazy module at path '" ++ fullPath ++ js "': "
                    ++ errorText error)).
Proof.
  intros H. unfold buildRouteMapCatch, performInitializationCatch, bind, modify.
  simpl. rewrite H. split; [by eexists|]. split; [by eexists|done].
Qed.

(** Two routes with the same name, side by side: the build fails with
    [DuplicateRouteNameError] carrying the name, the stored path and the
    new path, also when the two paths are equal, and the entry of the
    first route stays. *)
Lemma duplicate_names_fail (name : list Z) (path1 path2 : option (list Z)) :
  isEmpty (trim name) = false ->
  let sys :=
    initialSystem
      (Some (RoutesArray [mkRoute path1 (Some name) None None;
                          mkRoute path2 (Some name) None None])) in
  snd (build sys)
  = Some (Throws (DuplicateRouteNameError name (joinPaths [] path1) (joinPaths [] path2)))
  /\ snd (getRoutePath name (env (fst (build sys)))) = Some (joinPaths [] path1).
Proof.
  intros Hblank sys.
  assert (isEmpty name = false) as Hn by (by destruct name).
  unfold build, initialize, callAsync, sys, initialSystem. cbn [env service isInitialized initializationPromise promises tasks].
  unfold performInitialization, tryCatch. cbn [config].
  rewrite buildRouteMap_eq. cbn [forEach]. rewrite !processRoute_eq.
  unfold bind, await, tryCatch, ret, registerRoute. rewrite Hn.
  cbn [service routeMap mapGet]. rewrite Hblank.
  cbn. destruct (decide (name = name)) as [_|Hne]; [|done]. cbn.
  split; [done|]. unfold getRoutePath. rewrite Hn. cbn.
  by destruct (decide (name = name)).
Qed.

(** C1, at the input on which the code fails it.  The second route named
    [dup] is in a lazily loaded subtree: the build fails, the entry of the
    first route is not overwritten, but the error that reaches the caller
    is a plain [NamedRouteError] made by the [catch] block of
    [processLazyRoute], not a [DuplicateRouteNameError]. *)
Theorem duplicate_in_lazy_subtree_is_rewrapped :
  let sys := fst (build (initialSystem lazyDuplicateConfig)) in
  let error :=
    NamedRouteError
      (js "Failed to load lazy module at path 'lazy': "
       ++ duplicateMessage (js "dup") (js "a") (js "lazy/b")) in
  snd (build (initialSystem lazyDuplicateConfig)) = Some (Throws error)
  /\ instanceofDuplicateRouteNameError error = false
  /\ snd (getRoutePath (js "dup") (env sys)) = Some (js "a").
Proof. by vm_compute. Qed.

(** *** One build at a time *)

Lemma Orderly_Reachable sys : Orderly sys -> Reachable sys.
Proof.
  induction 1; [constructor|..]; (eapply ReachStep; [eassumption|]); constructor.
Qed.

Lemma InFlight_stable p : TraversalStable (InFlight p).
Proof. by split. Qed.

Lemma isSettled_Within {X} (P : Env -> Prop) (r : Result X) : isSettled r -> Within P r.
Proof. by destruct r. Qed.

Section WithinSection.

Context {A B : Type}.
Implicit Types (P : Env -> Prop).

Lemma Within_catch_bind P (r : Result A) (f : A -> Task B) (h : JsError -> Task B) :
  (forall a e, isSettled (f a e)) ->
  (forall x e, isSettled (h x e)) ->
  P (stopEnv r) -> Preserves P r ->
  Within P (catchResult (bindResult r f) h).
Proof.
  intros Hf Hh. induction r as [e a|e x|e k IH]; simpl.
  - intros _ _. specialize (Hf a e). destruct (f a e) as [e1 b|e1 x|e1 k1]; simpl;
      [done| |done]. by apply isSettled_Within.
  - intros _ _. by apply isSettled_Within.
  - intros He Hk. split; [done|]. intros e' He'.
    destruct (Hk e') as [Hstop Hrest]. apply IH; [by apply Hstop | done].
Qed.

End WithinSection.

(** Once [initialize] has stored its promise, the build keeps the
    service referring to it at every [await]. *)
Lemma performInitialization_within p e :
  match performInitialization e with
  | Suspended _ k => forall e', InFlight p e' -> Within (InFlight p) (k e')
  | _ => True
  end.
Proof.
  unfold performInitialization, tryCatch.
  destruct (config e) as [rootRoutes|]; simpl.
  2:{ by unfold performInitializationCatch, bind, modify. }
  unfold bind at 1.
  pose proof (TaskPreserves_await _ _
                (buildRouteMap_any_preserves _ (InFlight_stable p) rootRoutes [])) as Hkeep.
  destruct (Hkeep e) as [_ Hrest]. unfold await in *.
  destruct (awaitResult_suspended (buildRouteMap rootRoutes [] e)) as [k Hk].
  rewrite Hk in *. simpl. intros e' He'.
  destruct (Hrest e') as [Hstop Hrest'].
  apply Within_catch_bind; [..|by apply Hstop|done].
  - by intros a e1.
  - intros x e1. unfold performInitializationCatch, bind, modify. simpl.
    by destruct (instanceofNamedRouteError x).
Qed.

Lemma initialize_OneBuild sys : OneBuild sys -> OneBuild (fst (initialize sys)).
Proof.
  intros H. unfold initialize.
  destruct (isInitialized (service (env sys))) eqn:Hi; [done|].
  destruct (initializationPromise (service (env sys))) as [p|] eqn:Hp; [done|].
  unfold OneBuild in H.
  destruct (tasks sys) as [|[p k] [|task rest]] eqn:Htasks; [| |done].
  2:{ destruct H as (_ & [H _] & _). congruence. }
  pose proof (performInitialization_within (List.length (promises sys)) (env sys)) as Hw.
  pose proof (performInitialization_first_stop (env sys) Hi) as Hstop.
  unfold callAsync. rewrite Htasks.
  destruct (performInitialization (env sys)) as [e a|e x|e k]; simpl in *; [done..|].
  unfold OneBuild. simpl. split; [apply list_lookup_middle; done|]. by split.
Qed.

Lemma resumeTask_OneBuild i sys : OneBuild sys -> OneBuild (resumeTask i sys).
Proof.
  intros H. unfold resumeTask, OneBuild in *.
  destruct (tasks sys) as [|[p k] [|task rest]] eqn:Htasks; [| |done].
  { rewrite lookup_nil. by rewrite Htasks. }
  destruct i as [|i]; simpl; [|by rewrite Htasks].
  destruct H as (Hpending & He & Hk). specialize (Hk (env sys) He).
  destruct (k (env sys)) as [e a|e x|e k']; simpl in *; [done..|].
  split; [done|]. by destruct Hk.
Qed.

Lemma getRoutePath_service name e : service (fst (getRoutePath name e)) = service e.
Proof.
  unfold getRoutePath. destruct (isEmpty name); [done|]. simpl.
  by destruct (negb _ && _).
Qed.

(** While [reset] and [refresh] wait for the build in flight, at most
    one build is in flight and the service refers to it. *)
Lemma Orderly_OneBuild sys : Orderly sys -> OneBuild sys.
Proof.
  induction 1 as [c|sys _ IH|i sys _ IH|name sys _ IH|c sys _ IH|sys _ IH Ht|sys _ IH Ht].
  - done.
  - by apply initialize_OneBuild.
  - by apply resumeTask_OneBuild.
  - unfold OneBuild, InFlight in *. simpl.
    destruct (tasks sys) as [|[p k] [|task rest]]; [done| |done].
    by rewrite getRoutePath_service.
  - done.
  - unfold OneBuild, reset. simpl. by rewrite Ht.
  - unfold refresh. apply initialize_OneBuild. unfold OneBuild, reset. simpl.
    by rewrite Ht.
Qed.

(** C8 (as amended).  As long as [reset] and [refresh] are called only
    while no build is in flight, at most one build is in flight, and a
    call of [initialize] while one is in flight returns the promise of
    that build, which is pending, and does nothing else: no second
    traversal, no loader call.  In every state, a call with a stored promise returns that
    promise and does nothing else, a call after a successful build
    returns at once and does nothing else, and a second call right after
    a first one changes nothing and returns what the first returned.  A
    build that succeeds on a service not yet built has called the
    loaders of the configuration, each node once, and a build after it
    leaves the state, with its log of loader calls, as it is: the two
    builds together have called each loader once. *)
Theorem initialize_coalesces (sys : System) :
  (Orderly sys ->
   (List.length (tasks sys) <= 1)%nat
   /\ forall p k,
        (p, k) ∈ tasks sys ->
        initialize sys = (sys, Adopts p) /\ promises sys !! p = Some Pending)
  /\ (forall p,
        isInitialized (service (env sys)) = false ->
        initializationPromise (service (env sys)) = Some p ->
        initialize sys = (sys, Adopts p))
  /\ (isInitialized (service (env sys)) = true -> initialize sys = (sys, ResolvedNow))
  /\ initialize (fst (initialize sys)) = initialize sys
  /\ (tasks sys = [] ->
      isInitialized (service (env sys)) = false ->
      initializationPromise (service (env sys)) = None ->
      snd (build sys) = Some (Normal tt) ->
      isInitialized (service (env (fst (build sys)))) = true
      /\ loaderCalls (env (fst (build sys)))
         = loaderCalls (env sys) ++ configLoaders (config (env sys))
      /\ build (fst (build sys)) = (fst (build sys), Some (Normal tt))).
Proof.
  split; [|split; [|split; [|split]]].
  - intros H%Orderly_OneBuild. unfold OneBuild in H.
    destruct (tasks sys) as [|[p k] [|task rest]] eqn:Htasks; [| |done].
    + split; [simpl; lia|]. by intros p k ?%elem_of_nil.
    + split; [simpl; lia|]. destruct H as (Hpending & [Hp Hi] & _).
      intros p' k' [[= -> ->]|[]%elem_of_nil]%elem_of_cons.
      unfold initialize. by rewrite Hi, Hp.
  - intros p Hi Hp. unfold initialize. by rewrite Hi, Hp.
  - intros Hi. unfold initialize. by rewrite Hi.
  - unfold initialize at 2 3.
    destruct (isInitialized (service (env sys))) eqn:Hi.
    { simpl. unfold initialize. by rewrite Hi. }
    destruct (initializationPromise (service (env sys))) as [p|] eqn:Hp.
    { simpl. unfold initialize. by rewrite Hi, Hp. }
    pose proof (performInitialization_first_stop (env sys) Hi) as Hstop.
    unfold callAsync.
    destruct (performInitialization (env sys)); simpl in *;
      unfold initialize; simpl; by rewrite Hstop.
  - intros Htasks Hi Hp. unfold build, initialize. rewrite Hi, Hp.
    unfold callAsync. rewrite Htasks.
    pose proof (performInitialization_ends (env sys)) as Hends.
    pose proof (performInitialization_calls (env sys)) as Hcalls.
    destruct (performInitialization (env sys)) as [e a|e err|e k];
      unfold settleAll, withEnv; simpl in *.
    + intros _. rewrite Hends. split; [done|]. split; [done|].
      unfold settleAll. by simpl.
    + by rewrite list_lookup_middle.
    + unfold completeTask. simpl.
      set (e1 := setService _ e).
      specialize (Hends e1). apply Ends_finish in Hends.
      specialize (Hcalls e1 eq_refl). apply ReturnsWith_finish in Hcalls.
      destruct (finish (k e1)) as [e2 [[]|err]]; simpl.
      * intros _. rewrite Hends. split; [done|]. split; [done|].
        unfold settleAll. by simpl.
      * rewrite list_lookup_insert_eq; [done|].
        rewrite List.length_app. simpl. lia.
Qed.

Lemma initialize_coalesces_witness :
  let sys := initialSystem lazyConfig in
  let inFlight := fst (initialize sys) in
  Orderly inFlight
  /\ List.map fst (tasks inFlight) = [0%nat]
  /\ initialize inFlight = (inFlight, Adopts 0)
  /\ tasks sys = []
  /\ isInitialized (service (env sys)) = false
  /\ initializationPromise (service (env sys)) = None
  /\ snd (build sys) = Some (Normal tt)
  /\ build (fst (build sys)) = (fst (build sys), Some (Normal tt))
  /\ loaderCalls (env (fst (build (fst (build sys))))) = [7%nat].
Proof.
  intros sys inFlight.
  assert (Orderly inFlight) as Horderly by (repeat constructor).
  assert (snd (build sys) = Some (Normal tt)) as Hok by (by vm_compute).
  destruct (initialize_coalesces inFlight) as (Hone & _).
  destruct (Hone Horderly) as [_ Hadopts].
  destruct (initialize_coalesces sys) as (_ & _ & _ & _ & H).
  destruct H as (_ & Hlog & H); [done..|].
  split; [exact Horderly|]. split; [by vm_compute|].
  split.
  { assert (exists k, tasks inFlight = [(0%nat, k)]) as [k Hk]
      by (eexists; by vm_compute).
    apply (Hadopts 0%nat k). rewrite Hk. apply elem_of_cons. by left. }
  split; [done|]. split; [done|]. split; [done|]. split; [exact Hok|].
  split; [exact H|]. rewrite H. cbn [fst]. by rewrite Hlog.
Defined.

(** C8 as stated fails: a call of [initialize] while a build is in
    flight can start another traversal.  A first build is in flight when
    [reset] is called, and a second build is started.  The first build
    goes on; its loader rejects, and its [catch] block clears the
    reference to the second build, which is still in flight.  The next
    call of [initialize] starts a third traversal and calls the loader
    once more, and two builds are in flight. *)
Lemma initialize_after_reset_in_flight :
  let config :=
    Some (RoutesArray
            [mkRoute (Some (js "lazy")) None None
               (Some (mkLoader 0 (Rejects (Error (js "Network error")))))]) in
  let first := fst (initialize (initialSystem config)) in
  let second := fst (initialize (reset first)) in
  let sys := resumeTask 0 (resumeTask 0 (resumeTask 0 (resumeTask 0 second))) in
  Reachable sys
  /\ List.map fst (tasks first) = [0%nat]
  /\ List.map fst (tasks second) = [0; 1]%nat
  /\ promises sys !! 0%nat
     = Some (Rejected (NamedRouteError
                         (js "Failed to load lazy module at path 'lazy': Network error")))
  /\ List.map fst (tasks sys) = [1%nat]
  /\ initializationPromise (service (env sys)) = None
  /\ loaderCalls (env sys) = [0; 0]%nat
  /\ snd (initialize sys) = Adopts 2
  /\ List.map fst (tasks (fst (initialize sys))) = [1; 2]%nat
  /\ loaderCalls (env (fst (initialize sys))) = [0; 0; 0]%nat.
Proof.
  intros config first second sys. split; [|by vm_compute].
  unfold sys, second, first.
  do 4 (eapply ReachStep; [|apply StepResume]).
  eapply ReachStep; [|apply StepInitialize].
  eapply ReachStep; [|apply StepReset].
  eapply ReachStep; [|apply StepInitialize].
  constructor.
Qed.

(** C10, at the input on which the code fails it.  With no router
    configuration, [performInitialization] throws before its first
    [await]: its [catch] block clears [initializationPromise], and then
    [initialize] stores the promise, already rejected, in it.  The
    reference is not cleared, and the next build, here after the router
    has got a configuration, starts no traversal: it returns the stored
    rejection and registers nothing. *)
Theorem missing_config_rejection_is_cached :
  let error :=
    NamedRouteError
      (js "Router configuration is not available. Ensure the router is properly configured.") in
  let failed := fst (build (initialSystem None)) in
  let retried := build (withEnv (setConfig homeConfig) failed) in
  snd (build (initialSystem None)) = Some (Throws error)
  /\ isInitialized (service (env failed)) = false
  /\ initializationPromise (service (env failed)) = Some 0%nat
  /\ promises failed = [Rejected error]
  /\ snd retried = Some (Throws error)
  /\ fst retried = withEnv (setConfig homeConfig) failed
  /\ hasRoute (js "home") (env (fst retried)) = false
  /\ snd (build (initialSystem homeConfig)) = Some (Normal tt).
Proof. by vm_compute. Qed.

(** When the failure comes after the first [await], the reference is
    cleared, as C10 says. *)
Lemma failure_after_await_clears_promise sys rootRoutes err :
  tasks sys = [] ->
  isInitialized (service (env sys)) = false ->
  initializationPromise (service (env sys)) = None ->
  config (env sys) = Some rootRoutes ->
  snd (build sys) = Some (Throws err) ->
  initializationPromise (service (env (fst (build sys)))) = None.
Proof.
  intros Htasks Hi Hp Hc. unfold build, initialize. rewrite Hi, Hp.
  unfold callAsync. rewrite Htasks.
  pose proof (performInitialization_ends (env sys)) as Hends.
  assert (exists e k, performInitialization (env sys) = Suspended e k) as (e & k & Hrun).
  { unfold performInitialization, tryCatch. rewrite Hc. unfold bind, await.
    destruct (awaitResult_suspended (buildRouteMap rootRoutes [] (env sys))) as [k ->].
    by eexists _, _. }
  rewrite Hrun in *.
  unfold settleAll, withEnv; simpl in *. unfold completeTask. simpl.
  set (e1 := setService _ e).
  specialize (Hends e1). apply Ends_finish in Hends.
  destruct (finish (k e1)) as [e2 [[]|err']]; simpl; [|done].
  rewrite list_lookup_insert_eq; [done|].
  rewrite List.length_app. simpl. lia.
Qed.

(* ================================================================== *)
(** * Further properties of the code (X1 to X17) *)
(* ================================================================== *)

(** ** Joined paths *)

Section JoinedPaths.

Implicit Types (c x : Z) (s a b : list Z).



Lemma startsWith_collapseSlashes s :
  startsWith SLASH (collapseSlashes s) = startsWith SLASH s.
Proof.
  induction s as [|c r IH]; simpl; [done|].
  destruct (c =? SLASH) eqn:Hc; simpl; [|by rewrite Hc].
  destruct (startsWith SLASH r) eqn:Hr; simpl; [|by rewrite Hc].
  by rewrite IH.
Qed.

Lemma includes_double_slash c s :
  includes [SLASH; SLASH] (c :: s)
  = (c =? SLASH) && startsWith SLASH s || includes [SLASH; SLASH] s.
Proof.
  cbn [includes isPrefixOf]. f_equal. rewrite (Z.eqb_sym SLASH c). f_equal.
  destruct s as [|y r]; cbn [isPrefixOf startsWith]; [done|].
  by rewrite (Z.eqb_sym SLASH y), andb_true_r.
Qed.

(** After the replacement no two slashes follow each other. *)
Lemma collapseSlashes_no_run s :
  includes [SLASH; SLASH] (collapseSlashes s) = false.
Proof.
  induction s as [|c r IH]; [done|].
  cbn [collapseSlashes].
  destruct ((c =? SLASH) && startsWith SLASH r) eqn:E; [done|].
  by rewrite includes_double_slash, startsWith_collapseSlashes, E, IH.
Qed.

(** The replacement changes no piece between slashes, only the number
    of empty pieces. *)
Lemma split_collapseSlashes s :
  exists p ps ps',
    split SLASH s = p :: ps
    /\ split SLASH (collapseSlashes s) = p :: ps'
    /\ List.filter (fun s => (0 <? List.length s)%nat) ps'
       = List.filter (fun s => (0 <? List.length s)%nat) ps.
Proof.
  induction s as [|c r (p & ps & ps' & Hs & Hc & Hf)].
  - by exists [], [], [].
  - cbn [collapseSlashes split]. destruct (Z.eqb_spec c SLASH) as [->|Hne].
    + destruct (startsWith SLASH r) eqn:Hr; simpl.
      * destruct r as [|y r']; [done|]. simpl in Hr, Hs. rewrite Hr in Hs.
        injection Hs as <- <-. rewrite Hc. eexists [], _, _.
        split; [done|]. split; [done|]. simpl. by rewrite Hr.
      * rewrite Hs, Hc. exists [], (p :: ps), (p :: ps').
        split; [done|]. split; [done|]. simpl. by rewrite Hf.
    + simpl. destruct (Z.eqb_spec c SLASH); [done|].
      rewrite Hs, Hc. by exists (c :: p), ps, ps'.
Qed.

Lemma segmentsOf_collapseSlashes s : segmentsOf (collapseSlashes s) = segmentsOf s.
Proof.
  unfold segmentsOf.
  destruct (split_collapseSlashes s) as (p & ps & ps' & -> & -> & Hf).
  simpl. by rewrite Hf.
Qed.

End JoinedPaths.

(** X1.  The segments of a joined path, as [interpolatePathParams]
    splits it, are the segments of the parent path followed by those of
    the child path, whatever slashes the two have at their ends; and
    when neither is empty, the joined path has no two slashes in a
    row. *)
Theorem joinPaths_segments (parent : list Z) (child : option (list Z)) :
  segmentsOf (joinPaths parent child)
  = segmentsOf parent ++ match child with Some c => segmentsOf c | None => [] end
  /\ (forall c, child = Some c -> parent <> [] -> c <> [] ->
      includes (js "//") (joinPaths parent child) = false).
Proof.
  split.
  - destruct child as [c|]; simpl; [|by rewrite List.app_nil_r].
    destruct c as [|x c']; simpl; [by rewrite List.app_nil_r|].
    destruct parent as [|y p']; [done|]. cbn [isEmpty].
    rewrite segmentsOf_collapseSlashes.
    apply (segmentsOf_app (y :: p') (x :: c')).
  - intros c -> Hp Hc. unfold joinPaths.
    destruct c; [done|]. destruct parent; [done|]. cbn [isEmpty].
    apply collapseSlashes_no_run.
Qed.

Lemma joinPaths_segments_witness :
  joinPaths (js "users/") (Some (js "/:id")) = js "users/:id"
  /\ segmentsOf (joinPaths (js "users/") (Some (js "/:id")))
     = [js "users"; js ":id"]
  /\ includes (js "//") (joinPaths (js "users/") (Some (js "/:id"))) = false.
Proof.
  destruct (joinPaths_segments (js "users/") (Some (js "/:id"))) as [H1 H2].
  split; [by vm_compute|]. split; [by rewrite H1|]. by apply (H2 (js "/:id")).
Defined.

(** ** What interpolation returns *)

Section EncodedValues.

Implicit Types (c d : Z) (s : list Z).

Lemma hexDigit_unreserved d : 0 <= d < 16 -> isUnreserved (hexDigit d) = true.
Proof.
  intros H. unfold hexDigit, isUnreserved.
  destruct (Z.ltb_spec d 10); compare_units.
Qed.

Lemma utf8Encode_octets cp :
  0 <= cp < 1114112 -> Forall (fun b => 0 <= b < 256) (utf8Encode cp).
Proof.
  intros H. unfold utf8Encode.
  repeat case_match; repeat constructor; Z.div_mod_to_equations; lia.
Qed.

Lemma percentEncode_encoded octets :
  Forall (fun b => 0 <= b < 256) octets -> Forall isEncoded (percentEncode octets).
Proof.
  induction 1 as [|b bs Hb _ IH]; [constructor|].
  rewrite percentEncode_cons. apply Forall_app. split; [|done].
  unfold percentOctet.
  constructor; [by right|].
  constructor; [left; apply hexDigit_unreserved; Z.div_mod_to_equations; lia|].
  constructor; [left; apply hexDigit_unreserved; Z.div_mod_to_equations; lia|].
  constructor.
Qed.

(** What [encodeURIComponent] returns is made of unreserved characters
    and escapes. *)
Lemma encodeURIComponent_encoded s encoded :
  Forall isCodeUnit s ->
  encodeURIComponent s = Normal encoded -> Forall isEncoded encoded.
Proof.
  remember (List.length s) as n eqn:Hn. revert s encoded Hn.
  induction n as [n IH] using lt_wf_ind. intros s encoded -> Hunits.
  destruct s as [|c rest]; simpl.
  { intros [= <-]. constructor. }
  apply Forall_cons in Hunits as [Hc Hrest]. unfold isCodeUnit in Hc.
  destruct (isUnreserved c) eqn:Hu.
  - destruct (encodeURIComponent rest) as [r|e] eqn:Hr; simpl; [|done].
    intros [= <-]. constructor; [by left|].
    eapply (IH (List.length rest)); [simpl; lia|reflexivity|done|done].
  - destruct (isLeadSurrogate c) eqn:Hl.
    + destruct rest as [|d rest']; [done|].
      destruct (isTrailSurrogate d) eqn:Ht; [|done].
      apply Forall_cons in Hrest as [Hd Hrest'].
      destruct (encodeURIComponent rest') as [r|e] eqn:Hr; simpl; [|done].
      intros [= <-]. apply Forall_app. split.
      * apply percentEncode_encoded, utf8Encode_octets.
        apply isLeadSurrogate_range in Hl. apply isTrailSurrogate_range in Ht.
        unfold pairCodePoint. lia.
      * eapply (IH (List.length rest')); [simpl; lia|reflexivity|done|done].
    + destruct (isTrailSurrogate c); [done|].
      destruct (encodeURIComponent rest) as [r|e] eqn:Hr; simpl; [|done].
      intros [= <-]. apply Forall_app. split.
      * apply percentEncode_encoded, utf8Encode_octets. lia.
      * eapply (IH (List.length rest)); [simpl; lia|reflexivity|done|done].
Qed.

(** A string of unreserved characters is its own encoding. *)
Lemma encodeURIComponent_unreserved s :
  Forall (fun c => isUnreserved c = true) s -> encodeURIComponent s = Normal s.
Proof.
  induction 1 as [|c rest Hc _ IH]; simpl; [done|]. by rewrite Hc, IH.
Qed.

(** Two strings with the same encoding are the same string. *)
Lemma encodeURIComponent_injective s1 s2 encoded :
  Forall isCodeUnit s1 -> Forall isCodeUnit s2 ->
  encodeURIComponent s1 = Normal encoded ->
  encodeURIComponent s2 = Normal encoded ->
  s1 = s2.
Proof.
  intros H1 H2 E1%decodeURIComponent_encodeURIComponent
               E2%decodeURIComponent_encodeURIComponent; [|done..].
  congruence.
Qed.

Lemma digitsOf_unreserved (digits : Decimal.uint) :
  Forall (fun c => isUnreserved c = true) (digitsOf digits).
Proof. induction digits; simpl; by constructor. Qed.

Lemma decimalOf_unreserved n : Forall (fun c => isUnreserved c = true) (decimalOf n).
Proof.
  unfold decimalOf. destruct (Z.to_int n); [|constructor; [done|]];
    apply digitsOf_unreserved.
Qed.

End EncodedValues.

(** The literals of the source are strings of code units. *)
Lemma js_isCodeUnit (literal : string) : Forall isCodeUnit (js literal).
Proof.
  unfold js. induction (list_ascii_of_string literal) as [|a rest IH]; simpl.
  - constructor.
  - constructor; [|done]. unfold isCodeUnit.
    pose proof (N_ascii_bounded a). lia.
Qed.

Lemma decimalOf_isCodeUnit (n : Z) : Forall isCodeUnit (decimalOf n).
Proof.
  eapply Forall_impl; [apply decimalOf_ascii|].
  intros c Hc. unfold isCodeUnit. simpl in Hc. lia.
Qed.

Section Contributions.

Implicit Types (routeParams : RouteParams) (segment pattern : list Z)
  (segments : list (list Z)) (acc : Acc).

Lemma interpolateLoop_result routeParams segments acc acc' :
  interpolateLoop routeParams segments acc = Normal acc' ->
  result acc' = result acc ++ List.flat_map (segmentOutput routeParams) segments.
Proof.
  revert acc. induction segments as [|seg rest IH]; intros acc; simpl.
  - intros [= <-]. by rewrite List.app_nil_r.
  - unfold segmentOutput at 1. destruct (startsWith COLON seg) eqn:Hc.
    + rewrite interpolateSegment_placeholder by done. cbv zeta.
      destruct (isPresent _) eqn:Hp; simpl.
      * destruct (encodeURIComponent _) as [enc|e]; simpl; [|done].
        intros H%IH. rewrite H. simpl. by rewrite <- List.app_assoc.
      * destruct (isOptionalOf seg); simpl; intros H%IH; by rewrite H.
    + rewrite interpolateSegment_literal by done. simpl.
      intros H%IH. rewrite H. simpl. by rewrite <- List.app_assoc.
Qed.

Lemma interpolateLoop_agree routeParams1 routeParams2 segments acc :
  Forall (fun name => getParam routeParams1 name = getParam routeParams2 name)
         (List.map paramNameOf (List.filter (startsWith COLON) segments)) ->
  interpolateLoop routeParams1 segments acc
  = interpolateLoop routeParams2 segments acc.
Proof.
  revert acc. induction segments as [|seg rest IH]; intros acc; simpl; [done|].
  destruct (startsWith COLON seg) eqn:Hc; simpl.
  - intros [Hseg Hrest]%Forall_cons.
    rewrite !interpolateSegment_placeholder by done. cbv zeta.
    rewrite Hseg.
    destruct (if isPresent _ then _ else _) as [acc1|e]; simpl; [|done].
    by apply IH.
  - intros Hrest. rewrite !interpolateSegment_literal by done. simpl.
    by apply IH.
Qed.

Lemma segmentOutput_no_slash routeParams segment :
  segment <> [] /\ SLASH ∉ segment ->
  Forall isCodeUnit (String_ (getParam routeParams (paramNameOf segment))) ->
  Forall (fun out => SLASH ∉ out) (segmentOutput routeParams segment)
  /\ (startsWith COLON segment = true ->
      Forall (Forall isEncoded) (segmentOutput routeParams segment)).
Proof.
  intros [_ Hs] Hunits. unfold segmentOutput.
  destruct (startsWith COLON segment); [|split; [by repeat constructor | done]].
  cbv zeta. destruct (isPresent _); [|split; [constructor | intros _; constructor]].
  destruct (encodeURIComponent _) as [enc|e] eqn:Henc;
    [|split; [constructor | intros _; constructor]].
  apply encodeURIComponent_encoded in Henc; [|done].
  split; [|intros _; by repeat constructor].
  repeat constructor. intros Hin.
  rewrite List.Forall_forall in Henc.
  apply list_elem_of_In, Henc in Hin. by destruct Hin.
Qed.

(** A call on a pattern that is not empty returns only when nothing is
    missing, and with what the segments contribute. *)
Lemma interpolatePathParams_result pattern routeParams segments :
  pattern <> [] ->
  interpolatePathParams (Some pattern) routeParams = Normal segments ->
  missingNames routeParams (segmentsOf pattern) = []
  /\ segments = List.flat_map (segmentOutput routeParams) (segmentsOf pattern).
Proof.
  intros Hne. rewrite interpolatePathParams_nonempty by done.
  destruct (interpolateLoop _ _ _) as [acc|e] eqn:Hloop; simpl; [|done].
  pose proof (interpolateLoop_missing _ _ _ _ Hloop) as Hm.
  pose proof (interpolateLoop_result _ _ _ _ Hloop) as Hr.
  simpl in Hm, Hr. rewrite Hm, Hr.
  destruct (missingNames _ _); simpl; [|done]. by intros [= <-].
Qed.

Lemma interpolatePathParams_returns pattern routeParams :
  pattern <> [] ->
  (forall name, isWellFormed (String_ (getParam routeParams name)) = true) ->
  missingNames routeParams (segmentsOf pattern) = [] ->
  interpolatePathParams (Some pattern) routeParams
  = Normal (List.flat_map (segmentOutput routeParams) (segmentsOf pattern)).
Proof.
  intros Hne Hwf Hnone. rewrite interpolatePathParams_nonempty by done.
  destruct (interpolateLoop_normal routeParams (segmentsOf pattern)
              (mkAcc [] []) Hwf) as [acc Hloop].
  rewrite Hloop. simpl.
  pose proof (interpolateLoop_missing _ _ _ _ Hloop) as Hm.
  pose proof (interpolateLoop_result _ _ _ _ Hloop) as Hr.
  simpl in Hm, Hr. by rewrite Hm, Hnone, Hr.
Qed.

(** The outcome of the loop and of the test after it when a required
    parameter is missing. *)
Lemma interpolateLoop_fails_missing routeParams pattern :
  (forall name, isWellFormed (String_ (getParam routeParams name)) = true) ->
  missingNames routeParams (segmentsOf pattern) <> [] ->
  isEmpty pattern = false
  /\ exists acc,
       interpolateLoop routeParams (segmentsOf pattern) (mkAcc [] []) = Normal acc
       /\ missingParams acc = missingNames routeParams (segmentsOf pattern)
       /\ (0 <? List.length (missingParams acc))%nat = true.
Proof.
  intros Hwf Hmissing. split.
  { destruct pattern; [|done]. by destruct Hmissing. }
  destruct (interpolateLoop_normal routeParams (segmentsOf pattern) (mkAcc [] []) Hwf)
    as [acc Hloop].
  exists acc. split; [done|].
  pose proof (interpolateLoop_missing _ _ _ _ Hloop) as Hm. simpl in Hm.
  split; [done|]. rewrite Hm. by destruct (missingNames _ _).
Qed.

End Contributions.

(** X2.  A call of [interpolatePathParams] on a pattern that is not
    empty returns only when no required parameter is missing, and then
    with what the segments contribute, in their order: a literal itself,
    a placeholder the encoded value of its parameter, or nothing when
    it has none.  A parameter has a value when the read of the property
    gives something else than [undefined] and [null], an inherited
    property included.  When every value the bag yields has a
    well-formed string form and no required parameter is missing, the
    call does return. *)
Theorem interpolate_returns_contributions (pattern : list Z)
    (routeParams : RouteParams) :
  pattern <> [] ->
  (forall segments,
     interpolatePathParams (Some pattern) routeParams = Normal segments ->
     missingNames routeParams (segmentsOf pattern) = []
     /\ segments = List.flat_map (segmentOutput routeParams) (segmentsOf pattern))
  /\ ((forall name, isWellFormed (String_ (getParam routeParams name)) = true) ->
      missingNames routeParams (segmentsOf pattern) = [] ->
      interpolatePathParams (Some pattern) routeParams
      = Normal (List.flat_map (segmentOutput routeParams) (segmentsOf pattern))).
Proof.
  intros Hne. split.
  - intros segments. by apply interpolatePathParams_result.
  - by apply interpolatePathParams_returns.
Qed.

Lemma interpolate_returns_contributions_witness :
  let routeParams :=
    objectLiteral {[ js "userId" := VNum (mkSafeInteger 456 I);
                     js "postId" := VStr (js "a b") ]} in
  missingNames routeParams
    (segmentsOf (js "users/:userId/posts/:postId/:tab?/:constructor")) = []
  /\ interpolatePathParams
       (Some (js "users/:userId/posts/:postId/:tab?/:constructor")) routeParams
     = Normal [js "users"; js "456"; js "posts"; js "a%20b";
               js "function%20Object()%20%7B%20%5Bnative%20code%5D%20%7D"].
Proof.
  intros routeParams. split; [by vm_compute|].
  destruct (interpolate_returns_contributions
              (js "users/:userId/posts/:postId/:tab?/:constructor") routeParams)
    as [_ H]; [done|].
  rewrite H; [by vm_compute| |by vm_compute].
  apply objectLiteral_wellFormed. intros name v Hv.
  destruct (decide (name = js "userId")) as [->|Hn1].
  { vm_compute in Hv. by injection Hv as <-. }
  destruct (decide (name = js "postId")) as [->|Hn2].
  { vm_compute in Hv. by injection Hv as <-. }
  rewrite lookup_insert_ne in Hv by done.
  by rewrite lookup_singleton_ne in Hv by done.
Defined.

(** X3.  No segment that [interpolatePathParams] returns for a pattern
    that is not empty contains a slash, whatever the values are: a
    literal is a piece between slashes, and a value is encoded, which
    leaves only unreserved characters and escapes.  (The values are
    strings of code units.) *)
Theorem interpolate_segments_have_no_slash (pattern : list Z)
    (routeParams : RouteParams) (segments : list (list Z)) :
  pattern <> [] ->
  (forall name, Forall isCodeUnit (String_ (getParam routeParams name))) ->
  interpolatePathParams (Some pattern) routeParams = Normal segments ->
  Forall (fun segment => SLASH ∉ segment) segments
  /\ Forall (fun segment => Forall (Forall isEncoded) (segmentOutput routeParams segment))
            (List.filter (startsWith COLON) (segmentsOf pattern)).
Proof.
  intros Hne Hget Hrun.
  destruct (interpolatePathParams_result pattern routeParams segments Hne Hrun)
    as [_ ->]. clear Hrun.
  pose proof (segmentsOf_spec pattern) as Hspec.
  induction Hspec as [|seg rest Hseg _ [IH1 IH2]]; simpl; [by split|].
  destruct (segmentOutput_no_slash routeParams seg Hseg (Hget _)) as [H1 H2].
  split; [apply Forall_app; by split|].
  destruct (startsWith COLON seg) eqn:Hc; [|done].
  constructor; [by apply H2 | done].
Qed.

Lemma interpolate_segments_have_no_slash_witness :
  let routeParams := objectLiteral {[ js "path" := VStr (js "a/b?c#d") ]} in
  interpolatePathParams (Some (js "files/:path")) routeParams
  = Normal [js "files"; js "a%2Fb%3Fc%23d"]
  /\ Forall (fun segment => SLASH ∉ segment) [js "files"; js "a%2Fb%3Fc%23d"].
Proof.
  intros routeParams.
  assert (interpolatePathParams (Some (js "files/:path")) routeParams
          = Normal [js "files"; js "a%2Fb%3Fc%23d"]) as Hrun by (by vm_compute).
  split; [exact Hrun|].
  refine (proj1 (interpolate_segments_have_no_slash (js "files/:path") routeParams
                   _ _ _ Hrun)); [done|].
  apply objectLiteral_isCodeUnit.
  intros name v Hv. destruct (decide (name = js "path")) as [->|Hn].
  - vm_compute in Hv. injection Hv as <-. apply (js_isCodeUnit "a/b?c#d").
  - by rewrite lookup_singleton_ne in Hv by done.
Defined.

(** X4.  A value whose string form has only unreserved characters is
    appended as it is.  Every safe integer is such a value: up to
    2^53 - 1 in magnitude [String] gives the decimal notation of the
    number, which is what the loop appends. *)
Theorem interpolate_keeps_unreserved_values (routeParams : RouteParams)
    (segment : list Z) (acc : Acc) :
  startsWith COLON segment = true ->
  (forall n : SafeInteger,
     getParam routeParams (paramNameOf segment) = VNum n ->
     Z.abs (integerValue n) <= 2 ^ 53 - 1
     /\ interpolateSegment routeParams segment acc
        = Normal (mkAcc (result acc ++ [decimalOf (integerValue n)]) (missingParams acc)))
  /\ (forall text,
        getParam routeParams (paramNameOf segment) = VStr text ->
        Forall (fun c => isUnreserved c = true) text ->
        interpolateSegment routeParams segment acc
        = Normal (mkAcc (result acc ++ [text]) (missingParams acc))).
Proof.
  intros Hc. split.
  - intros n Hv. split.
    { pose proof (Is_true_eq_true _ (integerIsSafe n)) as Hn.
      unfold isSafeInteger, MAX_SAFE_INTEGER in Hn.
      apply andb_true_iff in Hn as [H1 H2]. lia. }
    rewrite interpolateSegment_placeholder by done. cbv zeta.
    rewrite Hv. simpl.
    by rewrite (encodeURIComponent_unreserved _ (decimalOf_unreserved (integerValue n))).
  - intros text Hv Hu. rewrite interpolateSegment_placeholder by done. cbv zeta.
    rewrite Hv. simpl. by rewrite (encodeURIComponent_unreserved _ Hu).
Qed.

Lemma interpolate_keeps_unreserved_values_witness :
  startsWith COLON (js ":id") = true
  /\ interpolateSegment (objectLiteral {[ js "id" := VNum (mkSafeInteger (-42) I) ]})
       (js ":id") (mkAcc [js "users"] [])
     = Normal (mkAcc [js "users"; js "-42"] []).
Proof.
  split; [done|].
  destruct (interpolate_keeps_unreserved_values
              (objectLiteral {[ js "id" := VNum (mkSafeInteger (-42) I) ]})
              (js ":id") (mkAcc [js "users"] []))
    as [H _]; [done|].
  by destruct (H (mkSafeInteger (-42) I)) as [_ ->].
Defined.

(** X5.  [interpolatePathParams] reads the properties that the
    placeholders of the pattern name and nothing else: two bags for
    which the reads of these properties give the same values give the
    same outcome, the error included.  (A read finds an inherited
    property when the bag has none of its own: [{}] and
    [{constructor: undefined}] differ in what [constructor] reads.) *)
Theorem interpolate_reads_named_parameters (pattern : list Z)
    (routeParams1 routeParams2 : RouteParams) :
  Forall (fun name => getParam routeParams1 name = getParam routeParams2 name)
         (placeholderNames pattern) ->
  interpolatePathParams (Some pattern) routeParams1
  = interpolatePathParams (Some pattern) routeParams2.
Proof.
  intros H. unfold interpolatePathParams.
  destruct (isEmpty pattern); [done|].
  by rewrite (interpolateLoop_agree routeParams1 routeParams2).
Qed.

Lemma interpolate_reads_named_parameters_witness :
  let routeParams1 := objectLiteral {[ js "id" := VNum (mkSafeInteger 7 I) ]} in
  let routeParams2 :=
    mkRouteParams {[ js "tab" := VStr (js "profile") ]}
                  {[ js "id" := VNum (mkSafeInteger 7 I) ]} in
  placeholderNames (js "users/:id(\d+)") = [js "id"]
  /\ interpolatePathParams (Some (js "users/:id(\d+)")) routeParams1
     = interpolatePathParams (Some (js "users/:id(\d+)")) routeParams2
  /\ getParam (objectLiteral ∅) (js "constructor")
     <> getParam (objectLiteral {[ js "constructor" := VUndefined ]}) (js "constructor").
Proof.
  intros routeParams1 routeParams2. split; [by vm_compute|]. split; [|done].
  apply interpolate_reads_named_parameters.
  assert (placeholderNames (js "users/:id(\d+)") = [js "id"]) as -> by (by vm_compute).
  by repeat constructor.
Defined.

(** X6.  Two values with different string forms never give the same
    segment: when two bags make the loop append the same segment for a
    placeholder, the values of its parameter have the same string
    form. *)
Theorem interpolate_values_are_told_apart (routeParams1 routeParams2 : RouteParams)
    (segment : list Z) (acc acc' : Acc) :
  startsWith COLON segment = true ->
  isPresent (getParam routeParams1 (paramNameOf segment)) = true ->
  isPresent (getParam routeParams2 (paramNameOf segment)) = true ->
  Forall isCodeUnit (String_ (getParam routeParams1 (paramNameOf segment))) ->
  Forall isCodeUnit (String_ (getParam routeParams2 (paramNameOf segment))) ->
  interpolateSegment routeParams1 segment acc = Normal acc' ->
  interpolateSegment routeParams2 segment acc = Normal acc' ->
  String_ (getParam routeParams1 (paramNameOf segment))
  = String_ (getParam routeParams2 (paramNameOf segment)).
Proof.
  intros Hc Hp1 Hp2 Hu1 Hu2.
  rewrite !interpolateSegment_placeholder by done. cbv zeta.
  rewrite Hp1, Hp2.
  destruct (encodeURIComponent (String_ (getParam routeParams1 _)))
    as [enc1|e1] eqn:E1; simpl; [|done].
  destruct (encodeURIComponent (String_ (getParam routeParams2 _)))
    as [enc2|e2] eqn:E2; simpl; [|done].
  intros [= <-] [= H]. apply app_inj_tail in H as [_ ->].
  by eapply encodeURIComponent_injective.
Qed.

Lemma interpolate_values_are_told_apart_witness :
  let routeParams1 := objectLiteral {[ js "id" := VNum (mkSafeInteger 5 I) ]} in
  let routeParams2 := objectLiteral {[ js "id" := VStr (js "5") ]} in
  interpolateSegment routeParams1 (js ":id") (mkAcc [] [])
  = interpolateSegment routeParams2 (js ":id") (mkAcc [] [])
  /\ String_ (getParam routeParams1 (paramNameOf (js ":id")))
     = String_ (getParam routeParams2 (paramNameOf (js ":id"))).
Proof.
  intros routeParams1 routeParams2.
  split; [by vm_compute|].
  apply (interpolate_values_are_told_apart routeParams1 routeParams2
           (js ":id") (mkAcc [] []) (mkAcc [js "5"] []));
    [done | done | done | apply (decimalOf_isCodeUnit 5)
     | apply (js_isCodeUnit "5") | by vm_compute | by vm_compute].
Defined.

(** ** What a build registers *)


Section Settling.

Context {A B : Type}.





End Settling.

(** *** The rules of [Registers] *)










(** *** The traversal adds the entries of the configuration *)







Lemma onExtractedRoutes_all (P : Route -> Prop) loaded :
  LoadedAll P loaded -> onExtractedRoutes loaded (Forall P).
Proof.
  destruct loaded as [routes|[d|] [|r|positive] [] [i|]|[i|] [|s|positive]|]; simpl;
    try tauto; by constructor.
Qed.

Lemma onExtractedRoutes_flat_map {X} (P : X -> Prop) (Q : Route -> Prop)
    (f : Route -> list X) loaded :
  (forall routes, Forall Q routes -> Forall P (List.flat_map f routes)) ->
  LoadedAll Q loaded ->
  Forall P (onExtractedRoutes loaded (List.flat_map f)).
Proof.
  intros Hf Hloaded. apply onExtractedRoutes_all in Hloaded.
  destruct loaded as [routes|[d|] [|r|positive] [] [i|]|[i|] [|s|positive]|]; simpl in *;
    exact (Hf _ Hloaded).
Qed.

Lemma Forall_flat_map_all {X Y} (P : Y -> Prop) (f : X -> list Y) (xs : list X) :
  Forall (fun x => Forall P (f x)) xs -> Forall P (List.flat_map f xs).
Proof.
  induction 1 as [|x rest Hx _ IH]; simpl; [constructor|].
  apply Forall_app. by split.
Qed.

(** No blank name is among the entries of a configuration. *)
Lemma registrations_not_blank route :
  forall parentPath,
    Forall (fun entry => isEmpty (trim (fst entry)) = false)
           (registrations route parentPath).
Proof.
  induction route as [path name children loadChildren Hchildren Hloader]
    using Route_nested_ind.
  intros parentPath. cbn [registrations]. cbv zeta.
  set (fullPath := joinPaths parentPath path).
  apply Forall_app. split; [|apply Forall_app; split].
  - destruct name as [n|]; [|constructor].
    destruct (isEmpty (trim n)) eqn:Hn; [constructor|]. by repeat constructor.
  - destruct children as [routes|]; [|constructor].
    apply Forall_flat_map_all. eapply Forall_impl; [exact Hchildren|].
    intros route H. apply H.
  - destruct loadChildren as [[i [loaded|reason]]|]; try constructor.
    eapply onExtractedRoutes_flat_map; [|exact Hloader].
    intros routes Hroutes. apply Forall_flat_map_all.
    eapply Forall_impl; [exact Hroutes|]. intros route H. apply H.
Qed.




(** *** What the traversal throws *)


Section Throwing.

Context {A B : Type}.






End Throwing.











(** A module whose [routes] is a string: the loader resolves, and the
    build rejects, since [extractRoutesFromNgModule] returns the string
    and [buildRouteMap] refuses it.  With a [routes] that has no
    [length], a number say, nothing is visited and the build succeeds. *)
Lemma build_refuses_invalid_routes :
  let config (lengthIsPositive : bool) :=
    Some (RoutesArray
            [mkRoute (Some (js "lazy")) None None
               (Some (mkLoader 0 (Resolves
                  (LoadedObject None (RoutesOther lengthIsPositive) true None))))]) in
  snd (build (initialSystem (config true)))
  = Some (Throws (NamedRouteError
       (js "Failed to load lazy module at path 'lazy': Invalid routes configuration: expected an array")))
  /\ snd (build (initialSystem (config false))) = Some (Normal tt)
  /\ snd (build (initialSystem
        (Some (RoutesArray
           [mkRoute (Some (js "lazy")) None None
              (Some (mkLoader 0 (Resolves
                 (LoadedFunction None (RoutesOther true)))))]))))
     = Some (Throws (NamedRouteError
       (js "Failed to load lazy module at path 'lazy': Invalid routes configuration: expected an array"))).
Proof. by vm_compute. Qed.









(** *** Blank names *)

Section BlankNames.

Implicit Types (s : list Z).

Lemma isEmpty_rev s : isEmpty (List.rev s) = isEmpty s.
Proof. destruct s as [|c r]; [done|]. simpl. by destruct (List.rev r). Qed.

Lemma isEmpty_trimStart s : isEmpty (trimStart s) = List.forallb isWhiteSpace s.
Proof.
  induction s as [|c r IH]; simpl; [done|].
  by destruct (isWhiteSpace c).
Qed.

Lemma forallb_trimStart s :
  List.forallb isWhiteSpace (trimStart s) = List.forallb isWhiteSpace s.
Proof.
  induction s as [|c r IH]; simpl; [done|].
  destruct (isWhiteSpace c) eqn:Hc; simpl; [done|]. by rewrite Hc.
Qed.

Lemma forallb_rev {X} (f : X -> bool) (xs : list X) :
  List.forallb f (List.rev xs) = List.forallb f xs.
Proof.
  induction xs as [|x rest IH]; simpl; [done|].
  rewrite List.forallb_app, IH. simpl. rewrite andb_true_r. apply andb_comm.
Qed.

(** A name is blank when it has white space only. *)
Lemma isEmpty_trim s : isEmpty (trim s) = List.forallb isWhiteSpace s.
Proof.
  unfold trim.
  by rewrite isEmpty_rev, isEmpty_trimStart, forallb_rev, forallb_trimStart.
Qed.

End BlankNames.

(** X11.  The names [registerRoute] skips are those of white space
    only, the empty one included: for such a name it writes a warning
    and returns, whatever the registry holds, and no entry of a
    configuration has such a name; for every other name it throws
    [DuplicateRouteNameError] when the name is registered, and else adds
    the entry after those the registry holds. *)
Theorem blank_names_are_skipped (name path : list Z) (e : Env) :
  registerRoute name path e
  = (if List.forallb isWhiteSpace name then
       Done (logConsole
               (ConsoleWarn (js "Attempted to register route with empty name, skipping"))
               e) tt
     else
       match mapGet name (routeMap (service e)) with
       | Some existingPath => Failed e (DuplicateRouteNameError name existingPath path)
       | None =>
           Done (setService (setRouteMap (routeMap (service e) ++ [(name, path)])) e) tt
       end)
  /\ (forall route parentPath entryPath,
        (name, entryPath) ∈ registrations route parentPath ->
        List.forallb isWhiteSpace name = false).
Proof.
  split.
  - unfold registerRoute. rewrite isEmpty_trim.
    destruct (List.forallb isWhiteSpace name); [done|].
    destruct (mapGet name _) eqn:Hget; [done|]. by rewrite (mapSet_absent _ _ _ Hget).
  - intros route parentPath entryPath Hin.
    pose proof (registrations_not_blank route parentPath) as Hnb.
    rewrite List.Forall_forall in Hnb.
    apply list_elem_of_In, Hnb in Hin. simpl in Hin. by rewrite isEmpty_trim in Hin.
Qed.

(** *** The loaders a build calls *)


Section Logging.

Context {A B : Type}.










End Logging.














(** ** Navigation by name *)

Section NavigationByName.

Context {UrlTree : Type} (router : Router UrlTree).

Lemma getRoutePath_value name e :
  snd (getRoutePath name e)
  = if isEmpty name then None else mapGet name (routeMap (service e)).
Proof. unfold getRoutePath. by destruct (isEmpty name). Qed.

(** [navigate] from a state in which [routeName] is registered. *)
Lemma navigate_registered routeName pattern extras e :
  routeName <> [] ->
  mapGet routeName (routeMap (service e)) = Some pattern ->
  Navigation.navigate router routeName extras e
  = catchResult
      match Navigation.createUrlTreeFromPattern router pattern extras with
      | Throws error => Failed e error
      | Normal urlTree =>
          Navigation.awaitNavigation
            (Router.navigateByUrl router urlTree
               (Navigation.extractNavigationExtras extras)) e
      end
      (Navigation.navigateCatch routeName).
Proof.
  intros Hname Hget. unfold Navigation.navigate, getRoutePath, mapHas.
  destruct routeName; [done|]. cbn [isEmpty]. by rewrite Hget.
Qed.

Lemma navigate_service routeName extras e :
  service (fst (finish (Navigation.navigate router routeName extras e))) = service e.
Proof.
  unfold Navigation.navigate.
  destruct (isEmpty routeName); [done|].
  pose proof (getRoutePath_service routeName e) as Hs.
  destruct (getRoutePath routeName e) as [e1 [pattern|]]; simpl in *; [|done].
  unfold tryCatch.
  destruct (Navigation.createUrlTreeFromPattern router pattern extras)
    as [urlTree|error]; simpl; [|done].
  by destruct (Router.navigateByUrl _ _ _).
Qed.

Lemma navigate_throws routeName extras e x :
  snd (finish (Navigation.navigate router routeName extras e)) = Throws x ->
  exists text, x = Error (js "NamedRouterService: " ++ text).
Proof.
  unfold Navigation.navigate.
  destruct (isEmpty routeName).
  { intros [= <-]. by exists (js "Route name must be a non-empty string"). }
  destruct (getRoutePath routeName e) as [e1 [pattern|]]; simpl.
  2:{ intros [= <-]. by exists (js "Route '" ++ routeName ++ js "' not found in registry"). }
  unfold tryCatch.
  assert (forall error,
            Error (js "NamedRouterService: Navigation to '" ++ routeName
                   ++ js "' failed: " ++ errorText error)
            = Error (js "NamedRouterService: "
                     ++ js "Navigation to '" ++ routeName
                     ++ js "' failed: " ++ errorText error)) as Heq by done.
  destruct (Navigation.createUrlTreeFromPattern router pattern extras)
    as [urlTree|error]; simpl.
  - destruct (Router.navigateByUrl _ _ _); simpl; [done|..];
      intros [= <-]; by eexists.
  - intros [= <-]. by eexists.
Qed.

(** The two copies of [interpolatePathParams] return the same segments
    and fail together. *)
Lemma directive_interpolatePathParams inputs pattern :
  match interpolatePathParams (Some pattern) (NamedRouterLinkDirective.routeParams inputs) with
  | Normal segments =>
      NamedRouterLinkDirective.interpolatePathParams inputs pattern = Normal segments
  | Throws _ =>
      exists error,
        NamedRouterLinkDirective.interpolatePathParams inputs pattern = Throws error
  end.
Proof.
  unfold interpolatePathParams, NamedRouterLinkDirective.interpolatePathParams.
  destruct (isEmpty pattern); [done|].
  destruct (interpolateLoop _ _ _) as [acc|error]; simpl; [|by eexists].
  destruct (0 <? List.length (missingParams acc))%nat; [by eexists | done].
Qed.

Lemma directive_createUrlTree inputs pattern :
  match Navigation.createUrlTreeFromPattern router pattern
          (Some (NamedRouterLinkDirective.extrasOf inputs)) with
  | Normal urlTree =>
      NamedRouterLinkDirective.createUrlTree router inputs pattern = Normal urlTree
  | Throws _ =>
      exists error,
        NamedRouterLinkDirective.createUrlTree router inputs pattern = Throws error
  end.
Proof.
  unfold Navigation.createUrlTreeFromPattern, NamedRouterLinkDirective.createUrlTree.
  pose proof (directive_interpolatePathParams inputs pattern) as H.
  change (default (objectLiteral ∅) (Some (NamedRouterLinkDirective.extrasOf inputs)
                                      ≫= Extras.routeParams))
    with (NamedRouterLinkDirective.routeParams inputs).
  destruct (interpolatePathParams _ _) as [segments|error].
  - rewrite H. simpl. by destruct (Router.createUrlTree _ _ _); [|eexists].
  - destruct H as [error' ->]. by eexists.
Qed.

Lemma updateHref_value inputs e :
  snd (NamedRouterLinkDirective.updateHref router inputs e)
  = if isEmpty (NamedRouterLinkDirective.name inputs) then None
    else
      match mapGet (NamedRouterLinkDirective.name inputs) (routeMap (service e)) with
      | None => None
      | Some pattern =>
          match NamedRouterLinkDirective.createUrlTree router inputs pattern
                ≫= Router.serializeUrl router with
          | Normal href => Some href
          | Throws _ => None
          end
      end.
Proof.
  unfold NamedRouterLinkDirective.updateHref.
  destruct (isEmpty (NamedRouterLinkDirective.name inputs)) eqn:Hn; [done|].
  pose proof (getRoutePath_value (NamedRouterLinkDirective.name inputs) e) as Hv.
  rewrite Hn in Hv.
  destruct (getRoutePath _ e) as [e1 pathPattern]. simpl in Hv. subst pathPattern.
  destruct (mapGet _ _) as [pattern|]; [|done].
  by destruct (_ ≫= _).
Qed.

End NavigationByName.

(** X13.  [navigate] of a registered name, when nothing else happens in
    between.  It leaves the registry as it is, and it rejects only with
    an [Error] whose message starts with ['NamedRouterService: '].  A
    failure to make the URL tree or to navigate is rejected with the
    name of the route in the message, where [createUrlTree] throws the
    error as it is: when a required parameter is missing, the message
    of [navigate] names the route and the one of [createUrlTree] does
    not.  The parameters are read from [extras.routeParams], and from
    [{}] when there is none, which still yields what [Object.prototype]
    has.  When the URL tree is made, the promise settles as the one of
    [router.navigateByUrl] does, which gets the extras without
    [routeParams] and [queryParams]. *)
Theorem navigate_names_the_route {UrlTree : Type} (router : Router UrlTree)
    (routeName pattern : list Z) (extras : option Extras) (e : Env) :
  routeName <> [] ->
  mapGet routeName (routeMap (service e)) = Some pattern ->
  let run := finish (Navigation.navigate router routeName extras e) in
  let failed error :=
    Error (js "NamedRouterService: Navigation to '" ++ routeName
           ++ js "' failed: " ++ errorText error) in
  let routeParams := default (objectLiteral ∅) (extras ≫= Extras.routeParams) in
  service (fst run) = service e
  /\ (forall x, snd run = Throws x ->
                exists text, x = Error (js "NamedRouterService: " ++ text))
  /\ snd (Navigation.createUrlTree router routeName extras e)
     = Navigation.createUrlTreeFromPattern router pattern extras
  /\ snd run
     = match Navigation.createUrlTreeFromPattern router pattern extras with
       | Throws error => Throws (failed error)
       | Normal urlTree =>
           match Router.navigateByUrl router urlTree
                   (Navigation.extractNavigationExtras extras) with
           | NavigationResolves ok => Normal ok
           | NavigationRejects reason | NavigationThrows reason =>
               Throws (failed reason)
           end
       end
  /\ ((forall name, isWellFormed (String_ (getParam routeParams name)) = true) ->
      missingNames routeParams (segmentsOf pattern) <> [] ->
      Navigation.createUrlTreeFromPattern router pattern extras
      = Throws (Error (missingMessage (missingNames routeParams (segmentsOf pattern))))).
Proof.
  intros Hname Hget run failed routeParams.
  split; [apply navigate_service|]. split; [apply navigate_throws|]. split.
  { unfold Navigation.createUrlTree, getRoutePath, mapHas.
    destruct routeName; [done|]. cbn [isEmpty]. by rewrite Hget. }
  split.
  { unfold run. rewrite (navigate_registered router routeName pattern) by done.
    destruct (Navigation.createUrlTreeFromPattern router pattern extras)
      as [urlTree|error]; simpl; [|done].
    by destruct (Router.navigateByUrl _ _ _). }
  intros Hwf Hmissing.
  destruct (interpolateLoop_fails_missing _ pattern Hwf Hmissing)
    as (Hne & acc & Hloop & Hm & Hlen).
  unfold Navigation.createUrlTreeFromPattern, interpolatePathParams.
  fold routeParams. rewrite Hne, Hloop. simpl. by rewrite Hlen, Hm.
Qed.

Lemma navigate_names_the_route_witness :
  let e := builtEnv [(js "user-detail", js "users/:id");
                     (js "maker", js "users/:constructor")] in
  snd (finish (Navigation.navigate pathRouter (js "user-detail") None e))
  = Throws (Error (js "NamedRouterService: Navigation to 'user-detail' failed: Missing required route parameters: id"))
  /\ snd (Navigation.createUrlTree pathRouter (js "user-detail") None e)
     = Throws (Error (js "Missing required route parameters: id"))
  /\ snd (Navigation.createUrlTree pathRouter (js "maker") None e)
     = Normal (js "/users/function%20Object()%20%7B%20%5Bnative%20code%5D%20%7D").
Proof.
  intros e.
  destruct (navigate_names_the_route pathRouter (js "user-detail") (js "users/:id")
              None e) as (_ & _ & Htree & Hrun & Hmissing); [done..|].
  rewrite Hrun, Htree, Hmissing; [by vm_compute| |by vm_compute].
  apply objectLiteral_wellFormed.
  intros name v Hv. by rewrite lookup_empty in Hv.
Defined.



(** ** The link directive *)

(** X15.  The [href] of a link is the URL
    [NamedRouterService.serializeUrl] gives for the name and the inputs
    of the link, and [null] when that throws (no name, a name that is
    not registered, a missing parameter, an error of the router);
    [updateHref] leaves the registry as it is. *)
Theorem link_href_is_the_serialized_url {UrlTree : Type} (router : Router UrlTree)
    (inputs : NamedRouterLinkDirective.Inputs) (e : Env) :
  snd (NamedRouterLinkDirective.updateHref router inputs e)
  = match snd (Navigation.serializeUrl router (NamedRouterLinkDirective.name inputs)
                 (Some (NamedRouterLinkDirective.extrasOf inputs)) e) with
    | Normal url => Some url
    | Throws _ => None
    end
  /\ service (fst (NamedRouterLinkDirective.updateHref router inputs e)) = service e.
Proof.
  split.
  - rewrite updateHref_value.
    unfold Navigation.serializeUrl, Navigation.createUrlTree.
    destruct (isEmpty (NamedRouterLinkDirective.name inputs)) eqn:Hn; [done|].
    pose proof (getRoutePath_value (NamedRouterLinkDirective.name inputs) e) as Hv.
    rewrite Hn in Hv.
    destruct (getRoutePath _ e) as [e1 pathPattern]. simpl in Hv. subst pathPattern.
    destruct (mapGet _ _) as [pattern|]; [|done]. simpl.
    pose proof (directive_createUrlTree router inputs pattern) as H.
    destruct (Navigation.createUrlTreeFromPattern _ _ _) as [urlTree|error]; simpl.
    + by rewrite H.
    + by destruct H as [error' ->].
  - unfold NamedRouterLinkDirective.updateHref.
    destruct (isEmpty (NamedRouterLinkDirective.name inputs)) eqn:Hn; [done|].
    pose proof (getRoutePath_service (NamedRouterLinkDirective.name inputs) e) as Hs.
    destruct (getRoutePath _ e) as [e1 pathPattern]. simpl in Hs.
    destruct pathPattern as [pattern|]; [|done].
    by destruct (_ ≫= _).
Qed.



